(** * Translation pipeline of the course repository: model and properties

    The repository holds maintenance scripts for static HTML course pages.
    This development embeds the batched machine-translation pipeline that
    five of the scripts share (text classifier, phrase batcher, translation
    client, translation cache, text-node rewriter) and states the properties
    of its specification over that embedding.

    Conventions of the embedding:
    - a Python [str] is the list of its Unicode code points ([list N]);
    - a [dict] is a [gmap]; a cache passed by reference is threaded through
      a state monad together with the trace of network requests, sleeps and
      printed lines;
    - an exception is the [Raise] outcome of that monad; state changes made
      before the exception are kept, as in Python;
    - a network request is answered by an oracle that is a parameter of the
      development: it may answer every request differently or fail it;
    - a [while] loop whose progress is not structural takes fuel. *)

From Stdlib Require Import PrimFloat Uint63.
From stdpp Require Import gmap list strings.

Set Warnings "-inexact-float,-clear-no-such-hyp".
Local Open Scope N_scope.

(** ** Python strings *)

Module Py.

(** A string is its sequence of code points. *)
Abbreviation str := (list N).

(** An ASCII literal, character by character. *)
Definition lit (s : string) : str :=
  Ascii.N_of_ascii <$> String.list_ascii_of_string s.

(** The character tables of the interpreter.  Whitespace and the ASCII
    half of the other classes are written out as CPython defines them; the
    rest comes from the Unicode database, which is not part of the
    repository, and is a parameter. *)
Class Unicode : Type := {
  uni_isalpha : N → bool;
  uni_isalnum : N → bool;
  uni_isdecimal : N → bool;
  uni_lower : N → list N
}.

Definition in_range (lo hi c : N) : bool := (lo <=? c) && (c <=? hi).

(** The tables cut down to Latin-1, for running the examples: letters are
    the Latin-1 letters, the other alphanumerics its superscript digits
    and fractions, there is no decimal digit above ASCII, and the capital
    letters lower by 32.  Above U+00FF every class is empty. *)
Definition latin1_tables : Unicode := {|
  uni_isalpha c :=
    (c =? 0xaa) || (c =? 0xb5) || (c =? 0xba) || in_range 0xc0 0xd6 c
    || in_range 0xd8 0xf6 c || in_range 0xf8 0xff c;
  uni_isalnum c :=
    (c =? 0xaa) || (c =? 0xb5) || (c =? 0xba) || in_range 0xc0 0xd6 c
    || in_range 0xd8 0xf6 c || in_range 0xf8 0xff c
    || (c =? 0xb2) || (c =? 0xb3) || (c =? 0xb9) || in_range 0xbc 0xbe c;
  uni_isdecimal c := false;
  uni_lower c :=
    if in_range 0xc0 0xde c && negb (c =? 0xd7) then [c + 32] else [c]
|}.

Definition is_ascii (c : N) : bool := c <? 128.
Definition ascii_upper (c : N) : bool := in_range 65 90 c.
Definition ascii_lower (c : N) : bool := in_range 97 122 c.
(** [("A" <= ch <= "Z") or ("a" <= ch <= "z")] *)
Definition ascii_letter (c : N) : bool := ascii_upper c || ascii_lower c.
Definition ascii_digit (c : N) : bool := in_range 48 57 c.

(** [ch.isspace()], also the class [\s] of [re] on [str] patterns:
    CPython's [_PyUnicode_IsWhitespace]. *)
Definition isspace (c : N) : bool :=
  in_range 0x9 0xd c || in_range 0x1c 0x20 c || (c =? 0x85) || (c =? 0xa0)
  || (c =? 0x1680) || in_range 0x2000 0x200a c || (c =? 0x2028)
  || (c =? 0x2029) || (c =? 0x202f) || (c =? 0x205f) || (c =? 0x3000).

Section Tables.
Context `{U : Unicode}.

(** [ch.isalpha()] *)
Definition isalpha (c : N) : bool :=
  if is_ascii c then ascii_letter c else uni_isalpha c.
(** The class [\w] of [re]: alphanumeric or underscore. *)
Definition isword (c : N) : bool :=
  if is_ascii c then ascii_letter c || ascii_digit c || (c =? 95)
  else uni_isalnum c.
(** The class [\d] of [re]: a decimal digit. *)
Definition isdecimal (c : N) : bool :=
  if is_ascii c then ascii_digit c else uni_isdecimal c.
End Tables.

(** [s.lstrip()], [s.rstrip()], [s.strip()] *)
Fixpoint lstrip (s : str) : str :=
  match s with
  | [] => []
  | c :: s' => if isspace c then lstrip s' else s
  end.
Definition rstrip (s : str) : str := reverse (lstrip (reverse s)).
Definition strip (s : str) : str := rstrip (lstrip s).

(** [re.sub(r"\s+", " ", s)]: every maximal run of whitespace becomes one
    space.  [in_run] tells that the previous character was whitespace. *)
Fixpoint sub_ws (in_run : bool) (s : str) : str :=
  match s with
  | [] => []
  | c :: s' =>
      if isspace c then
        if in_run then sub_ws true s' else 32 :: sub_ws true s'
      else c :: sub_ws false s'
  end.

(** [s.split()]: the maximal runs of non-whitespace.  [cur] is the run
    being read, reversed. *)
Fixpoint split_ws_aux (cur : str) (s : str) : list str :=
  match s with
  | [] => match cur with [] => [] | _ => [reverse cur] end
  | c :: s' =>
      if isspace c then
        match cur with
        | [] => split_ws_aux [] s'
        | _ => reverse cur :: split_ws_aux [] s'
        end
      else split_ws_aux (c :: cur) s'
  end.
Definition split_ws (s : str) : list str := split_ws_aux [] s.

(** The longest prefix and the longest suffix of [s] made of whitespace,
    defined directly; [leading_of] and [trailing_of] below compute them
    the way the scripts do. *)
Fixpoint ws_prefix (s : str) : str :=
  match s with
  | c :: s' => if isspace c then c :: ws_prefix s' else []
  | [] => []
  end.
Definition ws_suffix (s : str) : str := reverse (ws_prefix (reverse s)).

(** [len(s)] *)
Definition len (s : str) : nat := length s.

(** [s.startswith(p)] *)
Fixpoint startswith (s p : str) : bool :=
  match p, s with
  | [], _ => true
  | _ :: _, [] => false
  | a :: p', b :: s' => (a =? b) && startswith s' p'
  end.

(** [p in s] *)
Fixpoint contains (s p : str) : bool :=
  startswith s p ||
  match s with
  | [] => false
  | _ :: s' => contains s' p
  end.

(** [s.replace(old, new)] for a one-character [old]. *)
Definition replace_char (old : N) (new : str) (s : str) : str :=
  c ← s; if c =? old then new else [c].

(** [sep.join(parts)] *)
Fixpoint join (sep : str) (parts : list str) : str :=
  match parts with
  | [] => []
  | [p] => p
  | p :: ps => p ++ sep ++ join sep ps
  end.

(** [s.split(sep)] for a non-empty [sep]: cut at the occurrences of [sep],
    found left to right without overlap.  [skip] counts the characters of
    a found separator still to be passed over; [cur] is the part being
    read, reversed. *)
Fixpoint split_aux (sep : str) (skip : nat) (cur : str) (s : str) : list str :=
  match s with
  | [] => [reverse cur]
  | c :: s' =>
      match skip with
      | S k => split_aux sep k cur s'
      | O =>
          if startswith s sep
          then reverse cur :: split_aux sep (length sep - 1) [] s'
          else split_aux sep 0 (c :: cur) s'
      end
  end.
Definition split (s sep : str) : list str := split_aux sep 0 [] s.

(** [w.lower()] on ASCII letters; other ASCII characters are unchanged. *)
Definition lower_char (c : N) : N := if ascii_upper c then c + 32 else c.
Definition ascii_lower_str (s : str) : str := lower_char <$> s.

(** [w.lower()] in general: a character above U+007F may lower to several. *)
Definition lower `{U : Unicode} (s : str) : str :=
  c ← s; if is_ascii c then [lower_char c] else uni_lower c.

(** [s.strip(chars)] *)
Fixpoint lstrip_chars (chars : str) (s : str) : str :=
  match s with
  | [] => []
  | c :: s' => if bool_decide (c ∈ chars) then lstrip_chars chars s' else s
  end.
Definition strip_chars (chars : str) (s : str) : str :=
  reverse (lstrip_chars chars (reverse (lstrip_chars chars s))).

(** [w in WORDS] for a set literal of strings. *)
Definition mem (w : str) (words : list str) : bool := bool_decide (w ∈ words).

(** ** The regular expression [WORDS_RE]

    [\b[A-Za-z][A-Za-z'\-]{m,}\b] with [m = 2] (or [1] in one script):
    an ASCII letter that starts at a word boundary, then as many
    characters of the class as possible, giving some back until the match
    ends at a word boundary. *)
Section Words.
Context `{U : Unicode}.

(** The class [[A-Za-z'\-]] *)
Definition word_tail_char (c : N) : bool :=
  ascii_letter c || (c =? 39) || (c =? 45).

Definition head_isword (s : str) : bool :=
  match s with [] => false | d :: _ => isword d end.

(** The greedy repetition followed by [\b]: [s] is the text after the
    [consumed] characters taken so far, the last of which is a word
    character or not ([last_word]).  The result is the largest number of
    characters after which a boundary holds. *)
Fixpoint best_end (last_word : bool) (consumed : nat) (s : str) : option nat :=
  let here := if xorb last_word (head_isword s) then Some consumed else None in
  match s with
  | d :: s' =>
      if word_tail_char d then
        match best_end (isword d) (S consumed) s' with
        | Some k => Some k
        | None => here
        end
      else here
  | [] => here
  end.

(** [WORDS_RE.findall(s)]: the matches from left to right, each search
    resuming where the previous match ended.  [prev_word] tells that the
    character before [s] is a word character; [skip] counts the
    characters of the last match still to be passed over. *)
Fixpoint findall_aux (m : nat) (skip : nat) (prev_word : bool) (s : str) : list str :=
  match s with
  | [] => []
  | c :: s' =>
      match skip with
      | S k => findall_aux m k (isword c) s'
      | O =>
          if ascii_letter c && negb prev_word then
            match best_end true 0 s' with
            | Some k =>
                if (m <=? k)%nat
                then (c :: take k s') :: findall_aux m k (isword c) s'
                else findall_aux m 0 (isword c) s'
            | None => findall_aux m 0 (isword c) s'
            end
          else findall_aux m 0 (isword c) s'
      end
  end.
Definition findall (m : nat) (s : str) : list str := findall_aux m 0 false s.
End Words.

(** ** Counting and the ratio tests *)

(** [sum(p(ch) for ch in s)] *)
Definition count {A} (p : A → bool) (l : list A) : nat := length (filter (λ x, p x = true) l).

(** [a / b] on two counts: the binary64 quotient (exact conversion for every
    count below 2^53). *)
Definition fdiv (a b : nat) : float :=
  PrimFloat.div (PrimFloat.of_uint63 (Uint63.of_Z (Z.of_nat a)))
                (PrimFloat.of_uint63 (Uint63.of_Z (Z.of_nat b))).

End Py.

Import Py.

(** ** Functions the scripts share verbatim *)

Module Common.
Section Common.
Context `{U : Unicode}.

(** [re.sub(r"\s+", " ", s or "").strip()] *)
Definition normalize_plain (s : str) : str := strip (sub_ws false s).

(** The same after folding the curly apostrophes U+2019 and U+2018 into
    the ASCII one. *)
Definition normalize_quotes (s : str) : str :=
  let text := replace_char 8216 [39] (replace_char 8217 [39] s) in
  strip (sub_ws false text).

(** The position [$] of [re] without [MULTILINE]: the end of the string,
    or just before a newline that ends it. *)
Definition at_end (s : str) : bool :=
  match s with
  | [] => true
  | [c] => c =? 10
  | _ => false
  end.
End Common.
End Common.

(** ** Effects: requests, sleeps, printed lines, exceptions *)

Module Eff.

(** What a run does to the outside, in order. *)
Inductive event : Type :=
  | Request (lang text : str)   (* one GET to the translation endpoint *)
  | Sleep (ms : N)              (* [time.sleep], in milliseconds *)
  | Print (line : str).         (* a line on standard output *)

(** How a call ends: with a value, with an exception (every handler of
    the scripts is [except Exception], so exceptions are not told apart),
    or, for the model only, with its fuel used up. *)
Inductive outcome (A : Type) : Type :=
  | Ok (a : A)
  | Raise
  | NoFuel.
Arguments Ok {A} a.
Arguments Raise {A}.
Arguments NoFuel {A}.

(** The state of a run: the dictionary the function works on ([C]) and the
    trace so far, oldest event first. *)
Record world (C : Type) : Type := World { store : C; trace : list event }.
Arguments World {C} store trace.
Arguments store {C} w.
Arguments trace {C} w.

Definition M (C A : Type) : Type := world C → outcome A * world C.

Definition ret {C A} (a : A) : M C A := λ w, (Ok a, w).
Definition bind {C A B} (m : M C A) (f : A → M C B) : M C B :=
  λ w, match m w with
       | (Ok a, w') => f a w'
       | (Raise, w') => (Raise, w')
       | (NoFuel, w') => (NoFuel, w')
       end.
Definition raise {C A} : M C A := λ w, (Raise, w).
Definition out_of_fuel {C A} : M C A := λ w, (NoFuel, w).

(** [try: m except Exception: h] *)
Definition try_except {C A} (m : M C A) (h : M C A) : M C A :=
  λ w, match m w with
       | (Raise, w') => h w'
       | r => r
       end.

Definition get {C} : M C C := λ w, (Ok (store w), w).
Definition modify {C} (f : C → C) : M C () :=
  λ w, (Ok (), World (f (store w)) (trace w)).
Definition emit {C} (e : event) : M C () :=
  λ w, (Ok (), World (store w) (trace w ++ [e])).
Definition sleep {C} (ms : N) : M C () := emit (Sleep ms).
Definition print {C} (line : str) : M C () := emit (Print line).

Definition is_request (e : event) : bool :=
  match e with Request _ _ => true | _ => false end.
Definition requests (tr : list event) : list event :=
  filter (λ e, is_request e = true) tr.
(** The number of requests made so far. *)
Definition nreq {C} (w : world C) : nat := length (requests (trace w)).

(** The translation service: what the [n]-th request of the run (counting
    from 0), for language [lang] and text [text], is answered.  [Some body]
    is the concatenation of the translated segments of the decoded
    response; [None] stands for any failure of the request or of the
    decoding. *)
Definition service : Type := nat → str → str → option str.

(** One request: [urlopen], [json.loads] and the join of the segments. *)
Definition request {C} (net : service) (lang text : str) : M C str :=
  λ w, let n := nreq w in
       let w' := World (store w) (trace w ++ [Request lang text]) in
       match net n lang text with
       | Some body => (Ok body, w')
       | None => (Raise, w')
       end.

(** [for x in l: f(x)] *)
Fixpoint for_each {C A} (f : A → M C ()) (l : list A) : M C () :=
  match l with
  | [] => ret ()
  | x :: l' => bind (f x) (λ _, for_each f l')
  end.

End Eff.

Import Eff.

Notation "x <- m ;; k" := (Eff.bind m (λ x, k))
  (at level 100, m at next level, right associativity, only parsing).
Notation "m ;; k" := (Eff.bind m (λ _, k))
  (at level 100, right associativity, only parsing).

(** ** The retrying client and the rewriter loop, shared by the scripts *)

Module Shared.
Section Shared.
Context `{U : Unicode}.
Variable net : service.

Definition nonempty {A} (l : list A) : bool :=
  match l with [] => false | _ => true end.

(** The [for attempt in range(n)] loop of the raising [translate_google]
    (complete_existing_course_translations.py with [range(3)] and 0.25 s,
    translate_index_cards.py with [range(4)] and 0.4 s): a non-empty
    translation is cached and returned at once; a failed request sleeps
    [backoff * (attempt + 1)]; when the range is used up the call
    raises. *)
Fixpoint attempts_raising (backoff : N) (text lang : str) (range : list N)
  : M (gmap (str * str) str) str :=
  match range with
  | [] => raise
  | attempt :: range' =>
      r <- try_except
             (body <- request net lang text ;;
              let translated := strip body in
              if nonempty translated
              then modify (λ cache, <[(lang, text) := translated]> cache) ;;
                   ret (Some translated)
              else ret None)
             (sleep (backoff * (attempt + 1)) ;; ret None) ;;
      match r with
      | Some translated => ret translated
      | None => attempts_raising backoff text lang range'
      end
  end.

Definition translate_google_raising (normalize : str → str) (range : list N)
  (backoff : N) (text lang : str) : M (gmap (str * str) str) str :=
  let text := normalize text in
  if negb (nonempty text) then ret text else
  cache <- get ;;
  match cache !! (lang, text) with
  | Some cached => ret cached
  | None => attempts_raising backoff text lang range
  end.
End Shared.

(** *** Documents and the replacement loop *)

(** A text node of the parsed page: the name of its parent tag (empty when
    it has none) and its characters. *)
Record node : Type := Node { parent : str; text : str }.

(** An entry of [targets]: the node (its place in the document and its
    characters), the normalized phrase, and the whitespace around it. *)
Record target : Type := Target {
  t_pos : nat;
  t_str : str;
  t_src : str;
  t_leading : str;
  t_trailing : str
}.

(** [node.replace_with(NavigableString(new))] *)
Definition replace_with (pos : nat) (new : str) (doc : list node) : list node :=
  alter (λ n, Node (parent n) new) pos doc.

(** The loop
    [for node, src, leading, trailing in targets:
       tr = lookup(src); new = leading + tr + trailing;
       if new != str(node): node.replace_with(new); changes += 1]
    of batch_translate_visible_nodes.py, sync_translate_from_source.py and
    complete_existing_course_translations.py; [lookup] is the script's
    [mapping.get(src, src)] or [cache.get((lang, src), src)]. *)
Fixpoint apply_targets (lookup : str → str) (targets : list target)
  (doc : list node) (changes : nat) : list node * nat :=
  match targets with
  | [] => (doc, changes)
  | t :: targets' =>
      let tr := lookup (t_src t) in
      let new := t_leading t ++ tr ++ t_trailing t in
      if bool_decide (new ≠ t_str t)
      then apply_targets lookup targets' (replace_with (t_pos t) new doc) (S changes)
      else apply_targets lookup targets' doc changes
  end.

(** [raw[: len(raw) - len(raw.lstrip())]] and [raw[len(raw.rstrip()) :]] *)
Definition leading_of (raw : str) : str :=
  take (len raw - len (lstrip raw)) raw.
Definition trailing_of (raw : str) : str :=
  drop (len (rstrip raw)) raw.

(** The text nodes of the document with their places, in document order
    ([soup.find_all(string=True)]), filtered by the script's test. *)
Definition collect_targets (select : nat → node → option target)
  (doc : list node) : list target :=
  omap (λ p, select p.1 p.2) (imap pair doc).

(** What processing a file yields: the change count it returns, the
    document it ends with, and the text written back, if any. *)
Record processed : Type := Processed {
  changes : nat;
  final_doc : list node;
  written : option (list node)
}.

(** [if changes and not dry_run: write(str(soup))] *)
Definition write_back (changes : nat) (dry_run : bool) (doc : list node)
  : option (list node) :=
  if negb (changes =? 0)%nat && negb dry_run then Some doc else None.
End Shared.

(** ** The phrase batcher (the nested [while] loops of every batch function) *)

Module Batcher.
Import Shared.
Section Batcher.
(** The limits of the script: item count, joined length, separator. *)
Variables (max_items max_len : nat) (sep : str).

(** The inner loop.  [rest] is [uniq[i:]]: taking its head is
    [chunk.append(uniq[i]); i += 1].  The result is the chunk and what is
    left of [uniq] when the loop breaks or [i] reaches [len(uniq)]. *)
Fixpoint fill_chunk (chunk : list str) (total : nat) (rest : list str)
  : list str * list str :=
  match rest with
  | [] => (chunk, [])
  | nxt :: rest' =>
      let add_len := (len nxt + (if nonempty chunk then len sep else 0))%nat in
      if nonempty chunk &&
         ((max_items <=? length chunk)%nat || (max_len <? total + add_len)%nat)
      then (chunk, rest)
      else fill_chunk (chunk ++ [nxt]) (total + add_len)%nat rest'
  end.

(** The outer loop, with [process] for what is done with each chunk. *)
Fixpoint chunk_loop {C} (process : list str → M C ()) (fuel : nat)
  (rest : list str) : M C () :=
  match rest with
  | [] => ret ()
  | _ :: _ =>
      match fuel with
      | O => out_of_fuel
      | S fuel' =>
          let '(chunk, rest') := fill_chunk [] 0 rest in
          process chunk ;; chunk_loop process fuel' rest'
      end
  end.

(** The chunks alone: the same loops with nothing done in between. *)
Fixpoint batches_fuel (fuel : nat) (rest : list str) : option (list (list str)) :=
  match rest with
  | [] => Some []
  | _ :: _ =>
      match fuel with
      | O => None
      | S fuel' =>
          let '(chunk, rest') := fill_chunk [] 0 rest in
          (chunk ::.) <$> batches_fuel fuel' rest'
      end
  end.

(** One unit of fuel per phrase is enough (see [batches_fuel_enough]). *)
Definition batches (uniq : list str) : list (list str) :=
  default [] (batches_fuel (length uniq) uniq).
End Batcher.
End Batcher.

(** ** batch_translate_visible_nodes.py *)

Module BatchVisible.
Section Classifier.
Context `{U : Unicode}.

Definition STOP_WORDS : list str := lit <$>
  [ "the"; "a"; "an"; "is"; "are"; "was"; "were"; "be"; "to"; "of"; "in";
    "on"; "at"; "by"; "and"; "or"; "not"; "for"; "as"; "with"; "from";
    "this"; "that"; "these"; "those"; "you"; "your"; "we"; "our"; "course";
    "module"; "review"; "analysis"; "evidence"; "method"; "methods";
    "question"; "answer"; "results"; "study"; "studies"; "data"; "tool";
    "dashboard"; "library"; "certificate"; "complete"; "completed" ]%string.

Definition normalize : str → str := Common.normalize_quotes.

Definition is_english_like (text : str) (min_words : nat) : bool :=
  let t := normalize text in
  if (len t <? 10)%nat then false else
  let words := ascii_lower_str <$> findall 2 t in
  if (length words <? min_words)%nat then false else
  let letters := count isalpha t in
  let ascii_letters := count ascii_letter t in
  if (letters =? 0)%nat then false else
  if PrimFloat.ltb (fdiv ascii_letters letters) 0.90 then false else
  let hits := count (λ w, mem w STOP_WORDS) words in
  (2 <=? hits)%nat.
End Classifier.

Import Shared.
Section Run.
Context `{U : Unicode}.
Variable net : service.

Definition sep : str := lit "<<<SEP_TRANSLATE_9F31>>>".
Definition max_items : nat := 35.
Definition max_len : nat := 3800.

(** The [out] dictionary of [batch_translate]. *)
Abbreviation out_dict := (gmap str str).

Definition translate_google (text lang : str) : M out_dict str :=
  body <- request net lang text ;;
  ret (strip body).

(** The first loop of [batch_translate]: first occurrences, in order. *)
Fixpoint dedup (seen : gset str) (texts : list str) : list str :=
  match texts with
  | [] => []
  | t :: texts' =>
      if bool_decide (t ∈ seen) then dedup seen texts'
      else t :: dedup ({[t]} ∪ seen) texts'
  end.

Definition assign (src tr : str) : M out_dict () :=
  modify (λ out, <[src := tr]> out).

(** The [except] branch: one request per phrase, the phrase itself when
    that fails too. *)
Definition fallback_one (lang src : str) : M out_dict () :=
  try_except
    (tr <- translate_google src lang ;; assign src tr ;; sleep 80)
    (assign src src).

Definition process_chunk (lang : str) (chunk : list str) : M out_dict () :=
  let joined := join sep chunk in
  try_except
    (translated <- translate_google joined lang ;;
     let parts := split translated sep in
     if (length parts =? length chunk)%nat
     then for_each (λ p, assign p.1 (strip p.2)) (zip chunk parts)
     else raise)
    (for_each (fallback_one lang) chunk) ;;
  sleep 60.

Definition batch_loop (lang : str) (fuel : nat) (uniq : list str) : M out_dict () :=
  Batcher.chunk_loop max_items max_len sep (process_chunk lang) fuel uniq.

(** [batch_translate(texts, lang)], run on an empty [out]; the result is
    [out] and the trace is extended. *)
Definition batch_translate (texts : list str) (lang : str) (tr : list event)
  : outcome out_dict * list event :=
  let uniq := dedup ∅ texts in
  match batch_loop lang (length uniq) uniq (World ∅ tr) with
  | (Ok _, w) => (Ok (store w), trace w)
  | (Raise, w) => (Raise, trace w)
  | (NoFuel, w) => (NoFuel, trace w)
  end.

Definition SKIP_PARENTS : list str :=
  lit <$> [ "script"; "style"; "code"; "pre"; "noscript" ]%string.

(** The body of the first loop of [process_file] for one text node. *)
Definition select (pos : nat) (n : node) : option target :=
  if mem (parent n) SKIP_PARENTS then None else
  let raw := text n in
  let stripped := normalize raw in
  if negb (is_english_like stripped 3) then None else
  if contains stripped (lit "http://") || contains stripped (lit "https://")
  then None else
  Some (Target pos raw stripped (leading_of raw) (trailing_of raw)).

(** Lines 232-246 of [process_file]: the replacement loop and the
    decision to write. *)
Definition rewrite (mapping : gmap str str) (targets : list target)
  (doc : list node) (dry_run : bool) : processed :=
  let '(doc', changes) :=
    apply_targets (λ src, default src (mapping !! src)) targets doc 0 in
  Processed changes doc' (write_back changes dry_run doc').

Definition process_file (doc : list node) (lang : str) (dry_run : bool)
  (tr : list event) : outcome processed * list event :=
  let targets := collect_targets select doc in
  let phrases := t_src <$> targets in
  let '(mapping, tr') :=
    match phrases with
    | [] => (Ok ∅, tr)
    | _ => batch_translate phrases lang tr
    end in
  match mapping with
  | Ok mapping => (Ok (rewrite mapping targets doc dry_run), tr')
  | Raise => (Raise, tr')
  | NoFuel => (NoFuel, tr')
  end.
End Run.
End BatchVisible.

(** ** complete_arabic_translations.py *)

Module CompleteArabic.
Section Classifier.
Context `{U : Unicode}.

Definition SKIP_PARENTS : list str :=
  lit <$> [ "script"; "style"; "code"; "pre"; "noscript" ]%string.

Definition normalize : str → str := Common.normalize_plain.

Definition has_arabic (text : str) : bool :=
  existsb (λ ch, in_range 0x600 0x6ff ch || in_range 0x750 0x77f ch
                 || in_range 0xfb50 0xfdff ch || in_range 0xfe70 0xfeff ch) text.

(** [re.search(r"[→←↑↓]", text)] *)
Definition has_arrow (text : str) : bool :=
  existsb (λ ch, bool_decide (ch ∈ [8594; 8592; 8593; 8595])) text.

Definition is_english_like (text : str) : bool :=
  let text := normalize text in
  if (len text <? 5)%nat then false else
  if existsb (startswith text)
       (lit <$> [ "http://"; "https://"; "/*"; "//"; "<!--" ]%string)
  then false else
  if contains text (lit "<-") then false else
  if has_arrow text then false else
  let words := ascii_lower_str <$> findall 2 text in
  if (length words <? 1)%nat then false else
  let letters := count isalpha text in
  let ascii_letters := count ascii_letter text in
  if (letters =? 0)%nat then false else
  if has_arabic text then false else
  let ratio := fdiv ascii_letters letters in
  if PrimFloat.ltb ratio 0.75 then false else
  true.
End Classifier.

Import Shared.
Section Run.
Context `{U : Unicode}.
Variable net : service.

(** The text of the warning; the quoting of [!r] and the message of the
    exception are left out. *)
Definition warning (text : str) : str :=
  lit "  [WARN] Translation failed: " ++ take 60 text.

(** The [for attempt in range(3)] loop of [translate_google]: after a
    failed request it sleeps 0.3 s times the attempt number, except on
    the attempt numbered 2, where it warns, caches the text itself and
    returns it.  When the loop ends without a return the text is
    returned as it is. *)
Fixpoint attempts (text : str) (range : list N) : M (gmap str str) str :=
  match range with
  | [] => ret text
  | attempt :: range' =>
      r <- try_except
             (body <- request net (lit "ar") text ;;
              let translated := strip body in
              if nonempty translated
              then modify (λ cache, <[text := translated]> cache) ;;
                   ret (Some translated)
              else ret None)
             (if attempt =? 2
              then print (warning text) ;;
                   modify (λ cache, <[text := text]> cache) ;;
                   ret (Some text)
              else sleep (300 * (attempt + 1)) ;; ret None) ;;
      match r with
      | Some result => ret result
      | None => attempts text range'
      end
  end.

Definition translate_google (text : str) : M (gmap str str) str :=
  let text := normalize text in
  if negb (nonempty text) then ret text else
  cache <- get ;;
  match cache !! text with
  | Some cached => ret cached
  | None => attempts text [0; 1; 2]
  end.

Definition SEP : str := lit " <<<SEP>>> ".
Definition max_items : nat := 25.
Definition max_len : nat := 3500.

Definition sep_variants : list str :=
  [ lit "<<<SEP>>>"; lit "<<< SEP >>>"; lit "<<<sep>>>"; lit "<<< sep >>>";
    [171] ++ lit "SEP" ++ [187]; [171] ++ lit "sep" ++ [187];
    lit "<<<SEP >>>"; lit "<<< SEP>>>" ].

(** The first loop of [batch_translate]. *)
Fixpoint collect (cache : gmap str str) (seen : gset str) (texts : list str)
  : list str :=
  match texts with
  | [] => []
  | t :: texts' =>
      let t := normalize t in
      if negb (nonempty t) || bool_decide (is_Some (cache !! t))
         || bool_decide (t ∈ seen)
      then collect cache seen texts'
      else t :: collect cache ({[t]} ∪ seen) texts'
  end.

(** [for sv in sep_variants: ...; break] *)
Fixpoint first_variant (translated : str) (n : nat) (variants : list str)
  : option (list str) :=
  match variants with
  | [] => None
  | sv :: variants' =>
      let candidate := split translated sv in
      if (length candidate =? n)%nat then Some candidate
      else first_variant translated n variants'
  end.

Definition find_parts (translated : str) (n : nat) : option (list str) :=
  match first_variant translated n sep_variants with
  | Some parts => Some parts
  | None =>
      let candidate := split translated (strip SEP) in
      if (length candidate =? n)%nat then Some candidate else None
  end.

Definition fallback (chunk : list str) : M (gmap str str) () :=
  for_each (λ src, _ <- translate_google src ;; sleep 50) chunk.

Definition process_chunk (chunk : list str) : M (gmap str str) () :=
  let joined := join SEP chunk in
  try_except
    (body <- request net (lit "ar") joined ;;
     let translated := strip body in
     match find_parts translated (length chunk) with
     | Some parts =>
         if nonempty parts && (length parts =? length chunk)%nat
         then for_each
                (λ p, let out := strip p.2 in
                      modify (λ cache,
                        <[p.1 := if nonempty out then out else p.1]> cache))
                (zip chunk parts)
         else fallback chunk
     | None => fallback chunk
     end)
    (fallback chunk) ;;
  sleep 80.

Definition batch_translate (texts : list str) : M (gmap str str) () :=
  cache <- get ;;
  let unique := collect cache ∅ texts in
  match unique with
  | [] => ret ()
  | _ => Batcher.chunk_loop max_items max_len SEP process_chunk
           (length unique) unique
  end.

(** The body of the first loop of [process_file] for one text node. *)
Definition select (pos : nat) (n : node) : option target :=
  if mem (parent n) SKIP_PARENTS then None else
  let original := text n in
  let stripped := normalize original in
  if negb (is_english_like stripped) then None else
  Some (Target pos original stripped (leading_of original) (trailing_of original)).

(** The replacement loop of [process_file]: a node is replaced when its
    phrase has a non-empty translation that differs from the phrase. *)
Fixpoint apply_translations (cache : gmap str str) (targets : list target)
  (doc : list node) (changes : nat) : list node * nat :=
  match targets with
  | [] => (doc, changes)
  | t :: targets' =>
      let translated := default (t_src t) (cache !! t_src t) in
      if nonempty translated && bool_decide (translated ≠ t_src t)
      then
        let replacement := t_leading t ++ translated ++ t_trailing t in
        apply_translations cache targets'
          (replace_with (t_pos t) replacement doc) (S changes)
      else apply_translations cache targets' doc changes
  end.

Definition process_file (doc : list node) (dry_run : bool)
  : M (gmap str str) processed :=
  let targets := collect_targets select doc in
  let phrases := t_src <$> targets in
  match targets with
  | [] => ret (Processed 0 doc None)
  | _ =>
      batch_translate phrases ;;
      cache <- get ;;
      let '(doc', changes) := apply_translations cache targets doc 0 in
      ret (Processed changes doc'
             (if (0 <? changes)%nat && negb dry_run then Some doc' else None))
  end.
End Run.
End CompleteArabic.

(** ** complete_existing_course_translations.py *)

Module CompleteExisting.
Section Classifier.
Context `{U : Unicode}.

Definition STOP_WORDS : list str := lit <$>
  [ "the"; "a"; "an"; "is"; "are"; "was"; "were"; "be"; "to"; "of"; "in";
    "on"; "at"; "by"; "and"; "or"; "not"; "for"; "as"; "with"; "from";
    "into"; "about"; "over"; "under"; "this"; "that"; "these"; "those";
    "you"; "your"; "we"; "our"; "course"; "module"; "review"; "analysis";
    "evidence"; "method"; "methods"; "story"; "question"; "answer";
    "results"; "study"; "studies"; "data"; "tool"; "tools"; "dashboard";
    "library"; "certificate"; "complete"; "completed"; "download" ]%string.

Definition CORE_ENGLISH_WORDS : list str := lit <$>
  [ "the"; "is"; "are"; "were"; "to"; "of"; "and"; "or"; "not"; "for";
    "with"; "from"; "into"; "about"; "over"; "under"; "this"; "that";
    "these"; "those"; "you"; "your"; "we"; "our" ]%string.

Definition normalize : str → str := Common.normalize_quotes.

Definition english_score (text : str) : float :=
  let words := ascii_lower_str <$> findall 2 text in
  match words with
  | [] => 0%float
  | _ =>
      let hits := count (λ w, mem w STOP_WORDS) words in
      fdiv hits (Nat.max (length words) 1)
  end.

Definition is_english_like (text : str) (min_words : nat) : bool :=
  let text := normalize text in
  if (len text <? 8)%nat then false else
  let words := ascii_lower_str <$> findall 2 text in
  if (length words <? min_words)%nat then false else
  let letters := count isalpha text in
  let ascii_letters := count ascii_letter text in
  if (letters =? 0)%nat then false else
  let ratio := fdiv ascii_letters letters in
  if PrimFloat.ltb ratio 0.85 then false else
  let core_hits := count (λ w, mem w CORE_ENGLISH_WORDS) words in
  let hit_count := count (λ w, mem w STOP_WORDS) words in
  if (length words <=? 4)%nat then (1 <=? core_hits)%nat else
  (2 <=? hit_count)%nat || PrimFloat.leb 0.22 (english_score text).
End Classifier.

Import Shared.
Section Run.
Context `{U : Unicode}.
Variable net : service.

Definition translate_google (text lang : str) : M (gmap (str * str) str) str :=
  translate_google_raising net normalize [0; 1; 2] 250 text lang.

Definition sep : str := lit "<<<SYNC_SEP_A12F>>>".
Definition max_items : nat := 40.
Definition max_len : nat := 3900.

(** The first loop of [batch_translate_texts]. *)
Fixpoint collect (lang : str) (cache : gmap (str * str) str) (seen : gset str)
  (texts : list str) : list str :=
  match texts with
  | [] => []
  | text :: texts' =>
      let normalized := normalize text in
      if negb (nonempty normalized) then collect lang cache seen texts'
      else if bool_decide (is_Some (cache !! (lang, normalized)))
      then collect lang cache seen texts'
      else if bool_decide (normalized ∈ seen) then collect lang cache seen texts'
      else normalized :: collect lang cache ({[normalized]} ∪ seen) texts'
  end.

(** The [except] branch for one phrase. *)
Definition fallback_one (lang src : str) : M (gmap (str * str) str) () :=
  try_except
    (_ <- translate_google src lang ;; ret ())
    (modify (λ cache, <[(lang, src) := src]> cache)) ;;
  sleep 80.

Definition process_chunk (lang : str) (chunk : list str)
  : M (gmap (str * str) str) () :=
  let joined := join sep chunk in
  try_except
    (translated <- translate_google joined lang ;;
     let parts := split translated sep in
     if negb (length parts =? length chunk)%nat then raise else
     for_each
       (λ p, let out := strip p.2 in
             modify (λ cache,
               <[(lang, p.1) := if nonempty out then out else p.1]> cache))
       (zip chunk parts))
    (for_each (fallback_one lang) chunk) ;;
  sleep 50.

Definition batch_translate_texts (texts : list str) (lang : str)
  : M (gmap (str * str) str) () :=
  cache <- get ;;
  let uniq := collect lang cache ∅ texts in
  match uniq with
  | [] => ret ()
  | _ => Batcher.chunk_loop max_items max_len sep (process_chunk lang)
           (length uniq) uniq
  end.

(** [should_skip_text_node] decides on the parent tag and on patterns of
    the text; the properties below hold for whatever it answers, so it
    is a parameter of [translate_html_text_nodes]. *)
Variable should_skip_text_node : str → str → bool.

Definition select (pos : nat) (n : node) : option target :=
  let original := text n in
  if should_skip_text_node (parent n) original then None else
  let raw := original in
  let stripped := normalize raw in
  if negb (is_english_like stripped 3) then None else
  Some (Target pos raw stripped (leading_of raw) (trailing_of raw)).

(** Lines 380-387: the replacement loop. *)
Definition rewrite (lang : str) (cache : gmap (str * str) str)
  (targets : list target) (doc : list node) : list node * nat :=
  apply_targets (λ stripped, default stripped (cache !! (lang, stripped)))
    targets doc 0.

Definition translate_html_text_nodes (doc : list node) (lang : str)
  : M (gmap (str * str) str) (list node * nat) :=
  let targets := collect_targets select doc in
  let phrases := t_src <$> targets in
  batch_translate_texts phrases lang ;;
  cache <- get ;;
  ret (rewrite lang cache targets doc).

(** The decision of [main] for one file, from the counts of the three
    passes: [if file_changes > 0 and not dry_run:] write, unless the
    script integrity guard blocks the write. *)
Definition writes_file (c1 c2 c3 : nat) (dry_run guard_blocks : bool) : bool :=
  let file_changes := (c1 + c2 + c3)%nat in
  (0 <? file_changes)%nat && negb dry_run && negb guard_blocks.

(** [escape_js_literal(text, quote)] *)
Definition escape_js_literal (text quote : str) : str :=
  let text := replace_char 92 [92; 92] text in
  if bool_decide (quote = [39])
  then replace_char 39 [92; 39] text
  else replace_char 34 [92; 34] text.

(** The literal that [translate_script_text] puts in place of a
    translated one: [f"{quote}{new_body}{quote}"]. *)
Definition new_literal (translated quote : str) : str :=
  quote ++ escape_js_literal translated quote ++ quote.
End Run.
End CompleteExisting.

(** ** fix_arabic_js_strings.py *)

Module FixArabicJs.
Section Classifier.
Context `{U : Unicode}.

Definition CORE_ENGLISH : list str := lit <$>
  [ "the"; "is"; "are"; "were"; "was"; "to"; "of"; "and"; "or"; "not";
    "for"; "with"; "from"; "into"; "about"; "over"; "under"; "this";
    "that"; "these"; "those"; "you"; "your"; "we"; "our"; "has"; "have";
    "had"; "been"; "will"; "would"; "can"; "could"; "should"; "may";
    "might"; "must"; "do"; "does"; "did"; "but"; "than"; "then"; "when";
    "where"; "which"; "who"; "how"; "what"; "why"; "all"; "each"; "every";
    "both"; "few"; "more"; "most"; "some"; "any"; "no"; "other"; "only";
    "also"; "just"; "because"; "if"; "while"; "after"; "before"; "during";
    "between"; "through"; "against"; "its"; "their"; "his"; "her"; "they";
    "them"; "she"; "he"; "it"; "by"; "on"; "at"; "in"; "an"; "a" ]%string.

Definition skip_patterns : list str := lit <$>
  [ "http://"; "https://"; "mailto:"; "data:"; "blob:"; "querySelector";
    "getElementById"; "classList"; "addEventListener"; "localStorage";
    "sessionStorage"; "window."; "document."; "function("; "function (";
    "=>"; "return "; "var "; "let "; "const "; ".js"; ".css"; ".html";
    ".png"; ".jpg"; ".svg"; ".pdf"; "rgb("; "rgba("; "hsl("; "#"; "px;";
    "rem;"; "evidence_reversal"; "synthesis_course"; "course_progress" ]%string.

Definition ui_terms : list str := lit <$>
  [ "correct"; "incorrect"; "yes"; "no"; "now"; "next"; "previous";
    "continue"; "start"; "finish"; "complete"; "download"; "print";
    "certificate"; "completion"; "progress"; "review"; "answer";
    "question"; "quiz"; "score"; "submit"; "reset"; "close"; "reveal";
    "predict"; "treatment"; "control"; "effect"; "benefit"; "harm";
    "favors"; "standard"; "error" ]%string.

Definition normalize : str → str := Common.normalize_plain.

Definition has_arabic (text : str) : bool :=
  existsb (λ ch, in_range 0x600 0x6ff ch
                 || in_range 0x750 0x77f ch) text.

Fixpoint skip_digits (s : str) : str :=
  match s with
  | c :: s' => if isdecimal c then skip_digits s' else s
  | [] => []
  end.

(** [re.search(r"^\d+(\.\d+)?(px|rem|em|%|vh|vw|s|ms)$", s)]: no unit
    starts with a digit or a dot, so the digits are never given back. *)
Definition css_value (s : str) : bool :=
  match s with
  | c :: s' =>
      isdecimal c &&
      let r := skip_digits s' in
      let r' := match r with
                | 46 :: d :: r2 => if isdecimal d then skip_digits r2 else r
                | _ => r
                end in
      existsb (λ u, startswith r' u && Common.at_end (drop (length u) r'))
        (lit <$> [ "px"; "rem"; "em"; "%"; "vh"; "vw"; "s"; "ms" ]%string)
  | [] => false
  end.

(** The class [[a-zA-Z0-9]] *)
Definition ascii_alnum (c : N) : bool := ascii_letter c || ascii_digit c.

(** The rest of the element-id pattern after its first character:
    ASCII letters and digits, then groups of a hyphen, a lower-case
    letter and more letters and digits, up to the end. *)
Fixpoint kebab_tail (s : str) : bool :=
  match s with
  | [] => true
  | c :: s' =>
      if ascii_alnum c then kebab_tail s'
      else if c =? 45 then
        match s' with
        | d :: s'' => ascii_lower d && kebab_tail s''
        | [] => false
        end
      else Common.at_end s
  end.

(** The [re.match] of the camelCase or kebab-case pattern: a lower-case
    letter followed by [kebab_tail]. *)
Definition camel_or_kebab (s : str) : bool :=
  match s with
  | c :: s' => ascii_lower c && kebab_tail s'
  | [] => false
  end.

(** The class of the pure numbers-and-symbols pattern: digits,
    whitespace and the listed punctuation. *)
Definition symbol_char (c : N) : bool :=
  isdecimal c || isspace c ||
  bool_decide (c ∈ lit ".,;:+-*/=<>()%$#@!?&|^~`[]{}").

Definition numbers_symbols (s : str) : bool :=
  match s with
  | [] => false
  | _ => forallb symbol_char s
  end.

(** The [re.match] of the single-identifier pattern: a letter or an
    underscore, then letters, digits and underscores up to the end. *)
Fixpoint ident_tail (s : str) : bool :=
  match s with
  | [] => true
  | c :: s' =>
      if ascii_alnum c || (c =? 95) then ident_tail s' else Common.at_end s
  end.
Definition identifier (s : str) : bool :=
  match s with
  | c :: s' => (ascii_letter c || (c =? 95)) && ident_tail s'
  | [] => false
  end.

Definition is_translatable_js_string (text : str) : bool :=
  let s := normalize text in
  if (len s <? 3)%nat then false else
  if has_arabic s then false else
  if existsb (contains s) skip_patterns then false else
  if css_value s then false else
  if camel_or_kebab s && (len s <? 30)%nat then false else
  if numbers_symbols s then false else
  let words := split_ws s in
  if (length words =? 1)%nat && identifier s then false else
  let alpha_words := findall 1 s in
  match alpha_words with
  | [] => false
  | _ =>
      if (length alpha_words <=? 2)%nat then
        let core_hits :=
          count (λ w, mem (ascii_lower_str w) CORE_ENGLISH) alpha_words in
        if (core_hits =? 0)%nat then
          if negb (existsb (λ w, mem (ascii_lower_str w) ui_terms) alpha_words)
          then false else true
        else true
      else true
  end.
End Classifier.

(** [escape_js(text, quote)] *)
Definition escape_js (text quote : str) : str :=
  let text := replace_char 92 [92; 92] text in
  let text := if bool_decide (quote = [39])
              then replace_char 39 [92; 39] text
              else replace_char 34 [92; 34] text in
  let text := replace_char 10 [92; 110] text in
  replace_char 13 [92; 114] text.
End FixArabicJs.

(** ** sync_translate_from_source.py *)

Module SyncSource.
Section Classifier.
Context `{U : Unicode}.

Definition STOP_WORDS : list str := lit <$>
  [ "the"; "a"; "an"; "is"; "are"; "was"; "were"; "be"; "to"; "of"; "in";
    "on"; "at"; "by"; "and"; "or"; "not"; "for"; "as"; "with"; "from";
    "this"; "that"; "these"; "those"; "you"; "your"; "we"; "our"; "course";
    "module"; "review"; "analysis"; "evidence"; "method"; "methods";
    "question"; "answer"; "results"; "study"; "studies"; "data" ]%string.

Definition normalize : str → str := Common.normalize_quotes.

Definition is_english_source_text (text : str) : bool :=
  let t := normalize text in
  if (len t <? 4)%nat then false else
  let words := ascii_lower_str <$> findall 2 t in
  match words with
  | [] => false
  | w0 :: _ =>
      let letters := count isalpha t in
      let ascii_letters := count ascii_letter t in
      if (letters =? 0)%nat then false else
      if PrimFloat.ltb (fdiv ascii_letters letters) 0.92 then false else
      if (length words =? 1)%nat then (4 <=? len w0)%nat else
      let hits := count (λ w, mem w STOP_WORDS) words in
      (1 <=? hits)%nat || (3 <=? length words)%nat
  end.
End Classifier.

Import Shared.
(** Lines 261-276 of [process_pair]: the replacement loop and the decision
    to write the target file. *)
Definition rewrite (lang : str) (cache : gmap (str * str) str)
  (targets : list target) (doc : list node) (dry_run : bool) : processed :=
  let '(doc', changes) :=
    apply_targets (λ src, default src (cache !! (lang, src))) targets doc 0 in
  Processed changes doc' (write_back changes dry_run doc').
End SyncSource.

(** ** translate_index_cards.py *)

Module IndexCards.
Import Shared.
Section Run.
Context `{U : Unicode}.
Variable net : service.

Definition normalize : str → str := Common.normalize_plain.

Definition translate_google (text lang : str) : M (gmap (str * str) str) str :=
  translate_google_raising net normalize [0; 1; 2; 3] 400 text lang.
End Run.
End IndexCards.

(** ** audit_arabic_gaps.py: the classifier of the audit *)

Module AuditGaps.
Section Classifier.
Context `{U : Unicode}.

Definition ENGLISH_STOPS : list str := lit <$>
  [ "the"; "is"; "are"; "and"; "or"; "for"; "with"; "from"; "this"; "that";
    "in"; "of"; "to"; "a"; "an"; "it"; "be"; "was"; "were"; "been"; "being";
    "have"; "has"; "had"; "do"; "does"; "did"; "will"; "would"; "shall";
    "should"; "may"; "might"; "can"; "could"; "not"; "no"; "but"; "if";
    "then"; "than"; "so"; "as"; "at"; "by"; "on"; "up"; "out"; "about";
    "into"; "through"; "during"; "before"; "after"; "above"; "below";
    "between"; "each"; "all"; "both"; "few"; "more"; "most"; "other";
    "some"; "such"; "only"; "own"; "same"; "too"; "very"; "just";
    "because"; "until"; "while"; "how"; "what"; "which"; "who"; "whom";
    "where"; "when"; "why"; "here"; "there"; "these"; "those"; "your";
    "you"; "we"; "they"; "he"; "she"; "its"; "our"; "their"; "my"; "his";
    "her"; "also"; "any"; "many"; "much" ]%string.

(** The characters stripped from each word: the punctuation below, the
    double quote and the apostrophe. *)
Definition PUNCT : str := lit ".,;:!?()[]{}" ++ [34; 39].

Definition is_english_like (text : str) : bool :=
  let text := strip text in
  match text with
  | [] => false
  | _ =>
      let words := split_ws text in
      if (length words <? 3)%nat then false else
      let total_letters := count isalpha text in
      let ascii_letters := count (λ ch, isalpha ch && is_ascii ch) text in
      if (total_letters =? 0)%nat then false else
      let ascii_ratio := fdiv ascii_letters total_letters in
      if PrimFloat.ltb ascii_ratio 0.85 then false else
      let lower_words := (λ w, strip_chars PUNCT (lower w)) <$> words in
      let stop_hits := filter (λ w, w ∈ ENGLISH_STOPS) (remove_dups lower_words) in
      if (length stop_hits <? 1)%nat then false else
      true
  end.
End Classifier.
End AuditGaps.


(** ** The classifiers as calls of a running script

    A classifier written out as the statements of its body, in the monad
    of the scripts: where the body could touch the outside (a request, a
    sleep, a printed line, the cache) or end with an exception, the model
    would say so.  The bodies only compute on their arguments and on the
    word lists and patterns of their module, which no script assigns
    after import and which are constants here; the steps that can raise
    are the divisions and the indexing of a list. *)

Module ClassifierCalls.
Section Calls.
Context `{U : Unicode} {C : Type}.










(** What it is for a call to be pure: in every world it returns [v] and
    leaves the world as it found it, and two calls return that same [v]
    whatever the script does between them, as if only [between] had
    run. *)
Definition pure_call {A} (call : M C A) (v : A) : Prop :=
  (∀ w, call w = (Ok v, w))
  ∧ (∀ (X : Type) (between : M C X) (w : world C),
       (b1 <- call ;; x <- between ;; b2 <- call ;; ret (b1, x, b2)) w
       = (x <- between ;; ret (v, x, v)) w).
End Calls.
End ClassifierCalls.


(** ** Inputs for the examples *)

Module Examples.
Import Shared.

Definition fr : str := lit "fr".

(** A service that answers the first request, a joined batch, with two
    segments only, and the single phrases after it one by one. *)
Definition two_segments : service := λ n _ _,
  match n with
  | 0%nat => Some (lit "un<<<SEP_TRANSLATE_9F31>>>deux")
  | 1%nat => Some (lit "un")
  | 2%nat => Some (lit "deux")
  | _ => Some (lit "trois")
  end.

(** The same for the separator of complete_existing_course_translations.py. *)
Definition two_segments_sync : service := λ n _ _,
  match n with
  | 0%nat => Some (lit "un<<<SYNC_SEP_A12F>>>deux")
  | 1%nat => Some (lit "un")
  | 2%nat => Some (lit "deux")
  | _ => Some (lit "trois")
  end.

(** A service that fails every request. *)
Definition down : service := λ _ _ _, None.

Definition three_phrases : list str := [lit "one"; lit "two"; lit "three"].

(** Two phrases of a thousand letters each, and the text of their join. *)
Definition phrase_a : str := replicate 1000 97.
Definition phrase_b : str := replicate 1000 98.
Definition joined_ab : str := join CompleteExisting.sep [phrase_a; phrase_b].
Definition four_texts : list str := [phrase_a; phrase_b; joined_ab; lit "c"].

(** A service that keeps one separator in each of its first two answers. *)
Definition merging : service := λ n _ _,
  match n with
  | 0%nat => Some (lit "A<<<SYNC_SEP_A12F>>>B")
  | 1%nat => Some (lit "X<<<SYNC_SEP_A12F>>>Y")
  | _ => None
  end.

(** A page with one paragraph, padded with two spaces on each side. *)
Definition padded : str := lit "  Welcome to the course  ".
Definition page : list node := [Node (lit "p") padded].
Definition padded_target : target :=
  Target 0 padded (lit "Welcome to the course") (lit "  ") (lit "  ").

(** A glossary with the translation of that paragraph. *)
Definition glossary : gmap str str :=
  {[ lit "Welcome to the course" := lit "Bienvenue au cours" ]}.

(** A cache that holds one phrase for French. *)
Definition greeting : str := lit "hello".
Definition one_entry : gmap (str * str) str :=
  {[ (fr, greeting) := lit "bonjour" ]}.

End Examples.

(** ** sync_translate_from_source.py: [translate_google] and [batch_translate] *)

Module SyncBatch.
Import Shared.
Section Run.
Variable net : service.

Definition sep : str := lit "<<<SYNC_SEP_A12F>>>".
Definition max_items : nat := 40.
Definition max_len : nat := 3900.

(** The client of this script: one request, no retry, no cache. *)
Definition translate_google (text lang : str) : M (gmap (str * str) str) str :=
  body <- request net lang text ;;
  ret (strip body).

(** The first loop of [batch_translate]: the texts without an entry for
    [lang], first occurrences, in order. *)
Fixpoint collect (lang : str) (cache : gmap (str * str) str) (seen : gset str)
  (texts : list str) : list str :=
  match texts with
  | [] => []
  | t :: texts' =>
      if bool_decide (is_Some (cache !! (lang, t))) then collect lang cache seen texts'
      else if bool_decide (t ∈ seen) then collect lang cache seen texts'
      else t :: collect lang cache ({[t]} ∪ seen) texts'
  end.

Definition assign (lang src tr : str) : M (gmap (str * str) str) () :=
  modify (λ cache, <[(lang, src) := tr]> cache).

(** The [except] branch for one phrase. *)
Definition fallback_one (lang src : str) : M (gmap (str * str) str) () :=
  try_except
    (tr <- translate_google src lang ;; assign lang src tr ;; sleep 80)
    (assign lang src src).

Definition process_chunk (lang : str) (chunk : list str)
  : M (gmap (str * str) str) () :=
  let joined := join sep chunk in
  try_except
    (translated <- translate_google joined lang ;;
     let parts := split translated sep in
     if negb (length parts =? length chunk)%nat then raise else
     for_each (λ p, assign lang p.1 (strip p.2)) (zip chunk parts))
    (for_each (fallback_one lang) chunk) ;;
  sleep 60.

(** [{t: cache[(lang, t)] for t in texts}]: a missing key raises
    [KeyError]; [acc] is the dictionary built so far. *)
Fixpoint comprehension (lang : str) (cache : gmap (str * str) str)
  (texts : list str) (acc : gmap str str) : option (gmap str str) :=
  match texts with
  | [] => Some acc
  | t :: texts' =>
      match cache !! (lang, t) with
      | Some v => comprehension lang cache texts' (<[t := v]> acc)
      | None => None
      end
  end.

Definition batch_translate (texts : list str) (lang : str)
  : M (gmap (str * str) str) (gmap str str) :=
  cache <- get ;;
  let uniq := collect lang cache ∅ texts in
  Batcher.chunk_loop max_items max_len sep (process_chunk lang)
    (length uniq) uniq ;;
  cache <- get ;;
  match comprehension lang cache texts ∅ with
  | Some out => ret out
  | None => raise
  end.
End Run.
End SyncBatch.

(** ** String literals of inline scripts

    The regular expression [lit_re] that
    complete_existing_course_translations.py, fix_arabic_js_strings.py and
    lint_translation_integrity.py compile with [re.S]: a quote character,
    then as few items as possible, each an escape (a backslash and any
    character) or a character that is not the quote, then the same quote.
    The engine tries the alternatives in that order and backtracks. *)

Module JsLiterals.

Definition is_quote (c : N) : bool := (c =? 39) || (c =? 34).

(** The match of the body and the closing quote against [s], the text
    after an opening quote [q]: the number of characters up to and
    including the closing quote.  At each character the lazy repetition
    first tries to stop (the closing quote), then an escape, then a single
    character other than the quote. *)
Fixpoint lit_end (q : N) (s : str) : option nat :=
  match s with
  | [] => None
  | c :: t =>
      if c =? q then Some 1%nat else
      let after_escape :=
        if c =? 92 then
          match t with
          | _ :: t' => Nat.add 2 <$> lit_end q t'
          | [] => None
          end
        else None in
      match after_escape with
      | Some k => Some k
      | None => S <$> lit_end q t
      end
  end.

(** [lit_re.finditer(s)]: the spans [(start, end)] of the matches, from
    left to right, each search resuming where the previous match ended.
    [pos] is the index of the head of [s]; [skip] counts the characters of
    the last match still to be passed over. *)
Fixpoint finditer_aux (skip pos : nat) (s : str) : list (nat * nat) :=
  match s with
  | [] => []
  | c :: t =>
      match skip with
      | S k => finditer_aux k (S pos) t
      | O =>
          if is_quote c then
            match lit_end c t with
            | Some k => (pos, pos + 1 + k)%nat :: finditer_aux k (S pos) t
            | None => finditer_aux 0 (S pos) t
            end
          else finditer_aux 0 (S pos) t
      end
  end.
Definition finditer (s : str) : list (nat * nat) := finditer_aux 0 0 s.

(** [for i in range(start, end): if chars[i] != "\n": chars[i] = " "] *)
Definition mask_span (chars : str) (span : nat * nat) : str :=
  foldl (λ cs i, match cs !! i with
                 | Some c => if c =? 10 then cs else <[i := 32]> cs
                 | None => cs
                 end)
        chars (seq span.1 (span.2 - span.1)).

(** [mask_js_strings(script_text)] of lint_translation_integrity.py and of
    [detect_script_translation_risks]. *)
Definition mask_js_strings (script_text : str) : str :=
  foldl mask_span script_text (finditer script_text).

(** [line_of(text, offset)]: [text.count("\n", 0, offset) + 1] *)
Definition line_of (text : str) (offset : nat) : nat :=
  (count (λ c : N, (c =? 10)%N) (take offset text) + 1)%nat.

End JsLiterals.

(** ** More inputs for the examples *)

Module Examples2.

(** A service that answers every request with two spaces. *)
Definition blank : service := λ _ _ _, Some (lit "  ").

(** A service that fails the first request and answers the second. *)
Definition second_try : service := λ n _ _,
  match n with
  | 0%nat => None
  | _ => Some (lit " bonjour ")
  end.

(** A page with nothing to translate: a script, and a paragraph that is
    French already. *)
Definition quiet_page : list Shared.node :=
  [ Shared.Node (lit "script") (lit "  Welcome to the course  ");
    Shared.Node (lit "p") (lit "Bonjour") ].

(** A service that puts spaces into the separator of its answer. *)
Definition spaced_separator : service := λ _ _ _,
  Some (lit "un <<< SEP >>> deux").

Definition two_phrases : list str := [lit "one"; lit "two"].

End Examples2.

(** * Properties *)

Import Shared.

(** ** The batcher *)

Module BatcherFacts.
Import Shared Batcher.
Section Facts.
Variables (max_items max_len : nat) (sep : str).

Local Abbreviation fill := (fill_chunk max_items max_len sep).

Lemma join_snoc (chunk : list str) (x : str) :
  chunk ≠ [] → join sep (chunk ++ [x]) = join sep chunk ++ sep ++ x.
Proof.
  induction chunk as [|a chunk IH]; [done|]. intros _.
  destruct chunk as [|b chunk]; [done|].
  change (join sep ((a :: b :: chunk) ++ [x]))
    with (a ++ sep ++ join sep ((b :: chunk) ++ [x])).
  rewrite IH; [|done].
  change (join sep (a :: b :: chunk)) with (a ++ sep ++ join sep (b :: chunk)).
  by rewrite <- !app_assoc.
Qed.

Lemma join_length_elem (chunk : list str) (p : str) :
  p ∈ chunk → (length p ≤ length (join sep chunk))%nat.
Proof.
  induction chunk as [|a chunk IH]; [by intros ?%elem_of_nil|].
  intros [->|Hin]%elem_of_cons.
  - destruct chunk; simpl; [done|]. rewrite length_app. lia.
  - destruct chunk as [|b chunk]; [by apply elem_of_nil in Hin|].
    change (join sep (a :: b :: chunk)) with (a ++ sep ++ join sep (b :: chunk)).
    rewrite !length_app. specialize (IH Hin). lia.
Qed.

(** What the inner loop keeps true about [chunk] and [total]. *)
Definition chunk_ok (chunk : list str) (total : nat) : Prop :=
  total = length (join sep chunk) ∧
  ((1 < length chunk)%nat →
   (length chunk ≤ max_items)%nat ∧ (total ≤ max_len)%nat).

Lemma fill_chunk_split (rest chunk : list str) (total : nat) :
  ∃ taken, (fill chunk total rest).1 = chunk ++ taken ∧
           rest = taken ++ (fill chunk total rest).2.
Proof.
  revert chunk total. induction rest as [|nxt rest IH]; intros chunk total.
  - exists []. by rewrite app_nil_r.
  - simpl. destruct (nonempty chunk && _).
    + exists []. by rewrite app_nil_r.
    + destruct (IH (chunk ++ [nxt]) (total + (len nxt + (if nonempty chunk then len sep else 0)))%nat)
        as (taken & H1 & H2).
      exists (nxt :: taken). split.
      * by rewrite H1, <- app_assoc.
      * simpl. by f_equal.
Qed.

Lemma fill_chunk_ok (rest chunk : list str) (total : nat) :
  chunk_ok chunk total →
  chunk_ok (fill chunk total rest).1
           (length (join sep (fill chunk total rest).1)).
Proof.
  revert chunk total. induction rest as [|nxt rest IH]; intros chunk total [Ht Hb].
  - simpl. split; [done|]. by rewrite <- Ht.
  - simpl. destruct (nonempty chunk && _) eqn:Hguard.
    + simpl. split; [done|]. by rewrite <- Ht.
    + apply IH. unfold len. destruct chunk as [|a chunk].
      * simpl in *. subst total. split; simpl; lia.
      * simpl in Hguard.
        apply orb_false_iff in Hguard as [Hn Hl].
        apply Nat.leb_gt in Hn. apply Nat.ltb_ge in Hl.
        split.
        -- rewrite join_snoc; [|done]. rewrite !length_app.
           change (nonempty (a :: chunk)) with true. cbv iota. lia.
        -- intros _. rewrite length_app.
           change (nonempty (a :: chunk)) with true. cbv iota.
           unfold len in Hl. simpl length. lia.
Qed.

(** The first phrase of a chunk is taken whatever its length. *)
Lemma fill_chunk_first (x : str) (rest : list str) :
  fill [] 0 (x :: rest) = fill [x] (len x) rest.
Proof. simpl. f_equal. unfold len. lia. Qed.

Lemma fill_chunk_progress (x : str) (rest : list str) :
  ∃ taken, (fill [] 0 (x :: rest)).1 = x :: taken ∧
           rest = taken ++ (fill [] 0 (x :: rest)).2.
Proof.
  rewrite fill_chunk_first.
  destruct (fill_chunk_split rest [x] (len x)) as (taken & H1 & H2).
  exists taken. by split.
Qed.

Lemma fill_chunk_whole (x : str) (rest : list str) :
  (fill [] 0 (x :: rest)).1 ++ (fill [] 0 (x :: rest)).2 = x :: rest.
Proof.
  destruct (fill_chunk_progress x rest) as (taken & H1 & H2).
  rewrite H1, <- app_comm_cons. f_equal. by symmetry.
Qed.

(** Every pass of the outer loop leaves fewer phrases to do. *)
Lemma fill_chunk_shorter (x : str) (rest : list str) :
  (length (fill [] 0 (x :: rest)).2 ≤ length rest)%nat.
Proof.
  destruct (fill_chunk_progress x rest) as (taken & _ & H2).
  rewrite H2 at 2. rewrite length_app. lia.
Qed.

Lemma batches_fuel_nil (fuel : nat) :
  batches_fuel max_items max_len sep fuel [] = Some [].
Proof. by destruct fuel. Qed.

Lemma batches_fuel_cons (fuel : nat) (x : str) (rest : list str) :
  batches_fuel max_items max_len sep (S fuel) (x :: rest)
  = ((fill [] 0 (x :: rest)).1 ::.)
      <$> batches_fuel max_items max_len sep fuel (fill [] 0 (x :: rest)).2.
Proof.
  cbn [batches_fuel].
  by destruct (fill_chunk max_items max_len sep [] 0 (x :: rest)).
Qed.

Lemma batches_fuel_enough (rest : list str) (extra : nat) :
  is_Some (batches_fuel max_items max_len sep (length rest + extra) rest).
Proof.
  remember (length rest) as n eqn:Hn.
  assert (Hle : (length rest ≤ n)%nat) by lia. clear Hn.
  revert rest Hle. induction n as [|n IH]; intros rest Hle.
  - destruct rest; [|simpl in Hle; lia]. rewrite batches_fuel_nil. by eexists.
  - destruct rest as [|x rest]; [rewrite batches_fuel_nil; by eexists|].
    rewrite Nat.add_succ_l, batches_fuel_cons.
    pose proof (fill_chunk_shorter x rest) as Hsh.
    destruct (IH (fill [] 0 (x :: rest)).2) as [bs Hbs].
    + simpl in Hle. lia.
    + rewrite Hbs. by eexists.
Qed.

Lemma batches_fuel_more (fuel : nat) (rest : list str) (bs : list (list str)) :
  batches_fuel max_items max_len sep fuel rest = Some bs →
  ∀ extra, batches_fuel max_items max_len sep (fuel + extra) rest = Some bs.
Proof.
  revert rest bs. induction fuel as [|fuel IH]; intros rest bs H extra.
  - destruct rest; [|done]. rewrite batches_fuel_nil. by simpl in H.
  - destruct rest as [|x rest]; [by rewrite batches_fuel_nil|].
    rewrite Nat.add_succ_l, batches_fuel_cons. rewrite batches_fuel_cons in H.
    destruct (batches_fuel max_items max_len sep fuel _) as [bs'|] eqn:Hbs; [|done].
    by rewrite (IH _ _ Hbs).
Qed.

Lemma batches_unfold (x : str) (rest : list str) :
  batches max_items max_len sep (x :: rest) =
  (fill [] 0 (x :: rest)).1 :: batches max_items max_len sep (fill [] 0 (x :: rest)).2.
Proof.
  unfold batches.
  change (length (x :: rest)) with (S (length rest)).
  rewrite batches_fuel_cons.
  pose proof (fill_chunk_shorter x rest) as Hsh.
  destruct (batches_fuel_enough (fill [] 0 (x :: rest)).2 0) as [bs Hbs].
  rewrite Nat.add_0_r in Hbs.
  replace (length rest)
    with (length (fill [] 0 (x :: rest)).2
          + (length rest - length (fill [] 0 (x :: rest)).2))%nat by lia.
  by rewrite (batches_fuel_more _ _ _ Hbs), Hbs.
Qed.

(** Induction over the chunks, phrase list by phrase list. *)
Lemma batches_ind (P : list str → list (list str) → Prop) :
  P [] [] →
  (∀ x rest, P (fill [] 0 (x :: rest)).2
               (batches max_items max_len sep (fill [] 0 (x :: rest)).2) →
             P (x :: rest) (batches max_items max_len sep (x :: rest))) →
  ∀ uniq, P uniq (batches max_items max_len sep uniq).
Proof.
  intros Hnil Hcons uniq.
  remember (length uniq) as n eqn:Hn.
  assert (Hle : (length uniq ≤ n)%nat) by lia. clear Hn.
  revert uniq Hle. induction n as [|n IH]; intros uniq Hle.
  - destruct uniq; [done|simpl in Hle; lia].
  - destruct uniq as [|x rest]; [done|].
    apply Hcons, IH.
    pose proof (fill_chunk_shorter x rest) as Hsh. simpl in Hle. lia.
Qed.

Lemma batches_concat (uniq : list str) :
  concat (batches max_items max_len sep uniq) = uniq.
Proof.
  apply (batches_ind (λ u bs, concat bs = u)); [done|].
  intros x rest IH.
  by rewrite batches_unfold, concat_cons, IH, fill_chunk_whole.
Qed.

Lemma batches_nonempty (uniq : list str) :
  Forall (λ b, b ≠ []) (batches max_items max_len sep uniq).
Proof.
  apply (batches_ind (λ _ bs, Forall (λ b, b ≠ []) bs)); [done|].
  intros x rest IH. rewrite batches_unfold. constructor; [|done].
  destruct (fill_chunk_progress x rest) as (taken & H1 & _). by rewrite H1.
Qed.

Lemma batches_bounded (uniq : list str) :
  Forall (λ b, (1 < length b)%nat →
               (length b ≤ max_items)%nat ∧ (length (join sep b) ≤ max_len)%nat)
         (batches max_items max_len sep uniq).
Proof.
  apply (batches_ind (λ _ bs, Forall (λ b, (1 < length b)%nat →
    (length b ≤ max_items)%nat ∧ (length (join sep b) ≤ max_len)%nat) bs)); [done|].
  intros x rest IH. rewrite batches_unfold. constructor; [|done].
  assert (chunk_ok [] 0) as H0 by (split; [done|simpl; lia]).
  apply (fill_chunk_ok (x :: rest)) in H0. by destruct H0.
Qed.

Lemma batches_oversized (uniq : list str) (p : str) :
  p ∈ uniq → (max_len < length p)%nat →
  [p] ∈ batches max_items max_len sep uniq.
Proof.
  intros Hin Hlong.
  rewrite <- (batches_concat uniq) in Hin.
  apply list_elem_of_In, in_concat in Hin as (b & Hb & Hp).
  apply list_elem_of_In in Hb, Hp.
  assert (b = [p]) as <-; [|done].
  pose proof (batches_bounded uniq) as Hbd.
  rewrite Forall_forall in Hbd. specialize (Hbd b Hb).
  pose proof (join_length_elem b p Hp) as Hlen.
  destruct b as [|a [|a' b]].
  - by apply elem_of_nil in Hp.
  - by apply list_elem_of_singleton in Hp as ->.
  - destruct Hbd as [_ Hbd]; [simpl; lia|]. lia.
Qed.

(** The loop with effects visits exactly these chunks, in order. *)
Lemma chunk_loop_nil {C} (process : list str → M C ()) (fuel : nat) :
  chunk_loop max_items max_len sep process fuel [] = ret ().
Proof. by destruct fuel. Qed.

Lemma chunk_loop_cons {C} (process : list str → M C ()) (fuel : nat)
  (x : str) (rest : list str) :
  chunk_loop max_items max_len sep process (S fuel) (x :: rest)
  = (process (fill [] 0 (x :: rest)).1 ;;
     chunk_loop max_items max_len sep process fuel (fill [] 0 (x :: rest)).2).
Proof.
  cbn [chunk_loop].
  by destruct (fill_chunk max_items max_len sep [] 0 (x :: rest)).
Qed.

Lemma chunk_loop_batches {C} (process : list str → M C ()) (uniq : list str)
  (extra : nat) :
  chunk_loop max_items max_len sep process (length uniq + extra) uniq
  = for_each process (batches max_items max_len sep uniq).
Proof.
  remember (length uniq) as n eqn:Hn.
  assert (Hle : (length uniq ≤ n)%nat) by lia. clear Hn.
  revert uniq Hle. induction n as [|n IH]; intros uniq Hle.
  - destruct uniq; [|simpl in Hle; lia]. by rewrite chunk_loop_nil.
  - destruct uniq as [|x rest]; [by rewrite chunk_loop_nil|].
    rewrite batches_unfold, Nat.add_succ_l, chunk_loop_cons.
    pose proof (fill_chunk_shorter x rest) as Hsh.
    simpl for_each. rewrite IH; [done|]. simpl in Hle. lia.
Qed.

Lemma chunk_loop_all {C} (process : list str → M C ()) (uniq : list str) :
  chunk_loop max_items max_len sep process (length uniq) uniq
  = for_each process (batches max_items max_len sep uniq).
Proof.
  rewrite <- (Nat.add_0_r (length uniq)) at 1. apply chunk_loop_batches.
Qed.
End Facts.
End BatcherFacts.

(** ** Strings: stripping and normalizing *)

Module StrFacts.
Import Shared.

Lemma ws_prefix_lstrip (s : str) : s = ws_prefix s ++ lstrip s.
Proof.
  induction s as [|c s IH]; [done|]. simpl.
  destruct (isspace c); [|done]. simpl. by f_equal.
Qed.

Lemma ws_prefix_space (s : str) : Forall (λ c, isspace c = true) (ws_prefix s).
Proof.
  induction s as [|c s IH]; [constructor|]. simpl.
  destruct (isspace c) eqn:E; by constructor.
Qed.

(** No longer prefix of [s] is made of whitespace only. *)
Lemma ws_prefix_longest (s p : str) :
  p `prefix_of` s → Forall (λ c, isspace c = true) p → p `prefix_of` ws_prefix s.
Proof.
  revert p. induction s as [|c s IH]; intros p Hp Hws.
  - by apply prefix_nil_inv in Hp as ->.
  - destruct p as [|d p]; [apply prefix_nil|].
    apply prefix_cons_inv_1 in Hp as Hd. subst d.
    apply prefix_cons_inv_2 in Hp.
    inversion Hws as [|?? Hc Hws']; subst. simpl. rewrite Hc.
    by apply prefix_cons, IH.
Qed.

Lemma lstrip_head (s : str) :
  match lstrip s with [] => True | c :: _ => isspace c = false end.
Proof.
  induction s as [|c s IH]; [done|]. simpl.
  destruct (isspace c) eqn:E; [done|]. by simpl.
Qed.

Lemma lstrip_fixed (s : str) :
  match s with [] => True | c :: _ => isspace c = false end → lstrip s = s.
Proof. destruct s as [|c s]; [done|]. simpl. by intros ->. Qed.

Lemma lstrip_idemp (s : str) : lstrip (lstrip s) = lstrip s.
Proof. apply lstrip_fixed, lstrip_head. Qed.

Lemma rstrip_ws_suffix (s : str) : s = rstrip s ++ ws_suffix s.
Proof.
  unfold rstrip, ws_suffix. rewrite <- reverse_app, <- ws_prefix_lstrip.
  by rewrite reverse_involutive.
Qed.

Lemma ws_suffix_space (s : str) : Forall (λ c, isspace c = true) (ws_suffix s).
Proof. unfold ws_suffix. apply Forall_reverse, ws_prefix_space. Qed.

Lemma ws_suffix_longest (s p : str) :
  p `suffix_of` s → Forall (λ c, isspace c = true) p → p `suffix_of` ws_suffix s.
Proof.
  intros Hp Hws. unfold ws_suffix.
  apply suffix_prefix_reverse. rewrite reverse_involutive.
  apply ws_prefix_longest.
  - by apply suffix_prefix_reverse.
  - by apply Forall_reverse.
Qed.

(** The slices of the scripts are the two runs of whitespace. *)
Lemma leading_of_ws_prefix (raw : str) : leading_of raw = ws_prefix raw.
Proof.
  unfold leading_of, len.
  rewrite (ws_prefix_lstrip raw) at 1 3.
  rewrite length_app.
  replace (length (ws_prefix raw) + length (lstrip raw) - length (lstrip raw))%nat
    with (length (ws_prefix raw)) by lia.
  by rewrite take_app_length.
Qed.

Lemma trailing_of_ws_suffix (raw : str) : trailing_of raw = ws_suffix raw.
Proof.
  unfold trailing_of, len.
  rewrite (rstrip_ws_suffix raw) at 2.
  by rewrite drop_app_length.
Qed.

Lemma rstrip_idemp (s : str) : rstrip (rstrip s) = rstrip s.
Proof. unfold rstrip. by rewrite reverse_involutive, lstrip_idemp. Qed.

Lemma rstrip_head (s : str) :
  match s with [] => True | c :: _ => isspace c = false end →
  match rstrip s with [] => True | c :: _ => isspace c = false end.
Proof.
  intros Hs. pose proof (rstrip_ws_suffix s) as E.
  destruct (rstrip s) as [|c r]; [done|].
  rewrite E in Hs. exact Hs.
Qed.

Lemma strip_idemp (s : str) : strip (strip s) = strip s.
Proof.
  unfold strip.
  rewrite (lstrip_fixed (rstrip (lstrip s))).
  - apply rstrip_idemp.
  - apply rstrip_head, lstrip_head.
Qed.

(** A node that is not all whitespace is its leading whitespace, its
    stripped text and its trailing whitespace. *)
Lemma strip_decompose (raw : str) :
  lstrip raw ≠ [] → raw = ws_prefix raw ++ strip raw ++ ws_suffix raw.
Proof.
  intros Hne.
  rewrite (ws_prefix_lstrip raw) at 1. f_equal.
  unfold strip. rewrite (rstrip_ws_suffix (lstrip raw)) at 1. f_equal.
  (* the trailing run of [lstrip raw] is that of [raw] *)
  unfold ws_suffix. f_equal.
  rewrite (ws_prefix_lstrip raw) at 2. rewrite reverse_app.
  pose proof (lstrip_head raw) as Hh.
  destruct (lstrip raw) as [|c r] eqn:E; [done|]. clear Hne.
  generalize (reverse (ws_prefix raw)) as w.
  rewrite reverse_cons. generalize (reverse r) as q. clear -Hh.
  induction q as [|d q IH]; intros w; simpl.
  - by rewrite Hh.
  - destruct (isspace d); [|done]. f_equal. apply IH.
Qed.

(** *** Normalized phrases *)

(** Whitespace in [s] is single spaces only; [prev] tells that the
    character before [s] is whitespace. *)
Fixpoint tidy (prev : bool) (s : str) : Prop :=
  match s with
  | [] => True
  | c :: s' =>
      if isspace c then c = 32 ∧ prev = false ∧ tidy true s'
      else tidy false s'
  end.

Lemma sub_ws_tidy (b : bool) (s : str) : tidy b (sub_ws b s).
Proof.
  revert b. induction s as [|c s IH]; intros b; [done|]. simpl.
  destruct (isspace c) eqn:E.
  - destruct b; [apply IH|]. simpl. split_and!; [done..|apply IH].
  - simpl. rewrite E. apply IH.
Qed.

Lemma tidy_sub_ws (b : bool) (s : str) : tidy b s → sub_ws b s = s.
Proof.
  revert b. induction s as [|c s IH]; intros b; [done|]. simpl.
  destruct (isspace c) eqn:E.
  - intros (-> & -> & H). f_equal. by apply IH.
  - intros H. f_equal. by apply IH.
Qed.

Lemma tidy_weaken (b : bool) (s : str) : tidy b s → tidy false s.
Proof.
  destruct s as [|c s]; [done|]. simpl.
  destruct (isspace c); [|done]. by intros (-> & -> & ?).
Qed.

Lemma tidy_app_l (b : bool) (p q : str) : tidy b (p ++ q) → tidy b p.
Proof.
  revert b. induction p as [|c p IH]; intros b; [done|]. simpl.
  destruct (isspace c).
  - intros (? & ? & H). split_and!; [done..|by apply IH].
  - apply IH.
Qed.

Lemma tidy_lstrip (b : bool) (s : str) : tidy b s → tidy false (lstrip s).
Proof.
  revert b. induction s as [|c s IH]; intros b; [done|]. simpl.
  destruct (isspace c) eqn:E.
  - intros (_ & _ & H). by apply IH in H.
  - intros H. simpl. by rewrite E.
Qed.

Lemma tidy_strip (s : str) : tidy false s → tidy false (strip s).
Proof.
  intros H%tidy_lstrip. unfold strip.
  rewrite (rstrip_ws_suffix (lstrip s)) in H. by apply tidy_app_l in H.
Qed.

Lemma replace_char_absent (old : N) (new s : str) :
  old ∉ s → replace_char old new s = s.
Proof.
  unfold replace_char. induction s as [|c s IH]; [done|].
  intros [Hc Hs]%not_elem_of_cons. simpl.
  destruct (N.eqb_spec c old) as [->|_]; [done|].
  simpl. f_equal. by apply IH.
Qed.

Lemma replace_char_gone (old : N) (new s : str) :
  old ∉ new → old ∉ replace_char old new s.
Proof.
  intros Hnew. unfold replace_char. induction s as [|c s IH]; simpl.
  - apply not_elem_of_nil.
  - rewrite elem_of_app. intros [H|H]; [|done].
    destruct (N.eqb_spec c old) as [->|Hne]; [done|].
    apply list_elem_of_singleton in H. by subst.
Qed.

Lemma replace_char_keeps_absent (x old : N) (new s : str) :
  x ∉ new → x ∉ s → x ∉ replace_char old new s.
Proof.
  intros Hnew. unfold replace_char. induction s as [|c s IH]; simpl.
  - intros _. apply not_elem_of_nil.
  - intros [Hc Hs]%not_elem_of_cons. rewrite elem_of_app. intros [H|H].
    + destruct (c =? old); [done|]. by apply list_elem_of_singleton in H.
    + by apply IH.
Qed.

Lemma sub_ws_keeps_absent (x : N) (b : bool) (s : str) :
  x ≠ 32 → x ∉ s → x ∉ sub_ws b s.
Proof.
  intros Hx. revert b. induction s as [|c s IH]; intros b; simpl; [done|].
  intros [Hc Hs]%not_elem_of_cons.
  destruct (isspace c); [destruct b|]; rewrite ?not_elem_of_cons; auto.
Qed.

Lemma lstrip_keeps_absent (x : N) (s : str) : x ∉ s → x ∉ lstrip s.
Proof.
  induction s as [|c s IH]; simpl; [done|].
  intros H. destruct (isspace c); [|done].
  apply IH. by apply not_elem_of_cons in H as [_ ?].
Qed.

Lemma strip_keeps_absent (x : N) (s : str) : x ∉ s → x ∉ strip s.
Proof.
  intros H%lstrip_keeps_absent. unfold strip.
  rewrite (rstrip_ws_suffix (lstrip s)) in H.
  by apply not_elem_of_app in H as [? _].
Qed.

Lemma normalize_plain_idemp (s : str) :
  Common.normalize_plain (Common.normalize_plain s) = Common.normalize_plain s.
Proof.
  unfold Common.normalize_plain.
  rewrite (tidy_sub_ws false (strip _)).
  - apply strip_idemp.
  - apply tidy_strip, sub_ws_tidy.
Qed.

Lemma normalize_quotes_idemp (s : str) :
  Common.normalize_quotes (Common.normalize_quotes s) = Common.normalize_quotes s.
Proof.
  unfold Common.normalize_quotes.
  set (t := replace_char 8216 [39] (replace_char 8217 [39] s)).
  assert (8217 ∉ strip (sub_ws false t)) as H1.
  { apply strip_keeps_absent, sub_ws_keeps_absent; [done|].
    apply replace_char_keeps_absent; [by rewrite list_elem_of_singleton|].
    apply replace_char_gone. by rewrite list_elem_of_singleton. }
  assert (8216 ∉ strip (sub_ws false t)) as H2.
  { apply strip_keeps_absent, sub_ws_keeps_absent; [done|].
    apply replace_char_gone. by rewrite list_elem_of_singleton. }
  rewrite (replace_char_absent 8217) by done.
  rewrite (replace_char_absent 8216) by done.
  rewrite (tidy_sub_ws false (strip _)).
  - apply strip_idemp.
  - apply tidy_strip, sub_ws_tidy.
Qed.

(** A normalized phrase is not changed by [strip]. *)
Lemma normalize_quotes_strip (s : str) :
  strip (Common.normalize_quotes s) = Common.normalize_quotes s.
Proof. apply strip_idemp. Qed.

End StrFacts.

(** ** Traces *)

Module TraceFacts.

Lemma requests_app (t1 t2 : list event) :
  requests (t1 ++ t2) = requests t1 ++ requests t2.
Proof. apply filter_app. Qed.

Lemma requests_snoc_request (tr : list event) (lang text : str) :
  requests (tr ++ [Request lang text]) = requests tr ++ [Request lang text].
Proof. by rewrite requests_app. Qed.

Lemma requests_snoc_sleep (tr : list event) (ms : N) :
  requests (tr ++ [Sleep ms]) = requests tr.
Proof. rewrite requests_app. apply app_nil_r. Qed.

Lemma requests_snoc_print (tr : list event) (line : str) :
  requests (tr ++ [Print line]) = requests tr.
Proof. rewrite requests_app. apply app_nil_r. Qed.

End TraceFacts.

(** ** Reasoning about runs *)

Module RunFacts.

(** [m] ends with a value from every state. *)
Definition total {C A} (m : M C A) : Prop :=
  ∀ w, ∃ a w', m w = (Ok a, w').

(** [m] ends, with a value or an exception, from every state: the model
    never runs out of fuel in it. *)
Definition halts {C A} (m : M C A) : Prop :=
  ∀ w, (∃ a w', m w = (Ok a, w')) ∨ (∃ w', m w = (Raise, w')).

Lemma total_halts {C A} (m : M C A) : total m → halts m.
Proof. intros H w. left. apply H. Qed.

Lemma total_ret {C A} (a : A) : total (ret a : M C A).
Proof. intros w. by exists a, w. Qed.

Lemma total_bind {C A B} (m : M C A) (f : A → M C B) :
  total m → (∀ a, total (f a)) → total (bind m f).
Proof.
  intros Hm Hf w. destruct (Hm w) as (a & w1 & E).
  destruct (Hf a w1) as (b & w2 & E'). exists b, w2.
  unfold bind. by rewrite E.
Qed.

Lemma total_modify {C} (f : C → C) : total (modify f).
Proof. intros w. by eexists _, _. Qed.

Lemma total_emit {C} (e : event) : total (emit e : M C ()).
Proof. intros w. by eexists _, _. Qed.

Lemma total_get {C} : total (get : M C C).
Proof. intros w. by eexists _, _. Qed.

Lemma total_for_each {C A} (f : A → M C ()) (l : list A) :
  (∀ x, total (f x)) → total (for_each f l).
Proof.
  intros Hf. induction l as [|x l IH]; simpl.
  - apply total_ret.
  - apply total_bind; [apply Hf|done].
Qed.

Lemma total_try_except {C A} (m h : M C A) :
  halts m → total h → total (try_except m h).
Proof.
  intros Hm Hh w. unfold try_except.
  destruct (Hm w) as [(a & w1 & E)|(w1 & E)]; rewrite E.
  - by exists a, w1.
  - apply Hh.
Qed.

Lemma halts_raise {C A} : halts (raise : M C A).
Proof. intros w. right. by exists w. Qed.

Lemma halts_request {C} (net : service) (lang text : str) :
  halts (request net lang text : M C str).
Proof.
  intros w. unfold request. destruct (net _ lang text).
  - left. by eexists _, _.
  - right. by eexists.
Qed.

Lemma halts_bind {C A B} (m : M C A) (f : A → M C B) :
  halts m → (∀ a, halts (f a)) → halts (bind m f).
Proof.
  intros Hm Hf w. unfold bind.
  destruct (Hm w) as [(a & w1 & E)|(w1 & E)]; rewrite E.
  - apply Hf.
  - right. by exists w1.
Qed.

Lemma halts_try_except {C A} (m h : M C A) :
  halts m → halts h → halts (try_except m h).
Proof.
  intros Hm Hh w. unfold try_except.
  destruct (Hm w) as [(a & w1 & E)|(w1 & E)]; rewrite E.
  - left. by exists a, w1.
  - apply Hh.
Qed.

(** [I] holds after [m] whenever it holds before, however [m] ends. *)
Definition preserves {C A} (I : world C → Prop) (m : M C A) : Prop :=
  ∀ w, I w → I (m w).2.

Lemma preserves_ret {C A} (I : world C → Prop) (a : A) : preserves I (ret a).
Proof. by intros w. Qed.

Lemma preserves_raise {C A} (I : world C → Prop) : preserves I (raise : M C A).
Proof. by intros w. Qed.

Lemma preserves_get {C} (I : world C → Prop) : preserves I get.
Proof. by intros w. Qed.

Lemma preserves_bind {C A B} (I : world C → Prop) (m : M C A) (f : A → M C B) :
  preserves I m → (∀ a, preserves I (f a)) → preserves I (bind m f).
Proof.
  intros Hm Hf w Hw. unfold bind. specialize (Hm w Hw).
  destruct (m w) as [[a| |] w1]; simpl in *; [by apply Hf|done..].
Qed.

Lemma preserves_try_except {C A} (I : world C → Prop) (m h : M C A) :
  preserves I m → preserves I h → preserves I (try_except m h).
Proof.
  intros Hm Hh w Hw. unfold try_except. specialize (Hm w Hw).
  destruct (m w) as [[a| |] w1]; simpl in *; [done|by apply Hh|done].
Qed.

Lemma preserves_for_each {C A} (I : world C → Prop) (f : A → M C ()) (l : list A) :
  (∀ x, x ∈ l → preserves I (f x)) → preserves I (for_each f l).
Proof.
  induction l as [|x l IH]; intros Hf; simpl.
  - apply preserves_ret.
  - apply preserves_bind.
    + apply Hf. by left.
    + intros _. apply IH. intros y Hy. apply Hf. by right.
Qed.

Lemma preserves_modify {C} (I : world C → Prop) (f : C → C) :
  (∀ w, I w → I (World (f (store w)) (trace w))) → preserves I (modify f).
Proof. intros H w Hw. by apply H. Qed.

Lemma preserves_total {C A} (I : world C → Prop) (m : M C A) (w : world C) :
  preserves I m → I w → ∀ a w', m w = (Ok a, w') → I w'.
Proof. intros Hm Hw a w' E. specialize (Hm w Hw). by rewrite E in Hm. Qed.

(** A loop whose every turn establishes [P x] for its item, and undoes
    no [P y], establishes it for all items. *)
Lemma for_each_establishes {C A} (P : A → world C → Prop) (f : A → M C ())
  (l : list A) :
  (∀ x w, x ∈ l → ∃ w', f x w = (Ok (), w') ∧ P x w') →
  (∀ x y, y ∈ l → preserves (P x) (f y)) →
  ∀ w, ∃ w', for_each f l w = (Ok (), w') ∧ ∀ x, x ∈ l → P x w'.
Proof.
  induction l as [|y l IH]; intros Hest Hpres w.
  - exists w. split; [done|]. by intros x ?%elem_of_nil.
  - destruct (Hest y w) as (w1 & E1 & Hy); [by left|].
    destruct (IH (λ x w Hx, Hest x w (list_elem_of_further _ _ _ Hx))
                 (λ x z Hz, Hpres x z (list_elem_of_further _ _ _ Hz)) w1)
      as (w' & E & Hall).
    exists w'. split.
    + simpl. unfold bind. by rewrite E1.
    + intros x [->|Hx]%elem_of_cons; [|by apply Hall].
      eapply (preserves_total (P y) (for_each f l) w1); [|done..].
      apply preserves_for_each. intros z Hz. apply Hpres. by right.
Qed.

(** The cache keeps the key [k]. *)
Definition has_key {K V} `{Countable K} (k : K) (w : world (gmap K V)) : Prop :=
  is_Some (store w !! k).

(** The cache still holds every entry of [c0], with its value. *)
Definition extends {K V} `{Countable K} (c0 : gmap K V) (w : world (gmap K V)) : Prop :=
  c0 ⊆ store w.

Lemma has_key_insert {K V} `{Countable K} (k k' : K) (v : V) (w : world (gmap K V)) :
  has_key k w → has_key k (World (<[k' := v]> (store w)) (trace w)).
Proof.
  unfold has_key. simpl. intros Hk. rewrite lookup_insert. by case_decide.
Qed.

Lemma preserves_emit {C} (I : world C → Prop) (e : event) :
  (∀ w, I w → I (World (store w) (trace w ++ [e]))) → preserves I (emit e).
Proof. intros H w Hw. by apply H. Qed.

Lemma preserves_request {C} (I : world C → Prop) (net : service) (lang text : str) :
  (∀ w, I w → I (World (store w) (trace w ++ [Request lang text]))) →
  preserves I (request net lang text).
Proof.
  intros H w Hw. unfold request. destruct (net _ lang text); by apply H.
Qed.

End RunFacts.

(** ** batch_translate_visible_nodes.py: the fallback *)

Module BatchVisibleFacts.
Import Shared TraceFacts BatchVisible.
Section Facts.
Variable net : service.

(** What the fallback does for one phrase: one request, and the phrase
    is in [out] afterwards whatever the answer. *)
Lemma fallback_one_run (lang src : str) (w : world (gmap str str)) :
  fallback_one net lang src w =
  match net (nreq w) lang src with
  | Some body =>
      (Ok (), World (<[src := strip body]> (store w))
                    ((trace w ++ [Request lang src]) ++ [Sleep 80]))
  | None =>
      (Ok (), World (<[src := src]> (store w)) (trace w ++ [Request lang src]))
  end.
Proof.
  unfold fallback_one, translate_google, try_except, bind, request, assign,
    modify, sleep, emit, ret. simpl.
  by destruct (net _ lang src).
Qed.

Lemma bv_fallback_one_post (lang src : str) (w : world (gmap str str)) :
  ∃ w1, fallback_one net lang src w = (Ok (), w1)
        ∧ is_Some (store w1 !! src)
        ∧ (∀ k, is_Some (store w !! k) → is_Some (store w1 !! k))
        ∧ requests (trace w1) = requests (trace w) ++ [Request lang src].
Proof.
  rewrite fallback_one_run.
  destruct (net _ lang src); eexists; (split; [done|]); simpl; split_and!.
  - rewrite lookup_insert_eq. by eexists.
  - intros k Hk. rewrite lookup_insert. by case_decide.
  - by rewrite requests_snoc_sleep, requests_snoc_request.
  - rewrite lookup_insert_eq. by eexists.
  - intros k Hk. rewrite lookup_insert. by case_decide.
  - by rewrite requests_snoc_request.
Qed.

Lemma fallback_all (lang : str) (chunk : list str) (w : world (gmap str str)) :
  ∃ w', for_each (fallback_one net lang) chunk w = (Ok (), w')
        ∧ (∀ src, src ∈ chunk → is_Some (store w' !! src))
        ∧ (∀ k, is_Some (store w !! k) → is_Some (store w' !! k))
        ∧ requests (trace w') = requests (trace w) ++ (Request lang <$> chunk).
Proof.
  revert w. induction chunk as [|src chunk IH]; intros w.
  - exists w. split_and!; [done| |done|by rewrite app_nil_r].
    by intros src ?%elem_of_nil.
  - destruct (bv_fallback_one_post lang src w) as (w1 & Hrun1 & Hsrc & Hkeep & Hreq).
    destruct (IH w1) as (w' & Hrun & Hall & Hkeep' & Hreq').
    exists w'. split_and!.
    + simpl for_each. unfold bind. by rewrite Hrun1.
    + intros s [->|Hs]%elem_of_cons; [by apply Hkeep'|by apply Hall].
    + intros k Hk. by apply Hkeep', Hkeep.
    + rewrite Hreq', Hreq, <- app_assoc. done.
Qed.

(** A split count that differs from the chunk size sends the whole chunk
    to the fallback: nothing of the joined answer is used. *)
Lemma process_chunk_mismatch (lang : str) (chunk : list str)
  (w : world (gmap str str)) (body : str) :
  net (nreq w) lang (join sep chunk) = Some body →
  length (split (strip body) sep) ≠ length chunk →
  process_chunk net lang chunk w =
  (for_each (fallback_one net lang) chunk ;; sleep 60)
    (World (store w) (trace w ++ [Request lang (join sep chunk)])).
Proof.
  intros Hnet Hlen.
  unfold process_chunk, translate_google, try_except, bind at 1 2 3, request, ret.
  simpl. rewrite Hnet.
  apply Nat.eqb_neq in Hlen. rewrite Hlen. unfold raise at 1. by unfold bind.
Qed.

Lemma bv_process_chunk_total (lang : str) (chunk : list str) :
  RunFacts.total (process_chunk net lang chunk).
Proof.
  unfold process_chunk.
  apply RunFacts.total_bind; [|intros _; apply RunFacts.total_emit].
  apply RunFacts.total_try_except.
  - apply RunFacts.halts_bind.
    + apply RunFacts.halts_bind; [apply RunFacts.halts_request|].
      intros body. apply RunFacts.total_halts, RunFacts.total_ret.
    + intros translated. destruct (_ =? _)%nat.
      * apply RunFacts.total_halts, RunFacts.total_for_each.
        intros p. apply RunFacts.total_modify.
      * apply RunFacts.halts_raise.
  - apply RunFacts.total_for_each. intros src w.
    destruct (bv_fallback_one_post lang src w) as (w1 & E & _). by exists (), w1.
Qed.

Lemma bv_batch_translate_total (texts : list str) (lang : str) (tr : list event) :
  ∃ out tr', batch_translate net texts lang tr = (Ok out, tr').
Proof.
  unfold batch_translate, batch_loop. cbv zeta.
  rewrite BatcherFacts.chunk_loop_all.
  destruct (RunFacts.total_for_each (process_chunk net lang)
              (Batcher.batches max_items max_len sep (dedup ∅ texts))
              (bv_process_chunk_total lang) (World ∅ tr)) as ([] & w' & E).
  rewrite E. by eexists _, _.
Qed.

(** A request that fails does the same. *)
Lemma process_chunk_failure (lang : str) (chunk : list str)
  (w : world (gmap str str)) :
  net (nreq w) lang (join sep chunk) = None →
  process_chunk net lang chunk w =
  (for_each (fallback_one net lang) chunk ;; sleep 60)
    (World (store w) (trace w ++ [Request lang (join sep chunk)])).
Proof.
  intros Hnet.
  unfold process_chunk, translate_google, try_except, bind at 1 2 3, request, ret.
  simpl. rewrite Hnet. by unfold bind.
Qed.
End Facts.
End BatchVisibleFacts.

(** ** The phrases that are batched *)

Module UniqFacts.
Import Shared.

Lemma bv_dedup_spec (texts : list str) (seen : gset str) :
  NoDup (BatchVisible.dedup seen texts)
  ∧ BatchVisible.dedup seen texts `sublist_of` texts
  ∧ ∀ t, t ∈ BatchVisible.dedup seen texts ↔ t ∈ texts ∧ t ∉ seen.
Proof.
  revert seen. induction texts as [|x texts IH]; intros seen; simpl.
  - split_and!; [constructor|done|]. intros t. rewrite elem_of_nil. tauto.
  - case_bool_decide as Hx.
    + destruct (IH seen) as (Hnd & Hsub & Hin). split_and!; [done| |].
      * by apply sublist_cons.
      * intros t. rewrite Hin, elem_of_cons. split; [tauto|].
        intros [[->|?] ?]; tauto.
    + destruct (IH ({[x]} ∪ seen)) as (Hnd & Hsub & Hin). split_and!.
      * constructor; [|done]. rewrite Hin. set_solver.
      * by apply sublist_skip.
      * intros t. rewrite elem_of_cons, Hin, elem_of_cons.
        destruct (decide (t = x)) as [->|Hne]; set_solver.
Qed.

Lemma ce_collect_spec (lang : str) (cache : gmap (str * str) str)
  (texts : list str) (seen : gset str) :
  NoDup (CompleteExisting.collect lang cache seen texts)
  ∧ CompleteExisting.collect lang cache seen texts
      `sublist_of` (CompleteExisting.normalize <$> texts)
  ∧ ∀ t, t ∈ CompleteExisting.collect lang cache seen texts ↔
         t ∈ (CompleteExisting.normalize <$> texts) ∧ t ≠ []
         ∧ cache !! (lang, t) = None ∧ t ∉ seen.
Proof.
  revert seen. induction texts as [|x texts IH]; intros seen; simpl.
  - split_and!; [constructor|done|]. intros t. rewrite elem_of_nil. tauto.
  - set (n := CompleteExisting.normalize x).
    destruct (IH seen) as (Hnd & Hsub & Hin).
    destruct (nonempty n) eqn:Hne; simpl.
    2:{ split_and!; [done|by apply sublist_cons|].
        intros t. rewrite Hin, elem_of_cons. split; [tauto|].
        intros ([->|?] & ? & ?); [|tauto]. by destruct n. }
    case_bool_decide as Hc.
    { split_and!; [done|by apply sublist_cons|].
      intros t. rewrite Hin, elem_of_cons. split; [tauto|].
      intros ([->|?] & ? & Hn & ?); [|tauto].
      by apply eq_None_not_Some in Hn. }
    case_bool_decide as Hs.
    { split_and!; [done|by apply sublist_cons|].
      intros t. rewrite Hin, elem_of_cons. split; [tauto|].
      intros ([->|?] & ? & ? & ?); tauto. }
    destruct (IH ({[n]} ∪ seen)) as (Hnd' & Hsub' & Hin').
    split_and!.
    + constructor; [|done]. rewrite Hin'. set_solver.
    + by apply sublist_skip.
    + intros t. rewrite elem_of_cons, Hin', elem_of_cons.
      destruct (decide (t = n)) as [->|Hnn].
      * split; [|tauto]. intros _. split_and!; [tauto|by destruct n| |done].
        apply eq_None_not_Some. done.
      * set_solver.
Qed.

End UniqFacts.

(** ** Claims about the batcher *)

(** C2. The batcher cuts the deduplicated phrases, in their order, into
    consecutive batches: the batches put end to end are the phrase list
    (in which no phrase occurs twice), no batch is empty, every batch of
    more than one phrase has at most the maximum number of items and a
    joined length within the bound, and a phrase longer than the bound is
    a batch of its own.  The loop of [batch_translate] and of
    [batch_translate_texts] processes exactly these batches. *)
Theorem batcher_partitions_phrases :
  (∀ (texts : list str),
     let uniq := BatchVisible.dedup ∅ texts in
     let bs := Batcher.batches BatchVisible.max_items BatchVisible.max_len
                 BatchVisible.sep uniq in
     (NoDup uniq ∧ uniq `sublist_of` texts ∧ ∀ t, t ∈ uniq ↔ t ∈ texts)
     ∧ concat bs = uniq
     ∧ Forall (λ b, b ≠ []) bs
     ∧ Forall (λ b, (1 < length b)%nat →
                    (length b ≤ 35)%nat
                    ∧ (len (join BatchVisible.sep b) ≤ 3800)%nat) bs
     ∧ (∀ p, p ∈ uniq → (3800 < len p)%nat → [p] ∈ bs)
     ∧ ∀ net lang,
         BatchVisible.batch_loop net lang (length uniq) uniq
         = for_each (BatchVisible.process_chunk net lang) bs)
  ∧
  (∀ (texts : list str) (lang : str) (cache : gmap (str * str) str),
     let uniq := CompleteExisting.collect lang cache ∅ texts in
     let bs := Batcher.batches CompleteExisting.max_items
                 CompleteExisting.max_len CompleteExisting.sep uniq in
     (NoDup uniq
      ∧ uniq `sublist_of` (CompleteExisting.normalize <$> texts)
      ∧ ∀ t, t ∈ uniq ↔ t ∈ (CompleteExisting.normalize <$> texts) ∧ t ≠ []
                        ∧ cache !! (lang, t) = None)
     ∧ concat bs = uniq
     ∧ Forall (λ b, b ≠ []) bs
     ∧ Forall (λ b, (1 < length b)%nat →
                    (length b ≤ 40)%nat
                    ∧ (len (join CompleteExisting.sep b) ≤ 3900)%nat) bs
     ∧ (∀ p, p ∈ uniq → (3900 < len p)%nat → [p] ∈ bs)
     ∧ ∀ net,
         Batcher.chunk_loop CompleteExisting.max_items CompleteExisting.max_len
           CompleteExisting.sep (CompleteExisting.process_chunk net lang)
           (length uniq) uniq
         = for_each (CompleteExisting.process_chunk net lang) bs).
Proof.
  split.
  - intros texts. cbv zeta.
    destruct (UniqFacts.bv_dedup_spec texts ∅) as (Hnd & Hsub & Hin).
    split_and!.
    + done.
    + done.
    + intros t. rewrite Hin. set_solver.
    + apply BatcherFacts.batches_concat.
    + apply BatcherFacts.batches_nonempty.
    + apply BatcherFacts.batches_bounded.
    + intros p. apply BatcherFacts.batches_oversized.
    + intros net lang. apply BatcherFacts.chunk_loop_all.
  - intros texts lang cache. cbv zeta.
    destruct (UniqFacts.ce_collect_spec lang cache texts ∅) as (Hnd & Hsub & Hin).
    split_and!.
    + done.
    + done.
    + intros t. rewrite Hin. set_solver.
    + apply BatcherFacts.batches_concat.
    + apply BatcherFacts.batches_nonempty.
    + apply BatcherFacts.batches_bounded.
    + intros p. apply BatcherFacts.batches_oversized.
    + intros net. apply BatcherFacts.chunk_loop_all.
Qed.


(** ** The raising client *)

Module ClientFacts.
Import Shared TraceFacts RunFacts.
Section Facts.
Variable net : service.
Variables (backoff : N) (text lang : str).

Local Abbreviation attempts := (attempts_raising net backoff text lang).

(** One turn of the retry loop. *)
Lemma attempts_raising_cons (a : N) (range : list N)
  (w : world (gmap (str * str) str)) :
  attempts (a :: range) w =
  match net (nreq w) lang text with
  | Some body =>
      if nonempty (strip body)
      then (Ok (strip body),
            World (<[(lang, text) := strip body]> (store w))
                  (trace w ++ [Request lang text]))
      else attempts range (World (store w) (trace w ++ [Request lang text]))
  | None =>
      attempts range
        (World (store w)
               ((trace w ++ [Request lang text]) ++ [Sleep (backoff * (a + 1))]))
  end.
Proof.
  cbn [attempts_raising].
  unfold bind at 1, try_except, bind at 1, request.
  destruct (net (nreq w) lang text) as [body|]; [|done].
  by destruct (nonempty (strip body)).
Qed.

Lemma nreq_after_request {C} (w : world C) (lg tx : str) :
  nreq (World (store w) (trace w ++ [Request lg tx])) = S (nreq w).
Proof.
  unfold nreq. simpl. rewrite requests_snoc_request, length_app. simpl. lia.
Qed.

Lemma nreq_after_request_sleep {C} (w : world C) (lg tx : str) (ms : N) :
  nreq (World (store w) ((trace w ++ [Request lg tx]) ++ [Sleep ms])) = S (nreq w).
Proof.
  unfold nreq. simpl.
  rewrite requests_snoc_sleep, requests_snoc_request, length_app. simpl. lia.
Qed.

(** The loop ends with a non-empty translation just stored under the
    key, or raises with the cache as it was. *)
Lemma attempts_raising_store (range : list N) (w : world (gmap (str * str) str)) :
  match attempts range w with
  | (Ok v, w') => v ≠ [] ∧ store w' = <[(lang, text) := v]> (store w)
  | (Raise, w') => store w' = store w
  | (NoFuel, _) => False
  end.
Proof.
  revert w. induction range as [|a range IH]; intros w; [done|].
  rewrite attempts_raising_cons.
  destruct (net (nreq w) lang text) as [body|].
  - destruct (nonempty (strip body)) eqn:E.
    + cbn. split; [by destruct (strip body)|done].
    + apply (IH (World (store w) _)).
  - apply (IH (World (store w) _)).
Qed.
End Facts.

Section Client.
Variable net : service.
Variables (normalize : str → str) (range : list N) (backoff : N).

Local Abbreviation client := (translate_google_raising net normalize range backoff).

(** A cached key answers the call: no request, no change at all. *)
Lemma translate_google_cached (text lang cached : str)
  (w : world (gmap (str * str) str)) :
  store w !! (lang, normalize text) = Some cached →
  normalize text ≠ [] →
  client text lang w = (Ok cached, w).
Proof.
  intros Hc Hne. unfold translate_google_raising.
  destruct (normalize text) eqn:E; [done|]. simpl.
  unfold bind, get. by rewrite Hc.
Qed.

Lemma translate_google_store (text lang : str) (w : world (gmap (str * str) str)) :
  match client text lang w with
  | (Ok v, w') =>
      (normalize text = [] ∧ v = [] ∧ w' = w)
      ∨ (normalize text ≠ [] ∧ store w !! (lang, normalize text) = Some v ∧ w' = w)
      ∨ (normalize text ≠ [] ∧ store w !! (lang, normalize text) = None
         ∧ v ≠ [] ∧ store w' = <[(lang, normalize text) := v]> (store w))
  | (Raise, w') =>
      normalize text ≠ [] ∧ store w !! (lang, normalize text) = None
      ∧ store w' = store w
  | (NoFuel, _) => False
  end.
Proof.
  unfold translate_google_raising.
  destruct (normalize text) as [|c t] eqn:E; simpl; [by left|].
  unfold bind, get.
  destruct (store w !! (lang, c :: t)) as [v|] eqn:Hc.
  - right. by left.
  - pose proof (attempts_raising_store net backoff (c :: t) lang range w) as H.
    destruct (attempts_raising net backoff (c :: t) lang range w) as [[v| |] w'].
    + right. right. by destruct H.
    + done.
    + done.
Qed.

(** The cache only grows in a call, and entries keep their value. *)
Lemma translate_google_grows (text lang : str) (w : world (gmap (str * str) str)) :
  store w ⊆ store (client text lang w).2.
Proof.
  pose proof (translate_google_store text lang w) as H.
  destruct (client text lang w) as [[v| |] w']; simpl.
  - destruct H as [(_ & _ & ->)|[(_ & _ & ->)|(_ & Hn & _ & ->)]]; [done..|].
    by apply insert_subseteq.
  - by destruct H as (_ & _ & ->).
  - done.
Qed.

(** After a call that returns, the phrase is in the cache. *)
Lemma translate_google_present (text lang v : str)
  (w w' : world (gmap (str * str) str)) :
  client text lang w = (Ok v, w') → normalize text ≠ [] →
  store w' !! (lang, normalize text) = Some v.
Proof.
  intros E Hne. pose proof (translate_google_store text lang w) as H.
  rewrite E in H.
  destruct H as [(? & _)|[(_ & ? & ->)|(_ & _ & _ & ->)]]; [done..|].
  apply lookup_insert_eq.
Qed.

Lemma translate_google_halts (text lang : str) : halts (client text lang).
Proof.
  intros w. pose proof (translate_google_store text lang w) as H.
  destruct (client text lang w) as [[v| |] w']; [left|right|done]; eauto.
Qed.
End Client.
End ClientFacts.

(** ** complete_existing_course_translations.py: batches and fallback *)

Module CompleteExistingFacts.
Import Shared TraceFacts RunFacts ClientFacts CompleteExisting.
Section Facts.
Variable net : service.

Lemma normalize_idemp (s : str) : normalize (normalize s) = normalize s.
Proof. apply StrFacts.normalize_quotes_idemp. Qed.

Lemma translate_google_keeps (k : str * str) (text lang : str) :
  preserves (has_key k) (translate_google net text lang).
Proof.
  intros w [v Hk].
  pose proof (translate_google_grows net normalize [0; 1; 2] 250 text lang w) as Hsub.
  exists v. eapply lookup_weaken; [exact Hk|exact Hsub].
Qed.

Lemma translate_google_extends (c0 : gmap (str * str) str) (text lang : str) :
  preserves (extends c0) (translate_google net text lang).
Proof.
  intros w Hw. unfold extends in *.
  etrans; [exact Hw|].
  apply (translate_google_grows net normalize [0; 1; 2] 250 text lang w).
Qed.

(** The fallback for one phrase always ends, and the phrase is then in
    the cache under its own key. *)
Lemma ce_fallback_one_post (lang src : str) (w : world (gmap (str * str) str)) :
  normalize src = src → src ≠ [] →
  ∃ w', fallback_one net lang src w = (Ok (), w') ∧ has_key (lang, src) w'.
Proof.
  intros Hn Hne. unfold fallback_one, try_except, bind at 1 2.
  pose proof (translate_google_store net normalize [0; 1; 2] 250 src lang w) as H.
  fold (translate_google net src lang) in H.
  destruct (translate_google net src lang w) as [[v| |] w1] eqn:E; [| |done].
  - eexists. split; [done|]. unfold has_key. simpl.
    pose proof (translate_google_present net normalize [0; 1; 2] 250
                  src lang v w w1 E) as Hp.
    rewrite Hn in Hp. rewrite Hp; [by eexists|done].
  - eexists. split; [done|]. unfold has_key. simpl.
    rewrite lookup_insert_eq. by eexists.
Qed.

Lemma fallback_one_keeps (k : str * str) (lang src : str) :
  preserves (has_key k) (fallback_one net lang src).
Proof.
  unfold fallback_one. apply preserves_bind.
  - apply preserves_try_except.
    + apply preserves_bind; [apply translate_google_keeps|].
      intros _. apply preserves_ret.
    + apply preserves_modify. intros w. apply has_key_insert.
  - intros _. by apply preserves_emit.
Qed.

Lemma fallback_one_extends (c0 : gmap (str * str) str) (lang src : str) :
  c0 !! (lang, src) = None →
  preserves (extends c0) (fallback_one net lang src).
Proof.
  intros Hnone. unfold fallback_one. apply preserves_bind.
  - apply preserves_try_except.
    + apply preserves_bind; [apply translate_google_extends|].
      intros _. apply preserves_ret.
    + apply preserves_modify. intros w Hw. unfold extends in *. simpl.
      by apply insert_subseteq_r.
  - intros _. by apply preserves_emit.
Qed.

(** The assignment of one part of a joined answer. *)
Definition assign_part (lang : str) (p : str * str) : M (gmap (str * str) str) () :=
  let out := strip p.2 in
  modify (λ cache, <[(lang, p.1) := if nonempty out then out else p.1]> cache).

Lemma assign_parts_post (lang : str) (chunk parts : list str)
  (w : world (gmap (str * str) str)) :
  length parts = length chunk →
  ∃ w', for_each (assign_part lang) (zip chunk parts) w = (Ok (), w')
        ∧ ∀ src, src ∈ chunk → has_key (lang, src) w'.
Proof.
  intros Hlen.
  destruct (for_each_establishes (λ p w, has_key (lang, p.1) w)
              (assign_part lang) (zip chunk parts)) with (w := w)
    as (w' & E & Hall).
  - intros p w0 _. eexists. split; [done|]. unfold has_key. simpl.
    rewrite lookup_insert_eq. by eexists.
  - intros p q _. apply preserves_modify. intros w0. apply has_key_insert.
  - exists w'. split; [done|]. intros src Hsrc.
    apply list_elem_of_lookup in Hsrc as [i Hi].
    destruct (lookup_lt_is_Some_2 parts i) as [tr Htr].
    { rewrite Hlen. by eapply lookup_lt_Some. }
    apply (Hall (src, tr)).
    apply list_elem_of_lookup. exists i. by apply lookup_zip_Some.
Qed.

Lemma process_chunk_keeps (k : str * str) (lang : str) (chunk : list str) :
  preserves (has_key k) (process_chunk net lang chunk).
Proof.
  unfold process_chunk. apply preserves_bind; [|intros _; by apply preserves_emit].
  apply preserves_try_except.
  - apply preserves_bind; [apply translate_google_keeps|]. intros translated.
    destruct (negb _); [apply preserves_raise|].
    apply preserves_for_each. intros p _.
    apply preserves_modify. intros w. apply has_key_insert.
  - apply preserves_for_each. intros src _. apply fallback_one_keeps.
Qed.

(** Entries that were in the cache before the batches started are not
    touched: the phrases of a chunk were not among them. *)
Lemma process_chunk_extends (c0 : gmap (str * str) str) (lang : str)
  (chunk : list str) :
  (∀ src, src ∈ chunk → c0 !! (lang, src) = None) →
  preserves (extends c0) (process_chunk net lang chunk).
Proof.
  intros Hnone.
  unfold process_chunk. apply preserves_bind; [|intros _; by apply preserves_emit].
  apply preserves_try_except.
  - apply preserves_bind; [apply translate_google_extends|]. intros translated.
    destruct (negb _); [apply preserves_raise|].
    apply preserves_for_each. intros p Hp.
    apply preserves_modify. intros w Hw. unfold extends in *. simpl.
    apply insert_subseteq_r; [|done].
    apply Hnone. destruct p as [src tr]. by apply elem_of_zip_l in Hp.
  - apply preserves_for_each. intros src Hsrc.
    apply fallback_one_extends. by apply Hnone.
Qed.

Lemma fallback_all_post (lang : str) (chunk : list str)
  (w : world (gmap (str * str) str)) :
  Forall (λ src, normalize src = src ∧ src ≠ []) chunk →
  ∃ w', for_each (fallback_one net lang) chunk w = (Ok (), w')
        ∧ ∀ src, src ∈ chunk → has_key (lang, src) w'.
Proof.
  intros Hnorm. rewrite Forall_forall in Hnorm.
  apply (for_each_establishes (λ src w, has_key (lang, src) w)).
  - intros src w0 Hsrc. destruct (Hnorm src Hsrc). by apply ce_fallback_one_post.
  - intros src y _. apply fallback_one_keeps.
Qed.

(** Every chunk ends with all its phrases in the cache, whichever way
    the joined request went. *)
Lemma process_chunk_post (lang : str) (chunk : list str)
  (w : world (gmap (str * str) str)) :
  Forall (λ src, normalize src = src ∧ src ≠ []) chunk →
  ∃ w', process_chunk net lang chunk w = (Ok (), w')
        ∧ ∀ src, src ∈ chunk → has_key (lang, src) w'.
Proof.
  intros Hnorm. unfold process_chunk, bind at 1, try_except, bind at 1.
  destruct (translate_google_halts net normalize [0; 1; 2] 250
              (join sep chunk) lang w) as [(tr & w1 & E)|(w1 & E)];
    fold (translate_google net (join sep chunk) lang) in E; rewrite E.
  - destruct (length (split tr sep) =? length chunk)%nat eqn:Hlen; simpl.
    + apply Nat.eqb_eq in Hlen.
      destruct (assign_parts_post lang chunk (split tr sep) w1 Hlen)
        as (w' & E' & Hall).
      unfold assign_part in E'. rewrite E'.
      eexists. split; [done|]. intros src Hsrc. by apply Hall.
    + destruct (fallback_all_post lang chunk w1 Hnorm) as (w' & E' & Hall).
      unfold raise. rewrite E'.
      eexists. split; [done|]. intros src Hsrc. by apply Hall.
  - destruct (fallback_all_post lang chunk w1 Hnorm) as (w' & E' & Hall).
    rewrite E'. eexists. split; [done|]. intros src Hsrc. by apply Hall.
Qed.

Lemma batches_elem (max_items max_len : nat) (sp : str) (uniq chunk : list str)
  (src : str) :
  chunk ∈ Batcher.batches max_items max_len sp uniq → src ∈ chunk → src ∈ uniq.
Proof.
  intros Hc Hs. rewrite <- (BatcherFacts.batches_concat max_items max_len sp uniq).
  apply list_elem_of_In, in_concat. exists chunk.
  split; by apply list_elem_of_In.
Qed.

(** [batch_translate_texts] always returns; afterwards every phrase it
    was given is in the cache under its own key, and the entries that
    were there before are unchanged. *)
Lemma batch_translate_texts_post (texts : list str) (lang : str)
  (w : world (gmap (str * str) str)) :
  ∃ w', batch_translate_texts net texts lang w = (Ok (), w')
        ∧ (∀ t, t ∈ texts → normalize t ≠ [] → has_key (lang, normalize t) w')
        ∧ store w ⊆ store w'.
Proof.
  unfold batch_translate_texts, bind, get.
  set (uniq := collect lang (store w) ∅ texts).
  destruct (UniqFacts.ce_collect_spec lang (store w) texts ∅) as (_ & _ & Hin).
  fold uniq in Hin.
  assert (∃ w', Batcher.chunk_loop max_items max_len sep (process_chunk net lang)
                  (length uniq) uniq w = (Ok (), w')
                ∧ (∀ src, src ∈ uniq → has_key (lang, src) w')
                ∧ store w ⊆ store w') as (w' & E & Hall & Hsub).
  { rewrite BatcherFacts.chunk_loop_all.
    set (bs := Batcher.batches max_items max_len sep uniq).
    destruct (for_each_establishes
                (λ chunk w, ∀ src, src ∈ chunk → has_key (lang, src) w)
                (process_chunk net lang) bs) with (w := w) as (w' & E & Hall).
    - intros chunk w0 Hc. apply process_chunk_post.
      apply Forall_forall. intros src Hsrc.
      assert (src ∈ uniq) as Hu by (by eapply batches_elem).
      apply Hin in Hu as (Hn & Hne & _). split; [|done].
      apply list_elem_of_fmap in Hn as (t & -> & _). apply normalize_idemp.
    - intros chunk y _ w0 Hw0 src Hsrc. apply process_chunk_keeps. by apply Hw0.
    - exists w'. split_and!; [done| |].
      + intros src Hsrc.
        rewrite <- (BatcherFacts.batches_concat max_items max_len sep uniq) in Hsrc.
        apply list_elem_of_In, in_concat in Hsrc as (chunk & Hc & Hs).
        apply (Hall chunk); by apply list_elem_of_In.
      + eapply (preserves_total (extends (store w)) (for_each _ bs) w);
          [|by unfold extends|exact E].
        apply preserves_for_each. intros chunk Hc.
        apply process_chunk_extends. intros src Hsrc.
        assert (src ∈ uniq) as Hu by (by eapply batches_elem).
        by apply Hin in Hu as (_ & _ & ? & _). }
  assert (∀ t, t ∈ texts → normalize t ≠ [] → has_key (lang, normalize t) w') as Hpost.
  { intros t Ht Hne.
    destruct (store w !! (lang, normalize t)) as [v|] eqn:Hc.
    - exists v. eapply lookup_weaken; [exact Hc|exact Hsub].
    - apply Hall, Hin. split_and!; [|done|done|set_solver].
      apply list_elem_of_fmap. by exists t. }
  destruct uniq as [|u uniq'] eqn:Hu.
  - exists w. split_and!; [done| |done].
    intros t Ht Hne.
    destruct (store w !! (lang, normalize t)) as [v|] eqn:Hc; [by exists v|].
    exfalso. eapply (not_elem_of_nil (normalize t)). apply Hin.
    split_and!; [|done|done|set_solver].
    apply list_elem_of_fmap. by exists t.
  - by exists w'.
Qed.
End Facts.
End CompleteExistingFacts.

(** ** complete_arabic_translations.py: the client and the batches *)

Module CompleteArabicFacts.
Import Shared TraceFacts RunFacts CompleteArabic.
Section Facts.
Variable net : service.

(** One turn of the retry loop. *)
Lemma ca_attempts_cons (text : str) (a : N) (range : list N)
  (w : world (gmap str str)) :
  attempts net text (a :: range) w =
  match net (nreq w) (lit "ar") text with
  | Some body =>
      if nonempty (strip body)
      then (Ok (strip body),
            World (<[text := strip body]> (store w))
                  (trace w ++ [Request (lit "ar") text]))
      else attempts net text range
             (World (store w) (trace w ++ [Request (lit "ar") text]))
  | None =>
      if a =? 2
      then (Ok text,
            World (<[text := text]> (store w))
                  ((trace w ++ [Request (lit "ar") text]) ++ [Print (warning text)]))
      else attempts net text range
             (World (store w)
                ((trace w ++ [Request (lit "ar") text]) ++ [Sleep (300 * (a + 1))]))
  end.
Proof.
  cbn [attempts].
  unfold bind at 1, try_except, bind at 1, request.
  destruct (net (nreq w) (lit "ar") text) as [body|].
  - by destruct (nonempty (strip body)).
  - by destruct (a =? 2).
Qed.

Lemma ca_attempts_total (text : str) (range : list N) :
  total (attempts net text range).
Proof.
  induction range as [|a range IH]; intros w; [by eexists _, _|].
  rewrite ca_attempts_cons.
  destruct (net (nreq w) (lit "ar") text) as [body|].
  - destruct (nonempty (strip body)); [by eexists _, _|apply IH].
  - destruct (a =? 2); [by eexists _, _|apply IH].
Qed.

Lemma ca_translate_google_total (text : str) : total (translate_google net text).
Proof.
  unfold translate_google. destruct (negb _); [apply total_ret|].
  apply total_bind; [apply total_get|]. intros cache.
  destruct (cache !! normalize text); [apply total_ret|apply ca_attempts_total].
Qed.

Lemma ca_fallback_total (chunk : list str) : total (fallback net chunk).
Proof.
  apply total_for_each. intros src.
  apply total_bind; [apply ca_translate_google_total|].
  intros _. apply total_emit.
Qed.

Lemma ca_process_chunk_total (chunk : list str) : total (process_chunk net chunk).
Proof.
  unfold process_chunk.
  apply total_bind; [|intros _; apply total_emit].
  apply total_try_except; [|apply ca_fallback_total].
  apply halts_bind; [apply halts_request|]. intros body.
  apply total_halts.
  destruct (find_parts _ _) as [parts|]; [|apply ca_fallback_total].
  destruct (_ && _); [|apply ca_fallback_total].
  apply total_for_each. intros p. apply total_modify.
Qed.

Lemma ca_batch_translate_total (texts : list str) : total (batch_translate net texts).
Proof.
  unfold batch_translate. apply total_bind; [apply total_get|]. intros cache.
  destruct (collect cache ∅ texts) as [|u uniq] eqn:E; [apply total_ret|].
  rewrite BatcherFacts.chunk_loop_all.
  apply total_for_each, ca_process_chunk_total.
Qed.
End Facts.
End CompleteArabicFacts.

(** C10. The batching loop ends on every list of phrases.  The guard of
    the inner loop lets the first phrase of a chunk through, so a pass of
    the outer loop takes at least one phrase and leaves fewer; as many
    passes as there are phrases always suffice, and [batch_translate]
    returns (it never runs out of fuel, and it lets no exception out). *)
Theorem batching_loop_terminates :
  (∀ (max_items max_len : nat) (sep x : str) (rest : list str),
     let r := Batcher.fill_chunk max_items max_len sep [] 0 (x :: rest) in
     (∃ taken, r.1 = x :: taken)
     ∧ r.1 ++ r.2 = x :: rest
     ∧ (length r.2 < length (x :: rest))%nat)
  ∧ (∀ (max_items max_len : nat) (sep : str) (uniq : list str) (extra : nat),
       Batcher.batches_fuel max_items max_len sep (length uniq + extra) uniq
       = Some (Batcher.batches max_items max_len sep uniq))
  ∧ (∀ net texts lang tr,
       ∃ out tr', BatchVisible.batch_translate net texts lang tr = (Ok out, tr'))
  ∧ (∀ net texts w,
       ∃ w', CompleteArabic.batch_translate net texts w = (Ok (), w')).
Proof.
  split_and!.
  - intros max_items max_len sep x rest. cbv zeta. split_and!.
    + destruct (BatcherFacts.fill_chunk_progress max_items max_len sep x rest)
        as (taken & H1 & _). by exists taken.
    + apply BatcherFacts.fill_chunk_whole.
    + pose proof (BatcherFacts.fill_chunk_shorter max_items max_len sep x rest).
      change (length (x :: rest)) with (S (length rest)). lia.
  - intros max_items max_len sep uniq extra.
    destruct (BatcherFacts.batches_fuel_enough max_items max_len sep uniq 0)
      as [bs Hbs].
    rewrite Nat.add_0_r in Hbs. unfold Batcher.batches. rewrite Hbs. simpl.
    by apply BatcherFacts.batches_fuel_more.
  - intros net texts lang tr. apply BatchVisibleFacts.bv_batch_translate_total.
  - intros net texts w.
    destruct (CompleteArabicFacts.ca_batch_translate_total net texts w)
      as ([] & w' & E).
    by exists w'.
Qed.

(** ** Claims about the fallback *)

(** C1. When the answer to a joined batch splits into a number of parts
    that differs from the number of phrases, nothing of that answer is
    used: the whole batch goes through the per-phrase path, and when that
    path has run every phrase of the batch is in the result mapping
    (batch_translate_visible_nodes.py) or in the cache under its own key
    (complete_existing_course_translations.py), whatever the service
    answers to the single requests. *)
Theorem split_mismatch_falls_back :
  (∀ (net : service) (lang : str) (chunk : list str)
     (w : world (gmap str str)) (body : str),
     net (nreq w) lang (join BatchVisible.sep chunk) = Some body →
     length (split (strip body) BatchVisible.sep) ≠ length chunk →
     ∃ w',
       BatchVisible.process_chunk net lang chunk w = (Ok (), w')
       ∧ (for_each (BatchVisible.fallback_one net lang) chunk ;; sleep 60)
           (World (store w) (trace w ++ [Request lang (join BatchVisible.sep chunk)]))
         = (Ok (), w')
       ∧ requests (trace w')
         = requests (trace w)
             ++ Request lang (join BatchVisible.sep chunk) :: (Request lang <$> chunk)
       ∧ ∀ src, src ∈ chunk → is_Some (store w' !! src))
  ∧
  (∀ (net : service) (lang : str) (chunk : list str)
     (w w1 : world (gmap (str * str) str)) (translated : str),
     Forall (λ src, CompleteExisting.normalize src = src ∧ src ≠ []) chunk →
     CompleteExisting.translate_google net (join CompleteExisting.sep chunk) lang w
       = (Ok translated, w1) →
     length (split translated CompleteExisting.sep) ≠ length chunk →
     ∃ w',
       CompleteExisting.process_chunk net lang chunk w = (Ok (), w')
       ∧ (for_each (CompleteExisting.fallback_one net lang) chunk ;; sleep 50) w1
         = (Ok (), w')
       ∧ ∀ src, src ∈ chunk → is_Some (store w' !! (lang, src))).
Proof.
  split.
  - intros net lang chunk w body Hnet Hlen.
    rewrite (BatchVisibleFacts.process_chunk_mismatch net lang chunk w body Hnet Hlen).
    destruct (BatchVisibleFacts.fallback_all net lang chunk
                (World (store w) (trace w ++ [Request lang (join BatchVisible.sep chunk)])))
      as (w2 & E & Hall & _ & Hreq).
    unfold bind. rewrite E.
    eexists. split_and!; [done|done| |].
    + simpl. rewrite TraceFacts.requests_snoc_sleep, Hreq. simpl.
      rewrite TraceFacts.requests_snoc_request, <- app_assoc. done.
    + intros src Hsrc. simpl. by apply Hall.
  - intros net lang chunk w w1 translated Hnorm Htr Hlen.
    destruct (CompleteExistingFacts.fallback_all_post net lang chunk w1 Hnorm)
      as (w2 & E & Hall).
    exists (World (store w2) (trace w2 ++ [Sleep 50])). split_and!.
    + unfold CompleteExisting.process_chunk, bind at 1, try_except, bind at 1.
      rewrite Htr. apply Nat.eqb_neq in Hlen. rewrite Hlen. simpl.
      unfold raise. by rewrite E.
    + unfold bind. by rewrite E.
    + intros src Hsrc. by apply Hall.
Qed.

(** ** The rewriter *)

Module RewriterFacts.
Import Shared.

(** The replacement computed for a target. *)
Definition new_text (lookup : str → str) (t : target) : str :=
  t_leading t ++ lookup (t_src t) ++ t_trailing t.

Definition is_noop (lookup : str → str) (t : target) : Prop :=
  new_text lookup t = t_str t.

Global Instance is_noop_dec lookup t : Decision (is_noop lookup t).
Proof. unfold is_noop. apply _. Defined.

Lemma replace_with_lookup (pos pos' : nat) (new : str) (doc : list node) :
  replace_with pos new doc !! pos' =
  if decide (pos = pos') then (λ n, Node (parent n) new) <$> doc !! pos'
  else doc !! pos'.
Proof.
  unfold replace_with. rewrite list_lookup_alter.
  case_decide; by subst.
Qed.

Section Apply.
Variable lookup : str → str.

Lemma apply_targets_count (targets : list target) (doc : list node) (c : nat) :
  (apply_targets lookup targets doc c).2
  = (c + length (filter (λ t, ¬ is_noop lookup t) targets))%nat.
Proof.
  revert doc c. induction targets as [|t targets IH]; intros doc c; simpl.
  - lia.
  - fold (new_text lookup t). rewrite filter_cons.
    unfold is_noop in *.
    case_bool_decide as E; case_decide as E'; rewrite IH; simpl;
      first [lia | exfalso; tauto | exfalso; apply E'; tauto].
Qed.

Lemma apply_targets_other (targets : list target) (doc : list node) (c pos : nat) :
  pos ∉ t_pos <$> targets →
  (apply_targets lookup targets doc c).1 !! pos = doc !! pos.
Proof.
  revert doc c. induction targets as [|t targets IH]; intros doc c; simpl; [done|].
  intros [Hne Hnin]%not_elem_of_cons.
  case_bool_decide; rewrite IH by done; [|done].
  rewrite replace_with_lookup. by case_decide.
Qed.

Lemma apply_targets_at (targets : list target) (doc : list node) (c : nat)
  (t : target) :
  NoDup (t_pos <$> targets) → t ∈ targets →
  (apply_targets lookup targets doc c).1 !! t_pos t =
  if decide (is_noop lookup t) then doc !! t_pos t
  else (λ n, Node (parent n) (new_text lookup t)) <$> doc !! t_pos t.
Proof.
  revert doc c. induction targets as [|u targets IH]; intros doc c Hnd Hin.
  - by apply elem_of_nil in Hin.
  - rewrite fmap_cons in Hnd. apply NoDup_cons in Hnd as [Hu Hnd].
    apply elem_of_cons in Hin as [->|Hin]; simpl.
    + clear IH. fold (new_text lookup u). unfold is_noop.
      case_bool_decide as E;
        destruct (decide (new_text lookup u = t_str u)) as [E'|E'];
        try (exfalso; tauto);
        rewrite (apply_targets_other _ _ _ _ Hu); [|done].
      rewrite replace_with_lookup. by case_decide.
    + fold (new_text lookup u).
      assert (t_pos u ≠ t_pos t) as Hne.
      { intros Heq. apply Hu. rewrite Heq. by apply list_elem_of_fmap_2. }
      case_bool_decide as E; rewrite (IH _ _ Hnd Hin); [|done].
      rewrite replace_with_lookup.
      by destruct (decide (t_pos u = t_pos t)).
Qed.

(** When every replacement is a no-op nothing at all happens. *)
Lemma apply_targets_all_noop (targets : list target) (doc : list node) (c : nat) :
  Forall (is_noop lookup) targets →
  apply_targets lookup targets doc c = (doc, c).
Proof.
  revert doc c. induction targets as [|t targets IH]; intros doc c Hall; [done|].
  inversion Hall as [|?? Ht Hall']; subst. simpl.
  fold (new_text lookup t). case_bool_decide as E; [done|]. by apply IH.
Qed.
End Apply.

(** *** The targets collected from a document *)

Section Collect.
Variable select : nat → node → option target.
Hypothesis select_pos : ∀ pos n t, select pos n = Some t → t_pos t = pos.

Lemma collect_targets_elem (doc : list node) (t : target) :
  t ∈ collect_targets select doc ↔
  ∃ n, doc !! t_pos t = Some n ∧ select (t_pos t) n = Some t.
Proof.
  unfold collect_targets. rewrite list_elem_of_omap. split.
  - intros ([pos n] & Hin & Hsel). simpl in Hsel.
    apply list_elem_of_lookup in Hin as [i Hi].
    rewrite list_lookup_imap in Hi.
    destruct (doc !! i) as [m|] eqn:Hd; simpl in Hi; [|done].
    injection Hi as <- <-.
    rewrite (select_pos _ _ _ Hsel). by exists m.
  - intros (n & Hd & Hsel). exists (t_pos t, n). split; [|done].
    apply list_elem_of_lookup. exists (t_pos t).
    rewrite list_lookup_imap. by rewrite Hd.
Qed.

Lemma collect_targets_nodup_aux (doc : list node) (k : nat) :
  NoDup (t_pos <$> omap (λ p, select p.1 p.2)
                     (imap (λ (i : nat) (n : node), ((k + i)%nat, n)) doc))
  ∧ ∀ pos, pos ∈ t_pos <$> omap (λ p, select p.1 p.2)
                     (imap (λ (i : nat) (n : node), ((k + i)%nat, n)) doc) →
           (k ≤ pos)%nat.
Proof.
  revert k. induction doc as [|n doc IH]; intros k; simpl.
  - split; [constructor|]. by intros pos ?%elem_of_nil.
  - rewrite Nat.add_0_r.
    assert (imap ((λ (i : nat) (n0 : node), ((k + i)%nat, n0)) ∘ S) doc
            = imap (λ (i : nat) (n0 : node), ((S k + i)%nat, n0)) doc) as ->.
    { apply imap_ext. intros i x _. simpl. f_equal. lia. }
    destruct (IH (S k)) as [Hnd Hge].
    destruct (select k n) as [t|] eqn:Hsel; simpl.
    + apply select_pos in Hsel. split.
      * constructor; [|done]. intros Hin%Hge. lia.
      * intros pos [->|Hin%Hge]%elem_of_cons; lia.
    + split; [done|]. intros pos Hin%Hge. lia.
Qed.

Lemma collect_targets_nodup (doc : list node) :
  NoDup (t_pos <$> collect_targets select doc).
Proof.
  unfold collect_targets.
  assert (imap pair doc
          = imap (λ (i : nat) (n : node), ((0 + i)%nat, n)) doc) as ->
    by (by apply imap_ext).
  apply collect_targets_nodup_aux.
Qed.
End Collect.

End RewriterFacts.

(** ** Selected nodes *)

Module SelectFacts.
Import Shared StrFacts.

Lemma sub_ws_in_run_blank (s : str) : lstrip s = [] → sub_ws true s = [].
Proof.
  induction s as [|c s IH]; [done|]. simpl.
  destruct (isspace c); [exact IH|done].
Qed.

Lemma blank_normalize_plain (s : str) :
  lstrip s = [] → Common.normalize_plain s = [].
Proof.
  unfold Common.normalize_plain. destruct s as [|c s]; [done|]. simpl.
  destruct (isspace c); [|done]. intros H.
  by rewrite sub_ws_in_run_blank.
Qed.

Lemma blank_replace_char (old : N) (new s : str) :
  isspace old = false → lstrip s = [] → replace_char old new s = s.
Proof.
  intros Hold. unfold replace_char.
  induction s as [|c s IH]; [done|]. simpl.
  destruct (isspace c) eqn:E; [|done]. intros H.
  destruct (N.eqb_spec c old) as [->|_]; [congruence|].
  simpl. f_equal. by apply IH.
Qed.

Lemma blank_normalize_quotes (s : str) :
  lstrip s = [] → Common.normalize_quotes s = [].
Proof.
  intros H. unfold Common.normalize_quotes.
  rewrite (blank_replace_char 8217), (blank_replace_char 8216) by done.
  by apply blank_normalize_plain.
Qed.

Section Selected.
Context `{U : Unicode}.

(** What [select] records for a node it keeps, and that such a node is
    not blank. *)
Lemma bv_select_spec (pos : nat) (n : node) (t : target) :
  BatchVisible.select pos n = Some t →
  t = Target pos (text n) (BatchVisible.normalize (text n))
        (leading_of (text n)) (trailing_of (text n))
  ∧ lstrip (text n) ≠ [].
Proof.
  unfold BatchVisible.select.
  destruct (mem _ _); [done|].
  destruct (BatchVisible.is_english_like _ 3) eqn:E; [|done]. simpl.
  destruct (_ || _); [done|]. intros [= <-]. split; [done|].
  intros Hb. unfold BatchVisible.normalize in E.
  rewrite (blank_normalize_quotes _ Hb) in E. by vm_compute in E.
Qed.

Lemma ca_select_spec (pos : nat) (n : node) (t : target) :
  CompleteArabic.select pos n = Some t →
  t = Target pos (text n) (CompleteArabic.normalize (text n))
        (leading_of (text n)) (trailing_of (text n))
  ∧ lstrip (text n) ≠ [].
Proof.
  unfold CompleteArabic.select.
  destruct (mem _ _); [done|].
  destruct (CompleteArabic.is_english_like _) eqn:E; [|done]. simpl.
  intros [= <-]. split; [done|].
  intros Hb. unfold CompleteArabic.normalize in E.
  rewrite (blank_normalize_plain _ Hb) in E. by vm_compute in E.
Qed.

Lemma ce_select_spec (skip : str → str → bool) (pos : nat) (n : node) (t : target) :
  CompleteExisting.select skip pos n = Some t →
  t = Target pos (text n) (CompleteExisting.normalize (text n))
        (leading_of (text n)) (trailing_of (text n))
  ∧ lstrip (text n) ≠ [].
Proof.
  unfold CompleteExisting.select.
  destruct (skip _ _); [done|].
  destruct (CompleteExisting.is_english_like _ 3) eqn:E; [|done]. simpl.
  intros [= <-]. split; [done|].
  intros Hb. unfold CompleteExisting.normalize in E.
  rewrite (blank_normalize_quotes _ Hb) in E. by vm_compute in E.
Qed.
End Selected.

End SelectFacts.

(** ** Claims about the rewriter *)

Module CompleteArabicRewrite.
Import Shared RewriterFacts.
Section Apply.
Variable cache : gmap str str.

(** The test of the replacement loop of complete_arabic_translations.py. *)
Definition replaced (t : target) : bool :=
  let translated := default (t_src t) (cache !! t_src t) in
  nonempty translated && bool_decide (translated ≠ t_src t).

Definition replacement (t : target) : str :=
  t_leading t ++ default (t_src t) (cache !! t_src t) ++ t_trailing t.

Lemma apply_translations_other (targets : list target) (doc : list node)
  (c pos : nat) :
  pos ∉ t_pos <$> targets →
  (CompleteArabic.apply_translations cache targets doc c).1 !! pos = doc !! pos.
Proof.
  revert doc c. induction targets as [|t targets IH]; intros doc c; [done|].
  rewrite fmap_cons. intros [Hne Hnin]%not_elem_of_cons.
  cbn [CompleteArabic.apply_translations].
  destruct (nonempty _ && _); rewrite (IH _ _ Hnin); [|done].
  rewrite replace_with_lookup. by destruct (decide (t_pos t = pos)).
Qed.

Lemma apply_translations_at (targets : list target) (doc : list node) (c : nat)
  (t : target) :
  NoDup (t_pos <$> targets) → t ∈ targets →
  (CompleteArabic.apply_translations cache targets doc c).1 !! t_pos t =
  if replaced t
  then (λ n, Node (parent n) (replacement t)) <$> doc !! t_pos t
  else doc !! t_pos t.
Proof.
  revert doc c. induction targets as [|u targets IH]; intros doc c Hnd Hin.
  - by apply elem_of_nil in Hin.
  - rewrite fmap_cons in Hnd. apply NoDup_cons in Hnd as [Hu Hnd].
    cbn [CompleteArabic.apply_translations].
    apply elem_of_cons in Hin as [->|Hin].
    + unfold replaced, replacement.
      destruct (nonempty _ && _); rewrite (apply_translations_other _ _ _ _ Hu);
        [|done].
      rewrite replace_with_lookup. by destruct (decide (t_pos u = t_pos u)).
    + assert (t_pos u ≠ t_pos t) as Hne.
      { intros Heq. apply Hu. rewrite Heq. by apply list_elem_of_fmap_2. }
      destruct (nonempty _ && _); rewrite (IH _ _ Hnd Hin); [|done].
      rewrite !replace_with_lookup. by destruct (decide (t_pos u = t_pos t)).
Qed.
End Apply.
End CompleteArabicRewrite.

(** C3. A text node selected for translation keeps its leading and
    trailing whitespace exactly.  The node is its longest whitespace
    prefix, its stripped text and its longest whitespace suffix; the
    phrase sent for translation is the normalized text of the node; and
    the node ends as that prefix, the translation of the phrase and that
    suffix.  In complete_arabic_translations.py a node whose translation
    is empty or equal to the phrase is left as it is. *)
Theorem rewriter_preserves_whitespace `{U : Unicode} :
  (∀ (doc : list node) (mapping : gmap str str) (dry_run : bool)
     (pos : nat) (n : node) (t : target),
     doc !! pos = Some n → BatchVisible.select pos n = Some t →
     let r := BatchVisible.rewrite mapping
                (Shared.collect_targets BatchVisible.select doc) doc dry_run in
     let translated := default (t_src t) (mapping !! t_src t) in
     t_src t = BatchVisible.normalize (text n)
     ∧ Shared.leading_of (text n) = ws_prefix (text n)
     ∧ Shared.trailing_of (text n) = ws_suffix (text n)
     ∧ text n = ws_prefix (text n) ++ strip (text n) ++ ws_suffix (text n)
     ∧ Shared.final_doc r !! pos
       = Some (Node (parent n)
                 (ws_prefix (text n) ++ translated ++ ws_suffix (text n))))
  ∧
  (∀ (doc : list node) (cache : gmap str str) (pos : nat) (n : node) (t : target),
     doc !! pos = Some n → CompleteArabic.select pos n = Some t →
     let doc' := (CompleteArabic.apply_translations cache
                    (Shared.collect_targets CompleteArabic.select doc) doc 0).1 in
     let translated := default (t_src t) (cache !! t_src t) in
     t_src t = CompleteArabic.normalize (text n)
     ∧ text n = ws_prefix (text n) ++ strip (text n) ++ ws_suffix (text n)
     ∧ doc' !! pos
       = Some (if Shared.nonempty translated && bool_decide (translated ≠ t_src t)
               then Node (parent n)
                      (ws_prefix (text n) ++ translated ++ ws_suffix (text n))
               else n)).
Proof.
  split.
  - intros doc mapping dry_run pos n t Hd Hsel. cbv zeta.
    destruct (SelectFacts.bv_select_spec pos n t Hsel) as [-> Hnb]. simpl.
    split_and!; [done|apply StrFacts.leading_of_ws_prefix
                |apply StrFacts.trailing_of_ws_suffix
                |by apply StrFacts.strip_decompose|].
    unfold BatchVisible.rewrite.
    set (lookup := λ src, default src (mapping !! src)).
    set (targets := Shared.collect_targets BatchVisible.select doc).
    destruct (Shared.apply_targets lookup targets doc 0) as [doc' changes] eqn:E.
    simpl.
    assert (doc' = (Shared.apply_targets lookup targets doc 0).1) as ->
      by (by rewrite E).
    set (t := Shared.Target pos (text n) (BatchVisible.normalize (text n))
                (Shared.leading_of (text n)) (Shared.trailing_of (text n))) in *.
    assert (∀ p m u, BatchVisible.select p m = Some u → Shared.t_pos u = p) as Hpos.
    { intros p m u Hu. by destruct (SelectFacts.bv_select_spec p m u Hu) as [-> _]. }
    pose proof (RewriterFacts.apply_targets_at lookup targets doc 0 t
                  (RewriterFacts.collect_targets_nodup _ Hpos doc)) as Hat.
    change (Shared.t_pos t) with pos in Hat. rewrite Hat.
    + rewrite Hd. case_decide as En.
      * unfold RewriterFacts.is_noop, RewriterFacts.new_text, lookup in En.
        simpl in En.
        rewrite <- (StrFacts.leading_of_ws_prefix (text n)),
          <- (StrFacts.trailing_of_ws_suffix (text n)), En.
        by destruct n.
      * unfold RewriterFacts.new_text, lookup. simpl.
        by rewrite (StrFacts.leading_of_ws_prefix (text n)),
          (StrFacts.trailing_of_ws_suffix (text n)).
    + apply (RewriterFacts.collect_targets_elem _ Hpos). by exists n.
  - intros doc cache pos n t Hd Hsel. cbv zeta.
    destruct (SelectFacts.ca_select_spec pos n t Hsel) as [-> Hnb]. simpl.
    split_and!; [done|by apply StrFacts.strip_decompose|].
    set (targets := Shared.collect_targets CompleteArabic.select doc).
    set (t := Shared.Target pos (text n) (CompleteArabic.normalize (text n))
                (Shared.leading_of (text n)) (Shared.trailing_of (text n))) in *.
    assert (∀ p m u, CompleteArabic.select p m = Some u → Shared.t_pos u = p) as Hpos.
    { intros p m u Hu. by destruct (SelectFacts.ca_select_spec p m u Hu) as [-> _]. }
    pose proof (CompleteArabicRewrite.apply_translations_at cache targets doc 0 t
                  (RewriterFacts.collect_targets_nodup _ Hpos doc)) as Hat.
    change (Shared.t_pos t) with pos in Hat. rewrite Hat.
    + rewrite Hd. unfold CompleteArabicRewrite.replaced,
        CompleteArabicRewrite.replacement. simpl.
      rewrite (StrFacts.leading_of_ws_prefix (text n)),
        (StrFacts.trailing_of_ws_suffix (text n)).
      by destruct (Shared.nonempty _ && _).
    + apply (RewriterFacts.collect_targets_elem _ Hpos). by exists n.
Qed.

(** C7. A replacement that equals the text of the node is not made and
    not counted: the change count is the number of targets whose
    replacement differs from the node, and a target whose replacement
    equals the node leaves its node as it was.  Hence, when every
    replacement is such a no-op the change count is zero, the document is
    unchanged and nothing is written back (for
    complete_existing_course_translations.py the file is written on the
    sum of the counts of its three passes, so this needs the other two
    passes to report no change as well). *)
Theorem noop_replacement_not_counted :
  (∀ (lookup : str → str) (targets : list target) (doc : list node),
     (apply_targets lookup targets doc 0).2
     = length (filter (λ t, t_leading t ++ lookup (t_src t) ++ t_trailing t
                            ≠ t_str t) targets)
     ∧ (NoDup (t_pos <$> targets) →
        ∀ t, t ∈ targets →
             t_leading t ++ lookup (t_src t) ++ t_trailing t = t_str t →
             (apply_targets lookup targets doc 0).1 !! t_pos t = doc !! t_pos t))
  ∧ (∀ (mapping : gmap str str) (targets : list target) (doc : list node)
       (dry_run : bool),
       Forall (λ t, t_leading t ++ default (t_src t) (mapping !! t_src t)
                    ++ t_trailing t = t_str t) targets →
       BatchVisible.rewrite mapping targets doc dry_run = Processed 0 doc None)
  ∧ (∀ (lang : str) (cache : gmap (str * str) str) (targets : list target)
       (doc : list node) (dry_run : bool),
       Forall (λ t, t_leading t ++ default (t_src t) (cache !! (lang, t_src t))
                    ++ t_trailing t = t_str t) targets →
       SyncSource.rewrite lang cache targets doc dry_run = Processed 0 doc None)
  ∧ (∀ (lang : str) (cache : gmap (str * str) str) (targets : list target)
       (doc : list node) (dry_run guard_blocks : bool),
       Forall (λ t, t_leading t ++ default (t_src t) (cache !! (lang, t_src t))
                    ++ t_trailing t = t_str t) targets →
       CompleteExisting.rewrite lang cache targets doc = (doc, 0%nat)
       ∧ CompleteExisting.writes_file
           (CompleteExisting.rewrite lang cache targets doc).2 0 0
           dry_run guard_blocks = false).
Proof.
  split_and!.
  - intros lookup targets doc. split.
    + rewrite RewriterFacts.apply_targets_count. simpl.
      unfold RewriterFacts.is_noop, RewriterFacts.new_text. f_equal.
    + intros Hnd t Hin Hnoop.
      rewrite (RewriterFacts.apply_targets_at lookup targets doc 0 t Hnd Hin).
      by case_decide.
  - intros mapping targets doc dry_run Hall. unfold BatchVisible.rewrite.
    by rewrite RewriterFacts.apply_targets_all_noop.
  - intros lang cache targets doc dry_run Hall. unfold SyncSource.rewrite.
    by rewrite RewriterFacts.apply_targets_all_noop.
  - intros lang cache targets doc dry_run guard_blocks Hall.
    unfold CompleteExisting.rewrite.
    by rewrite RewriterFacts.apply_targets_all_noop.
Qed.

(** ** Retries *)

Module RetryFacts.
Import TraceFacts RunFacts ClientFacts.

Ltac count_requests :=
  unfold nreq in *; simpl;
  rewrite ?requests_snoc_sleep, ?requests_snoc_print, ?requests_snoc_request,
    ?length_app;
  simpl; try lia.

Section Facts.
Variable net : service.

(** The events of [n] failed attempts in a row. *)
Definition failed_attempts (backoff : N) (lang text : str) (range : list N)
  : list event :=
  a ← range; [Request lang text; Sleep (backoff * (a + 1))].

Lemma attempts_raising_all_fail (backoff : N) (text lang : str) (range : list N)
  (w : world (gmap (str * str) str)) :
  (∀ i, (i < length range)%nat → net (nreq w + i)%nat lang text = None) →
  attempts_raising net backoff text lang range w
  = (Raise, World (store w) (trace w ++ failed_attempts backoff lang text range)).
Proof.
  revert w. induction range as [|a range IH]; intros w Hfail.
  - simpl. unfold raise. rewrite app_nil_r. by destruct w.
  - rewrite attempts_raising_cons.
    rewrite <- (Nat.add_0_r (nreq w)), Hfail by (simpl; lia).
    rewrite IH.
    + simpl. by rewrite <- !app_assoc.
    + intros i Hi. rewrite nreq_after_request_sleep.
      replace (S (nreq w) + i)%nat with (nreq w + S i)%nat by lia.
      apply Hfail. simpl. lia.
Qed.

(** Whatever the service does, the loop makes at most one request per
    element of its range. *)
Lemma attempts_raising_bound (backoff : N) (text lang : str) (range : list N)
  (w : world (gmap (str * str) str)) :
  (nreq (attempts_raising net backoff text lang range w).2
   ≤ nreq w + length range)%nat.
Proof.
  revert w. induction range as [|a range IH]; intros w.
  - simpl. lia.
  - rewrite attempts_raising_cons.
    destruct (net (nreq w) lang text) as [body|].
    + destruct (nonempty (strip body)).
      * count_requests.
      * etrans; [apply IH|]. count_requests.
    + etrans; [apply IH|]. count_requests.
Qed.

Lemma translate_google_raising_bound (normalize : str → str) (range : list N)
  (backoff : N) (text lang : str) (w : world (gmap (str * str) str)) :
  (nreq (translate_google_raising net normalize range backoff text lang w).2
   ≤ nreq w + length range)%nat.
Proof.
  unfold translate_google_raising. destruct (negb _); [simpl; lia|].
  unfold bind, get. destruct (store w !! _); [simpl; lia|].
  apply attempts_raising_bound.
Qed.

Lemma translate_google_raising_all_fail (normalize : str → str) (range : list N)
  (backoff : N) (text lang : str) (w : world (gmap (str * str) str)) :
  normalize text = text → text ≠ [] → store w !! (lang, text) = None →
  (∀ i, (i < length range)%nat → net (nreq w + i)%nat lang text = None) →
  translate_google_raising net normalize range backoff text lang w
  = (Raise, World (store w) (trace w ++ failed_attempts backoff lang text range)).
Proof.
  intros Hn Hne Hc Hfail. unfold translate_google_raising. rewrite Hn.
  destruct text as [|c t]; [done|].
  change (negb (nonempty (c :: t))) with false.
  unfold bind, get. cbv beta iota. rewrite Hc.
  by apply attempts_raising_all_fail.
Qed.

(** complete_arabic_translations.py *)
Lemma ca_attempts_bound (text : str) (range : list N) (w : world (gmap str str)) :
  (nreq (CompleteArabic.attempts net text range w).2 ≤ nreq w + length range)%nat.
Proof.
  revert w. induction range as [|a range IH]; intros w.
  - simpl. lia.
  - rewrite CompleteArabicFacts.ca_attempts_cons.
    destruct (net (nreq w) (lit "ar") text) as [body|].
    + destruct (nonempty (strip body)).
      * count_requests.
      * etrans; [apply IH|]. count_requests.
    + destruct (a =? 2).
      * count_requests.
      * etrans; [apply IH|]. count_requests.
Qed.

Lemma ca_translate_google_all_fail (text : str) (w : world (gmap str str)) :
  CompleteArabic.normalize text = text → text ≠ [] → store w !! text = None →
  (∀ i, (i < 3)%nat → net (nreq w + i)%nat (lit "ar") text = None) →
  CompleteArabic.translate_google net text w
  = (Ok text,
     World (<[text := text]> (store w))
       (trace w ++ [Request (lit "ar") text; Sleep 300;
                    Request (lit "ar") text; Sleep 600;
                    Request (lit "ar") text;
                    Print (CompleteArabic.warning text)])).
Proof.
  intros Hn Hne Hc Hfail. unfold CompleteArabic.translate_google. rewrite Hn.
  destruct text as [|c t]; [done|].
  change (negb (nonempty (c :: t))) with false.
  unfold bind, get. cbv beta iota. rewrite Hc.
  rewrite CompleteArabicFacts.ca_attempts_cons.
  rewrite <- (Nat.add_0_r (nreq w)), Hfail by lia. simpl (0 =? 2).
  cbv iota.
  rewrite CompleteArabicFacts.ca_attempts_cons, nreq_after_request_sleep.
  rewrite <- (Nat.add_1_r (nreq w)), Hfail by lia. simpl (1 =? 2).
  cbv iota.
  rewrite CompleteArabicFacts.ca_attempts_cons, nreq_after_request_sleep.
  rewrite nreq_after_request_sleep.
  replace (S (S (nreq w))) with (nreq w + 2)%nat by lia.
  rewrite Hfail by lia. simpl (2 =? 2). cbv iota. simpl.
  by rewrite <- !app_assoc.
Qed.
End Facts.
End RetryFacts.

(** C8. The phrase-level client tries a request at most three times (four
    in translate_index_cards.py), whatever the service does.  When every
    attempt fails, the raising variant has slept 0.25 s, 0.5 s and 0.75 s
    (0.4 s to 1.6 s) after its attempts and raises, leaving the cache as
    it was, so that the batch caller falls back; the last-resort variant
    has slept 0.3 s and 0.6 s between its attempts, prints a warning,
    stores the phrase itself in the cache and returns it unchanged.  A
    phrase is a normalized, non-empty string that is not yet cached. *)
Theorem client_retries_then_gives_up :
  (∀ (net : service) (text lang : str) (w : world (gmap (str * str) str)),
     (nreq (CompleteExisting.translate_google net text lang w).2 ≤ nreq w + 3)%nat
     ∧ (nreq (IndexCards.translate_google net text lang w).2 ≤ nreq w + 4)%nat)
  ∧ (∀ (net : service) (text : str) (w : world (gmap str str)),
       (nreq (CompleteArabic.translate_google net text w).2 ≤ nreq w + 3)%nat)
  ∧ (∀ (net : service) (text lang : str) (w : world (gmap (str * str) str)),
       CompleteExisting.normalize text = text → text ≠ [] →
       store w !! (lang, text) = None →
       (∀ i, (i < 3)%nat → net (nreq w + i)%nat lang text = None) →
       CompleteExisting.translate_google net text lang w
       = (Raise,
          World (store w)
            (trace w ++ [Request lang text; Sleep 250;
                         Request lang text; Sleep 500;
                         Request lang text; Sleep 750])))
  ∧ (∀ (net : service) (text lang : str) (w : world (gmap (str * str) str)),
       IndexCards.normalize text = text → text ≠ [] →
       store w !! (lang, text) = None →
       (∀ i, (i < 4)%nat → net (nreq w + i)%nat lang text = None) →
       IndexCards.translate_google net text lang w
       = (Raise,
          World (store w)
            (trace w ++ [Request lang text; Sleep 400;
                         Request lang text; Sleep 800;
                         Request lang text; Sleep 1200;
                         Request lang text; Sleep 1600])))
  ∧ (∀ (net : service) (text : str) (w : world (gmap str str)),
       CompleteArabic.normalize text = text → text ≠ [] →
       store w !! text = None →
       (∀ i, (i < 3)%nat → net (nreq w + i)%nat (lit "ar") text = None) →
       CompleteArabic.translate_google net text w
       = (Ok text,
          World (<[text := text]> (store w))
            (trace w ++ [Request (lit "ar") text; Sleep 300;
                         Request (lit "ar") text; Sleep 600;
                         Request (lit "ar") text;
                         Print (CompleteArabic.warning text)]))).
Proof.
  split_and!.
  - intros net text lang w. split.
    + apply (RetryFacts.translate_google_raising_bound net _ [0; 1; 2]).
    + apply (RetryFacts.translate_google_raising_bound net _ [0; 1; 2; 3]).
  - intros net text w. unfold CompleteArabic.translate_google.
    destruct (negb _); [simpl; lia|]. unfold bind, get.
    destruct (store w !! _); [simpl; lia|].
    apply (RetryFacts.ca_attempts_bound net _ [0; 1; 2]).
  - intros net text lang w Hn Hne Hc Hfail.
    apply (RetryFacts.translate_google_raising_all_fail net _ [0; 1; 2]
             250 text lang w Hn Hne Hc Hfail).
  - intros net text lang w Hn Hne Hc Hfail.
    apply (RetryFacts.translate_google_raising_all_fail net _ [0; 1; 2; 3]
             400 text lang w Hn Hne Hc Hfail).
  - intros net text w. apply RetryFacts.ca_translate_google_all_fail.
Qed.

(** ** Claims about the classifiers *)

(** C5 (as amended).  The phrase ["nextSlide"] is classified not
    translatable by the classifiers that ask for a minimum length, a
    minimum number of words or a function-word hit
    (batch_translate_visible_nodes.py, complete_existing_course_translations.py
    for every [min_words], audit_arabic_gaps.py) and by
    [is_translatable_js_string], which excludes camelCase identifiers.
    The classifier of complete_arabic_translations.py asks for ASCII
    letters only and that of sync_translate_from_source.py keeps one-word
    terms of four letters or more: both classify it translatable. *)
Theorem nextSlide_classification `{U : Unicode} :
  (∀ min_words, BatchVisible.is_english_like (lit "nextSlide") min_words = false)
  ∧ (∀ min_words, CompleteExisting.is_english_like (lit "nextSlide") min_words = false)
  ∧ AuditGaps.is_english_like (lit "nextSlide") = false
  ∧ FixArabicJs.is_translatable_js_string (lit "nextSlide") = false
  ∧ CompleteArabic.is_english_like (lit "nextSlide") = true
  ∧ SyncSource.is_english_source_text (lit "nextSlide") = true.
Proof.
  split_and!.
  - intros min_words. by vm_compute.
  - intros min_words. unfold CompleteExisting.is_english_like.
    destruct (_ <? 8)%nat; [done|].
    destruct (_ <? min_words)%nat; [done|]. by vm_compute.
  - by vm_compute.
  - by vm_compute.
  - by vm_compute.
  - by vm_compute.
Qed.

(** The classifier of complete_arabic_translations.py on ["nextSlide"]: the
    input on which claim C5 fails as it was stated. *)
Lemma nextSlide_translatable_in_arabic_script :
  @CompleteArabic.is_english_like latin1_tables (lit "nextSlide") = true.
Proof. by vm_compute. Qed.

(** *** Classifier calls *)

Module CallFacts.
Import ClassifierCalls.




(** By contrast a request, the step every translation client is built
    on, is not pure: it always adds an event to the trace. *)
Lemma request_is_not_pure {C} (net : service) (lang text v : str)
    (w : world C) :
  ¬ pure_call (request (C := C) net lang text) v.
Proof.
  intros [H _]. specialize (H w). unfold request in H.
  destruct (net (nreq w) lang text); [|done].
  injection H as _ H. apply (f_equal trace) in H. simpl in H.
  apply (f_equal length) in H. rewrite length_app in H. simpl in H. lia.
Qed.


Section Calls.
Context `{U : Unicode} {C : Type}.







End Calls.
End CallFacts.


(** ** The escaping of script literals *)

(** C4 (the code departs from the claim).  [escape_js_literal] doubles the
    backslash and escapes the quote of the literal, but a newline in the
    translated text goes through as it is, so the rebuilt literal holds a
    raw line break; [escape_js] of fix_arabic_js_strings.py, written for
    the same purpose, turns it into a backslash and an [n]. *)
Theorem escape_js_literal_leaves_newline :
  CompleteExisting.escape_js_literal (lit "it's a\b") (lit "'")
    = lit "it\'s a\\b"
  ∧ CompleteExisting.escape_js_literal [97; 34; 98] [34] = [97; 92; 34; 98]
  ∧ CompleteExisting.escape_js_literal (lit "Bien" ++ [10] ++ lit "fait") (lit "'")
    = lit "Bien" ++ [10] ++ lit "fait"
  ∧ CompleteExisting.new_literal (lit "Bien" ++ [10] ++ lit "fait") (lit "'")
    = lit "'Bien" ++ [10] ++ lit "fait'"
  ∧ FixArabicJs.escape_js (lit "Bien" ++ [10] ++ lit "fait") (lit "'")
    = lit "Bien\nfait".
Proof. by vm_compute. Qed.

(** ** The cache and the requests *)

Module CacheFacts.
Import TraceFacts RunFacts ClientFacts.

(** The [i]-th request of the trace asked for [text] in [lang], and the
    service answered it with a non-empty translation. *)
Definition translated_at (net : service) (tr : list event) (i : nat)
  (lang text : str) : Prop :=
  requests tr !! i = Some (Request lang text)
  ∧ ∃ body, net i lang text = Some body ∧ strip body ≠ [].

(** Every text that a request has translated is in the cache. *)
Definition covered (net : service) (w : world (gmap (str * str) str)) : Prop :=
  ∀ i lang text, translated_at net (trace w) i lang text →
                 is_Some (store w !! (lang, text)).

(** No request asks for a text that an earlier request has translated. *)
Definition no_repeat (net : service) (tr : list event) : Prop :=
  ∀ i j lang text, (i < j)%nat → translated_at net tr i lang text →
                   requests tr !! j ≠ Some (Request lang text).

Definition memoized (net : service) (w : world (gmap (str * str) str)) : Prop :=
  covered net w ∧ no_repeat net (trace w).

Lemma memoized_start (net : service) (cache : gmap (str * str) str) :
  memoized net (World cache []).
Proof. split; intros i; intros; by destruct H as [? _] || by destruct H0 as [? _]. Qed.

Section Facts.
Variable net : service.

Lemma memoized_insert (k : str * str) (v : str) (w : world (gmap (str * str) str)) :
  memoized net w → memoized net (World (<[k := v]> (store w)) (trace w)).
Proof.
  intros [Hc Hn]. split; [|done]. intros i lang text Ht. simpl.
  rewrite lookup_insert. case_decide; [done|]. by apply (Hc i).
Qed.

Lemma memoized_silent (e : event) (w : world (gmap (str * str) str)) :
  is_request e = false →
  memoized net w → memoized net (World (store w) (trace w ++ [e])).
Proof.
  intros He [Hc Hn].
  assert (requests (trace w ++ [e]) = requests (trace w)) as Hr.
  { rewrite requests_app. unfold requests at 2. rewrite filter_cons.
    rewrite He. rewrite decide_False by done. apply app_nil_r. }
  split.
  - intros i lang text [Hi Hb]. simpl in *. rewrite Hr in Hi.
    by apply (Hc i).
  - intros i j lang text Hij [Hi Hb]. simpl in *. rewrite Hr in *.
    by apply (Hn i j).
Qed.

(** A request for a key that is absent keeps the trace free of repeats;
    the cache covers it again once the answer is stored or turns out
    not to be a translation. *)
Lemma no_repeat_request (lang text : str) (w : world (gmap (str * str) str)) :
  memoized net w → store w !! (lang, text) = None →
  no_repeat net (trace w ++ [Request lang text])
  ∧ ∀ i lg tx, translated_at net (trace w ++ [Request lang text]) i lg tx →
               (translated_at net (trace w) i lg tx)
               ∨ (i = nreq w ∧ lg = lang ∧ tx = text
                  ∧ ∃ body, net (nreq w) lang text = Some body ∧ strip body ≠ []).
Proof.
  intros [Hc Hn] Hnone.
  assert (∀ i e, requests (trace w ++ [Request lang text]) !! i = Some e →
                 requests (trace w) !! i = Some e
                 ∨ (i = nreq w ∧ e = Request lang text)) as Hsplit.
  { intros i e. rewrite requests_snoc_request.
    intros [?|[Hlen Hi]]%lookup_app_Some; [by left|right].
    destruct (i - length (requests (trace w)))%nat as [|k] eqn:Hk;
      simpl in Hi; [|done].
    injection Hi as <-. unfold nreq. split; [lia|done]. }
  assert (∀ i lg tx, translated_at net (trace w ++ [Request lang text]) i lg tx →
            translated_at net (trace w) i lg tx
            ∨ (i = nreq w ∧ lg = lang ∧ tx = text
               ∧ ∃ body, net (nreq w) lang text = Some body ∧ strip body ≠ []))
    as Hold.
  { intros i lg tx [Hi Hb]. apply Hsplit in Hi as [Hi|[-> [= -> ->]]].
    - left. by split.
    - right. by split_and!. }
  split; [|exact Hold].
  intros i j lg tx Hij Ht Hj.
  apply Hsplit in Hj as [Hj|[-> [= -> ->]]].
  - apply Hold in Ht as [Ht|(-> & _)].
    + by apply (Hn i j lg tx).
    + apply lookup_lt_Some in Hj. unfold nreq in Hij. lia.
  - apply Hold in Ht as [Ht|(-> & _)]; [|lia].
    apply (Hc i) in Ht. rewrite Hnone in Ht. by destruct Ht.
Qed.

Lemma attempts_memoized (backoff : N) (text lang : str) (range : list N)
  (w : world (gmap (str * str) str)) :
  memoized net w → store w !! (lang, text) = None →
  memoized net (attempts_raising net backoff text lang range w).2.
Proof.
  revert w. induction range as [|a range IH]; intros w Hm Hnone; [done|].
  rewrite attempts_raising_cons.
  destruct (no_repeat_request lang text w Hm Hnone) as [Hnr Hold].
  destruct Hm as [Hc Hn].
  destruct (net (nreq w) lang text) as [body|] eqn:Hnet.
  - destruct (nonempty (strip body)) eqn:Hne.
    + simpl. split; [|done]. intros i lg tx Ht. simpl in *.
      apply Hold in Ht as [Ht|(_ & -> & -> & _)].
      * rewrite lookup_insert. case_decide; [done|]. by apply (Hc i).
      * rewrite lookup_insert_eq. by eexists.
    + apply IH; [|done]. split; [|done]. intros i lg tx Ht. simpl in *.
      apply Hold in Ht as [Ht|(_ & _ & _ & b & Hb & Hs)]; [by apply (Hc i)|].
      injection Hb as <-. by destruct (strip body).
  - apply IH; [|done].
    apply (memoized_silent (Sleep _) (World (store w) (trace w ++ [_])));
      [done|].
    split; [|done]. intros i lg tx Ht. simpl in *.
    apply Hold in Ht as [Ht|(_ & _ & _ & b & Hb & _)]; [by apply (Hc i)|done].
Qed.

Lemma translate_google_memoized (normalize : str → str) (range : list N)
  (backoff : N) (text lang : str) :
  preserves (memoized net)
    (translate_google_raising net normalize range backoff text lang).
Proof.
  intros w Hm. unfold translate_google_raising.
  destruct (negb _); [done|]. unfold bind, get. cbv beta iota.
  destruct (store w !! (lang, normalize text)) eqn:Hc; [done|].
  by apply attempts_memoized.
Qed.

Lemma process_chunk_memoized (lang : str) (chunk : list str) :
  preserves (memoized net) (CompleteExisting.process_chunk net lang chunk).
Proof.
  unfold CompleteExisting.process_chunk.
  apply preserves_bind;
    [|intros _; apply preserves_emit; intros w; by apply memoized_silent].
  apply preserves_try_except.
  - apply preserves_bind; [apply translate_google_memoized|]. intros translated.
    destruct (negb _); [apply preserves_raise|].
    apply preserves_for_each. intros p _.
    apply preserves_modify. intros w. apply memoized_insert.
  - apply preserves_for_each. intros src _.
    unfold CompleteExisting.fallback_one. apply preserves_bind.
    + apply preserves_try_except.
      * apply preserves_bind; [apply translate_google_memoized|].
        intros _. apply preserves_ret.
      * apply preserves_modify. intros w. apply memoized_insert.
    + intros _. apply preserves_emit. intros w. by apply memoized_silent.
Qed.

Lemma batch_translate_texts_memoized (texts : list str) (lang : str) :
  preserves (memoized net) (CompleteExisting.batch_translate_texts net texts lang).
Proof.
  unfold CompleteExisting.batch_translate_texts.
  apply preserves_bind; [apply preserves_get|]. intros cache.
  destruct (CompleteExisting.collect lang cache ∅ texts) eqn:E;
    [apply preserves_ret|].
  rewrite BatcherFacts.chunk_loop_all.
  apply preserves_for_each. intros chunk _. apply process_chunk_memoized.
Qed.
End Facts.
End CacheFacts.

(** ** A joined text that is also a phrase *)

Module ReassignFacts.
Import TraceFacts RunFacts ClientFacts CompleteExisting.
Section Scenario.
Variable net : service.
Variable lang : str.

(** A first request for a phrase that is answered with a translation. *)
Lemma translate_google_fresh (text body : str) (w : world (gmap (str * str) str)) :
  normalize text = text → text ≠ [] → store w !! (lang, text) = None →
  net (nreq w) lang text = Some body → strip body ≠ [] →
  translate_google net text lang w
  = (Ok (strip body),
     World (<[(lang, text) := strip body]> (store w))
           (trace w ++ [Request lang text])).
Proof.
  intros Hn Hne Hc Hnet Hb.
  unfold translate_google, translate_google_raising. rewrite Hn.
  destruct text as [|ch t]; [done|].
  change (negb (nonempty (ch :: t))) with false.
  unfold bind, get. cbv beta iota. rewrite Hc.
  rewrite attempts_raising_cons, Hnet.
  by destruct (strip body).
Qed.

(** A chunk of two phrases whose joined answer has two parts. *)
Lemma process_pair_of_phrases (x y body p q : str)
  (w : world (gmap (str * str) str)) :
  normalize (join sep [x; y]) = join sep [x; y] →
  store w !! (lang, join sep [x; y]) = None →
  net (nreq w) lang (join sep [x; y]) = Some body → strip body ≠ [] →
  split (strip body) sep = [p; q] → strip p ≠ [] → strip q ≠ [] →
  process_chunk net lang [x; y] w
  = (Ok (),
     World (<[(lang, y) := strip q]>
              (<[(lang, x) := strip p]>
                 (<[(lang, join sep [x; y]) := strip body]> (store w))))
           ((trace w ++ [Request lang (join sep [x; y])]) ++ [Sleep 50])).
Proof.
  intros Hn Hc Hnet Hb Hsplit Hp Hq.
  unfold process_chunk, bind at 1, try_except, bind at 1.
  rewrite (translate_google_fresh _ body w Hn); [|by destruct x|done..].
  rewrite Hsplit. simpl.
  unfold bind, modify, sleep, emit. simpl.
  by destruct (strip p), (strip q).
Qed.

(** The run on four phrases [a], [b], [j], [c] that are batched two by
    two, where [j] is the joined text of the first batch: the entry of
    [j] is written by the first batch and again by the second. *)
Lemma joined_text_reassigned (a b j c body1 body2 p1 q1 p2 q2 : str)
  (cache : gmap (str * str) str) :
  j = join sep [a; b] →
  collect lang cache ∅ [a; b; j; c] = [a; b; j; c] →
  Batcher.batches max_items max_len sep [a; b; j; c] = [[a; b]; [j; c]] →
  normalize j = j → normalize (join sep [j; c]) = join sep [j; c] →
  cache !! (lang, j) = None → cache !! (lang, join sep [j; c]) = None →
  a ≠ j → b ≠ j → c ≠ j →
  join sep [j; c] ≠ j → join sep [j; c] ≠ a → join sep [j; c] ≠ b →
  net 0%nat lang j = Some body1 → strip body1 ≠ [] →
  split (strip body1) sep = [p1; q1] → strip p1 ≠ [] → strip q1 ≠ [] →
  net 1%nat lang (join sep [j; c]) = Some body2 → strip body2 ≠ [] →
  split (strip body2) sep = [p2; q2] → strip p2 ≠ [] → strip q2 ≠ [] →
  ∃ w1 w2,
    process_chunk net lang [a; b] (World cache []) = (Ok (), w1)
    ∧ store w1 !! (lang, j) = Some (strip body1)
    ∧ batch_translate_texts net [a; b; j; c] lang (World cache []) = (Ok (), w2)
    ∧ store w2 !! (lang, j) = Some (strip p2).
Proof.
  intros Hj Hcollect Hbatches Hnj Hnjc Hcj Hcjc Haj Hbj Hcne Hjcj Hjca Hjcb
    Hnet1 Hb1 Hs1 Hp1 Hq1 Hnet2 Hb2 Hs2 Hp2 Hq2.
  assert (process_chunk net lang [a; b] (World cache [])
          = (Ok (),
             World (<[(lang, b) := strip q1]>
                      (<[(lang, a) := strip p1]>
                         (<[(lang, j) := strip body1]> cache)))
                   [Request lang j; Sleep 50])) as E1.
  { rewrite (process_pair_of_phrases a b body1 p1 q1); rewrite <- ?Hj; try done. }
  set (w1 := World (<[(lang, b) := strip q1]>
                      (<[(lang, a) := strip p1]>
                         (<[(lang, j) := strip body1]> cache)))
                   [Request lang j; Sleep 50]) in *.
  assert (store w1 !! (lang, join sep [j; c]) = None) as Hlook.
  { unfold w1. simpl store. by rewrite !lookup_insert_ne by congruence. }
  assert (net (nreq w1) lang (join sep [j; c]) = Some body2) as Hnet2'
    by exact Hnet2.
  pose proof (process_pair_of_phrases j c body2 p2 q2 w1
                Hnjc Hlook Hnet2' Hb2 Hs2 Hp2 Hq2) as E2.
  eexists _, _. split; [exact E1|]. split.
  { unfold w1. simpl store.
    rewrite !lookup_insert_ne by congruence. apply lookup_insert_eq. }
  split.
  - unfold batch_translate_texts, bind at 1, get. cbv beta iota.
    change (store {| store := cache; trace := [] |}) with cache.
    rewrite Hcollect.
    rewrite (BatcherFacts.chunk_loop_all max_items max_len sep
               (process_chunk net lang) [a; b; j; c]).
    rewrite Hbatches. cbn [for_each]. unfold bind at 1. rewrite E1.
    unfold bind at 1. rewrite E2. reflexivity.
  - simpl store. rewrite lookup_insert_ne by congruence. apply lookup_insert_eq.
Qed.
End Scenario.

(** Phrases that are new, normalized and distinct are all kept by the
    first loop of [batch_translate_texts], in their order. *)
Lemma collect_fresh (lang : str) (cache : gmap (str * str) str)
  (seen : gset str) (texts : list str) :
  Forall (λ t, normalize t = t ∧ t ≠ [] ∧ cache !! (lang, t) = None ∧ t ∉ seen) texts →
  NoDup texts →
  collect lang cache seen texts = texts.
Proof.
  revert seen. induction texts as [|t texts IH]; intros seen Hall Hnd; [done|].
  inversion Hall as [|?? (Hn & Hne & Hc & Hs) Hall']; subst.
  apply NoDup_cons in Hnd as [Ht Hnd].
  cbn [collect]. rewrite Hn.
  destruct t as [|ch t]; [done|]. change (negb (nonempty (ch :: t))) with false.
  cbv iota. rewrite Hc.
  rewrite bool_decide_eq_false_2 by (by intros [? ?]).
  rewrite bool_decide_eq_false_2 by done.
  f_equal. apply IH; [|done].
  rewrite Forall_forall in Hall'. apply Forall_forall. intros u Hu.
  destruct (Hall' u Hu) as (? & ? & ? & ?). split_and!; [done..|].
  set_solver.
Qed.
End ReassignFacts.

(** ** Claims about the cache *)

(** C6 (as amended).  The cache, keyed by target language and normalized
    phrase, is consulted before any request: a call for a cached phrase
    returns the cached value and does nothing else.  It grows
    monotonically across calls: every entry present when
    [translate_google] or [batch_translate_texts] is called is present
    with the same value when the call ends.  A request is only made for a
    key that is absent, so, starting from an empty trace, no text is
    requested again once a request for it has been answered with a
    translation.  (Within one call of [batch_translate_texts] the entry
    stored for the joined text of a batch is not protected in the same
    way: see [joined_entry_reassigned].) *)
Theorem cache_grows_across_calls :
  (∀ (net : service) (text lang cached : str) (w : world (gmap (str * str) str)),
     store w !! (lang, CompleteExisting.normalize text) = Some cached →
     CompleteExisting.normalize text ≠ [] →
     CompleteExisting.translate_google net text lang w = (Ok cached, w))
  ∧ (∀ (net : service) (text lang : str) (w : world (gmap (str * str) str)),
       store w ⊆ store (CompleteExisting.translate_google net text lang w).2)
  ∧ (∀ (net : service) (texts : list str) (lang : str)
       (w : world (gmap (str * str) str)),
       ∃ w', CompleteExisting.batch_translate_texts net texts lang w = (Ok (), w')
             ∧ store w ⊆ store w'
             ∧ ∀ t, t ∈ texts → CompleteExisting.normalize t ≠ [] →
                    is_Some (store w' !! (lang, CompleteExisting.normalize t)))
  ∧ (∀ (net : service) (cache : gmap (str * str) str),
       CacheFacts.memoized net (World cache []))
  ∧ (∀ (net : service) (text lang : str) (w : world (gmap (str * str) str)),
       CacheFacts.memoized net w →
       CacheFacts.memoized net (CompleteExisting.translate_google net text lang w).2)
  ∧ (∀ (net : service) (texts : list str) (lang : str)
       (w : world (gmap (str * str) str)),
       CacheFacts.memoized net w →
       CacheFacts.memoized net
         (CompleteExisting.batch_translate_texts net texts lang w).2).
Proof.
  split_and!.
  - intros net text lang cached w Hc Hne.
    by apply ClientFacts.translate_google_cached.
  - intros net text lang w. apply ClientFacts.translate_google_grows.
  - intros net texts lang w.
    destruct (CompleteExistingFacts.batch_translate_texts_post net texts lang w)
      as (w' & E & Hall & Hsub).
    exists w'. split_and!; [done|done|]. intros t Ht Hne. by apply Hall.
  - intros net cache. apply CacheFacts.memoized_start.
  - intros net text lang w. apply CacheFacts.translate_google_memoized.
  - intros net texts lang w. apply CacheFacts.batch_translate_texts_memoized.
Qed.

(** The input on which claim C6 fails as it was stated: the joined text of
    the first batch is also a phrase of the second one.  The answer to the
    first batch is stored under that text; the answer to the second batch
    has two parts, and its first part replaces the stored value. *)
Lemma joined_entry_reassigned :
  Batcher.batches CompleteExisting.max_items CompleteExisting.max_len
    CompleteExisting.sep
    (CompleteExisting.collect Examples.fr ∅ ∅ Examples.four_texts)
  = [[Examples.phrase_a; Examples.phrase_b]; [Examples.joined_ab; lit "c"]]
  ∧ ∃ w1 w2,
      CompleteExisting.process_chunk Examples.merging Examples.fr
        [Examples.phrase_a; Examples.phrase_b] (World ∅ []) = (Ok (), w1)
      ∧ store w1 !! (Examples.fr, Examples.joined_ab)
        = Some (lit "A<<<SYNC_SEP_A12F>>>B")
      ∧ CompleteExisting.batch_translate_texts Examples.merging
          Examples.four_texts Examples.fr (World ∅ []) = (Ok (), w2)
      ∧ store w2 !! (Examples.fr, Examples.joined_ab) = Some (lit "X").
Proof.
  assert (CompleteExisting.collect Examples.fr ∅ ∅ Examples.four_texts
          = Examples.four_texts) as Hcollect.
  { apply ReassignFacts.collect_fresh.
    - repeat (apply Forall_cons; split;
                [ (split; [by vm_compute|]); (split; [by vm_compute|]);
                  (split; [apply lookup_empty|apply not_elem_of_empty]) |]).
      constructor.
    - apply (bool_decide_unpack (NoDup Examples.four_texts)). by vm_compute. }
  rewrite Hcollect. split; [by vm_compute|].
  apply (ReassignFacts.joined_text_reassigned Examples.merging Examples.fr
           Examples.phrase_a Examples.phrase_b Examples.joined_ab (lit "c")
           (lit "A<<<SYNC_SEP_A12F>>>B") (lit "X<<<SYNC_SEP_A12F>>>Y")
           (lit "A") (lit "B") (lit "X") (lit "Y") ∅);
    first [ exact Hcollect
          | apply lookup_empty
          | by vm_compute
          | apply bool_decide_eq_false; by vm_compute ].
Qed.


(** * Instances *)

(** C1 on three phrases and an answer of two parts, for both scripts. *)
Lemma split_mismatch_falls_back_witness :
  (∃ w',
     BatchVisible.process_chunk Examples.two_segments Examples.fr
       Examples.three_phrases (World ∅ []) = (Ok (), w')
     ∧ ∀ src, src ∈ Examples.three_phrases → is_Some (store w' !! src))
  ∧ (∃ w',
     CompleteExisting.process_chunk Examples.two_segments_sync Examples.fr
       Examples.three_phrases (World ∅ []) = (Ok (), w')
     ∧ ∀ src, src ∈ Examples.three_phrases
              → is_Some (store w' !! (Examples.fr, src))).
Proof.
  split.
  - destruct (proj1 split_mismatch_falls_back Examples.two_segments Examples.fr
                Examples.three_phrases (World ∅ [])
                (lit "un<<<SEP_TRANSLATE_9F31>>>deux")) as (w' & E & _ & _ & H).
    + reflexivity.
    + vm_compute. lia.
    + by exists w'.
  - pose proof (ReassignFacts.translate_google_fresh Examples.two_segments_sync
                  Examples.fr (join CompleteExisting.sep Examples.three_phrases)
                  (lit "un<<<SYNC_SEP_A12F>>>deux") (World ∅ [])) as Htr.
    destruct (proj2 split_mismatch_falls_back Examples.two_segments_sync
                Examples.fr Examples.three_phrases (World ∅ []) _ _
                ltac:(repeat (apply Forall_cons; split; [by vm_compute|]);
                      constructor)
                (Htr ltac:(by vm_compute) ltac:(by vm_compute)
                     (lookup_empty _) eq_refl ltac:(by vm_compute)))
      as (w' & E & _ & H).
    + vm_compute. lia.
    + by exists w'.
Defined.


(** C3 on a page: the paragraph keeps its two spaces on each side around
    the translation of its text. *)
Lemma rewriter_preserves_whitespace_witness :
  Shared.final_doc
    (BatchVisible.rewrite Examples.glossary
       (Shared.collect_targets (@BatchVisible.select latin1_tables) Examples.page)
       Examples.page false) !! 0%nat
  = Some (Node (lit "p") (lit "  Bienvenue au cours  ")).
Proof.
  destruct (proj1 (@rewriter_preserves_whitespace latin1_tables) Examples.page
              Examples.glossary false 0%nat
              (Node (lit "p") Examples.padded) Examples.padded_target
              eq_refl ltac:(by vm_compute)) as (_ & _ & _ & _ & H).
  rewrite H. unfold Examples.glossary, Examples.padded_target, t_src.
  rewrite lookup_singleton_eq. by vm_compute.
Defined.

(** C6 on a cached phrase: the call returns the cached value, makes no
    request and leaves the cache as it is, even when the service is down. *)
Lemma cache_grows_across_calls_witness :
  CompleteExisting.translate_google Examples.down Examples.greeting Examples.fr
    (World Examples.one_entry [])
  = (Ok (lit "bonjour"), World Examples.one_entry []).
Proof.
  assert (CompleteExisting.normalize Examples.greeting = Examples.greeting) as Hn
    by (by vm_compute).
  apply (proj1 cache_grows_across_calls).
  - rewrite Hn. apply lookup_singleton_eq.
  - by rewrite Hn.
Defined.

(** C7 on a page whose paragraph has no translation: nothing is changed,
    counted or written. *)
Lemma noop_replacement_not_counted_witness :
  BatchVisible.rewrite ∅ [Examples.padded_target] Examples.page false
  = Processed 0 Examples.page None.
Proof.
  apply (proj1 (proj2 noop_replacement_not_counted)).
  apply Forall_cons. split; [|constructor].
  rewrite lookup_empty. by vm_compute.
Defined.

(** C8 with a service that fails every request. *)
Lemma client_retries_then_gives_up_witness :
  CompleteExisting.translate_google Examples.down Examples.greeting Examples.fr
    (World ∅ [])
  = (Raise,
     World ∅ [Request Examples.fr Examples.greeting; Sleep 250;
              Request Examples.fr Examples.greeting; Sleep 500;
              Request Examples.fr Examples.greeting; Sleep 750])
  ∧ CompleteArabic.translate_google Examples.down Examples.greeting (World ∅ [])
    = (Ok Examples.greeting,
       World {[ Examples.greeting := Examples.greeting ]}
         [Request (lit "ar") Examples.greeting; Sleep 300;
          Request (lit "ar") Examples.greeting; Sleep 600;
          Request (lit "ar") Examples.greeting;
          Print (CompleteArabic.warning Examples.greeting)]).
Proof.
  destruct client_retries_then_gives_up as (_ & _ & Hraise & _ & Hlast).
  split.
  - apply (Hraise Examples.down Examples.greeting Examples.fr (World ∅ []));
      [by vm_compute|done|apply lookup_empty|done].
  - apply (Hlast Examples.down Examples.greeting (World ∅ []));
      [by vm_compute|done|apply lookup_empty|done].
Defined.


(** * Further properties of the scripts *)

(** ** Normalized phrases *)

Module NormalizeFacts.
Import StrFacts.

Lemma tidy_no_double_space (b : bool) (s : str) :
  tidy b s → contains s [32; 32] = false.
Proof.
  revert b. induction s as [|c s IH]; intros b H; [done|].
  cbn [contains]. simpl in H.
  destruct (isspace c) eqn:Ec.
  - destruct H as (-> & _ & H). rewrite (IH true H), orb_false_r.
    cbn [startswith]. destruct s as [|d s]; [done|].
    simpl in H. cbn [startswith].
    destruct (N.eqb_spec 32 d) as [<-|]; [|by rewrite andb_false_r].
    by destruct H as (_ & ? & _).
  - rewrite (IH false H), orb_false_r. cbn [startswith].
    destruct (N.eqb_spec 32 c) as [<-|]; [done|done].
Qed.

Lemma tidy_spaces_only (b : bool) (s : str) (c : N) :
  tidy b s → c ∈ s → isspace c = true → c = 32.
Proof.
  revert b. induction s as [|d s IH]; intros b H Hc Hs.
  - by apply elem_of_nil in Hc.
  - simpl in H. apply elem_of_cons in Hc as [->|Hc].
    + rewrite Hs in H. by destruct H.
    + destruct (isspace d); [destruct H as (_ & _ & H)|]; by eapply IH.
Qed.

End NormalizeFacts.

(** The [normalize] of every script gives a text in normal form: applying
    it again changes nothing, the text neither starts nor ends with
    whitespace, its only whitespace characters are spaces, and no two
    spaces follow each other.  (A cache key computed from a phrase that was
    already normalized is therefore the phrase itself.) *)
Theorem normalize_gives_normal_form :
  ∀ s : str,
    (Common.normalize_plain (Common.normalize_plain s) = Common.normalize_plain s
     ∧ strip (Common.normalize_plain s) = Common.normalize_plain s
     ∧ (∀ c, c ∈ Common.normalize_plain s → isspace c = true → c = 32)
     ∧ contains (Common.normalize_plain s) (lit "  ") = false)
    ∧ (Common.normalize_quotes (Common.normalize_quotes s) = Common.normalize_quotes s
       ∧ strip (Common.normalize_quotes s) = Common.normalize_quotes s
       ∧ (∀ c, c ∈ Common.normalize_quotes s → isspace c = true → c = 32)
       ∧ contains (Common.normalize_quotes s) (lit "  ") = false
       ∧ (8216 ∉ Common.normalize_quotes s) ∧ (8217 ∉ Common.normalize_quotes s)).
Proof.
  intros s. split.
  - assert (StrFacts.tidy false (Common.normalize_plain s)) as Ht
      by apply StrFacts.tidy_strip, StrFacts.sub_ws_tidy.
    split_and!.
    + apply StrFacts.normalize_plain_idemp.
    + apply StrFacts.strip_idemp.
    + intros c. by apply NormalizeFacts.tidy_spaces_only with (b := false).
    + by apply NormalizeFacts.tidy_no_double_space with (b := false).
  - assert (StrFacts.tidy false (Common.normalize_quotes s)) as Ht
      by apply StrFacts.tidy_strip, StrFacts.sub_ws_tidy.
    split_and!.
    + apply StrFacts.normalize_quotes_idemp.
    + apply StrFacts.strip_idemp.
    + intros c. by apply NormalizeFacts.tidy_spaces_only with (b := false).
    + by apply NormalizeFacts.tidy_no_double_space with (b := false).
    + apply StrFacts.strip_keeps_absent, StrFacts.sub_ws_keeps_absent; [done|].
      apply StrFacts.replace_char_gone. by rewrite list_elem_of_singleton.
    + apply StrFacts.strip_keeps_absent, StrFacts.sub_ws_keeps_absent; [done|].
      apply StrFacts.replace_char_keeps_absent; [by rewrite list_elem_of_singleton|].
      apply StrFacts.replace_char_gone. by rewrite list_elem_of_singleton.
Qed.

(** ** The shape of a rewritten document *)

Module ShapeFacts.
Import Shared.

Lemma replace_with_length (pos : nat) (new : str) (doc : list node) :
  length (replace_with pos new doc) = length doc.
Proof. apply length_alter. Qed.

Lemma replace_with_parents (pos : nat) (new : str) (doc : list node) :
  parent <$> replace_with pos new doc = parent <$> doc.
Proof.
  unfold replace_with. revert pos. induction doc as [|n doc IH]; intros pos.
  - done.
  - destruct pos as [|pos]; simpl; [done|]. f_equal. apply IH.
Qed.

Lemma apply_targets_shape (lookup : str → str) (targets : list target)
  (doc : list node) (c : nat) :
  length (apply_targets lookup targets doc c).1 = length doc
  ∧ parent <$> (apply_targets lookup targets doc c).1 = parent <$> doc
  ∧ (c ≤ (apply_targets lookup targets doc c).2 ≤ c + length targets)%nat.
Proof.
  revert doc c. induction targets as [|t targets IH]; intros doc c.
  - simpl. split_and!; [done|done|lia|lia].
  - cbn [apply_targets]. cbv zeta. case_bool_decide.
    + destruct (IH (replace_with (t_pos t)
                      (t_leading t ++ lookup (t_src t) ++ t_trailing t) doc) (S c))
        as (H1 & H2 & H3 & H4).
      rewrite H1, H2, replace_with_length, replace_with_parents.
      cbn [length]. split_and!; [done|done|lia|lia].
    + destruct (IH doc c) as (H1 & H2 & H3 & H4).
      cbn [length]. split_and!; [done|done|lia|lia].
Qed.

Lemma apply_translations_shape (cache : gmap str str) (targets : list target)
  (doc : list node) (c : nat) :
  length (CompleteArabic.apply_translations cache targets doc c).1 = length doc
  ∧ parent <$> (CompleteArabic.apply_translations cache targets doc c).1
    = parent <$> doc
  ∧ (c ≤ (CompleteArabic.apply_translations cache targets doc c).2
       ≤ c + length targets)%nat.
Proof.
  revert doc c. induction targets as [|t targets IH]; intros doc c.
  - simpl. split_and!; [done|done|lia|lia].
  - cbn [CompleteArabic.apply_translations]. cbv zeta.
    destruct (nonempty _ && _).
    + destruct (IH (replace_with (t_pos t)
                      (t_leading t ++ default (t_src t) (cache !! t_src t)
                       ++ t_trailing t) doc) (S c))
        as (H1 & H2 & H3 & H4).
      rewrite H1, H2, replace_with_length, replace_with_parents.
      cbn [length]. split_and!; [done|done|lia|lia].
    + destruct (IH doc c) as (H1 & H2 & H3 & H4).
      cbn [length]. split_and!; [done|done|lia|lia].
Qed.

End ShapeFacts.

(** The replacement loops change the characters of text nodes and
    nothing else: the document keeps its number of nodes and the parent
    tag of every node, a node that is no target keeps its text, and the
    change count is at most the number of targets. *)
Theorem rewriter_keeps_document_shape :
  (∀ (lookup : str → str) (targets : list target) (doc : list node),
     let r := apply_targets lookup targets doc 0 in
     length r.1 = length doc
     ∧ parent <$> r.1 = parent <$> doc
     ∧ (∀ pos, pos ∉ t_pos <$> targets → r.1 !! pos = doc !! pos)
     ∧ (r.2 ≤ length targets)%nat)
  ∧ (∀ (cache : gmap str str) (targets : list target) (doc : list node),
       let r := CompleteArabic.apply_translations cache targets doc 0 in
       length r.1 = length doc
       ∧ parent <$> r.1 = parent <$> doc
       ∧ (∀ pos, pos ∉ t_pos <$> targets → r.1 !! pos = doc !! pos)
       ∧ (r.2 ≤ length targets)%nat).
Proof.
  split.
  - intros lookup targets doc. cbv zeta.
    destruct (ShapeFacts.apply_targets_shape lookup targets doc 0)
      as (H1 & H2 & _ & H3).
    split_and!; [done|done| |lia].
    intros pos Hpos. by apply RewriterFacts.apply_targets_other.
  - intros cache targets doc. cbv zeta.
    destruct (ShapeFacts.apply_translations_shape cache targets doc 0)
      as (H1 & H2 & _ & H3).
    split_and!; [done|done| |lia].
    intros pos Hpos. by apply CompleteArabicRewrite.apply_translations_other.
Qed.

(** ** More on the batcher *)

Module GreedyFacts.
Import Shared Batcher.
Section Facts.
Variables (max_items max_len : nat) (sep : str).

Local Abbreviation fill := (fill_chunk max_items max_len sep).

Lemma join_app_length (chunk rest : list str) :
  (length (join sep chunk) ≤ length (join sep (chunk ++ rest)))%nat.
Proof.
  induction chunk as [|p chunk IH]; [simpl; lia|].
  destruct chunk as [|q chunk].
  - destruct rest as [|r rest]; simpl; [lia|]. rewrite length_app. lia.
  - change (join sep (p :: q :: chunk)) with (p ++ sep ++ join sep (q :: chunk)).
    change (join sep ((p :: q :: chunk) ++ rest))
      with (p ++ sep ++ join sep ((q :: chunk) ++ rest)).
    rewrite !length_app. lia.
Qed.

(** The inner loop stops before a phrase only when the chunk is full or
    the phrase would make the joined text too long. *)
Lemma fill_chunk_greedy (rest chunk : list str) (nxt : str) (left : list str) :
  (fill chunk (length (join sep chunk)) rest).2 = nxt :: left →
  chunk ≠ [] ∨ rest ≠ [] →
  let taken := (fill chunk (length (join sep chunk)) rest).1 in
  taken ≠ []
  ∧ ((max_items ≤ length taken)%nat
     ∨ (max_len < length (join sep (taken ++ [nxt])))%nat).
Proof.
  revert chunk. induction rest as [|x rest IH]; intros chunk; [done|].
  intros H _. cbv zeta. cbn [fill_chunk] in *. cbv zeta in *.
  destruct chunk as [|c chunk].
  - change (nonempty []) with false in *. cbn [andb] in *.
    change (length (join sep [])) with 0%nat in *.
    rewrite Nat.add_0_r in *. cbn [app] in *.
    change (0 + len x)%nat with (length (join sep [x])) in *.
    apply (IH [x]); [done|by left].
  - change (nonempty (c :: chunk)) with true in *. cbn [andb] in *.
    assert ((length (join sep (c :: chunk)) + (len x + len sep))%nat
            = length (join sep ((c :: chunk) ++ [x]))) as E.
    { rewrite BatcherFacts.join_snoc by done. rewrite !length_app.
      unfold len. lia. }
    rewrite E in *.
    destruct (_ || _) eqn:Ecut.
    + simpl in H. injection H as <- <-. split; [done|].
      apply orb_true_iff in Ecut as [Hc|Hc].
      * left. by apply Nat.leb_le in Hc.
      * right. by apply Nat.ltb_lt in Hc.
    + apply (IH ((c :: chunk) ++ [x])); [done|by left].
Qed.

(** Phrases that fit together are taken together. *)
Lemma fill_chunk_all (rest chunk : list str) :
  (length (chunk ++ rest) ≤ max_items)%nat →
  (length (join sep (chunk ++ rest)) ≤ max_len)%nat →
  fill chunk (length (join sep chunk)) rest = (chunk ++ rest, []).
Proof.
  revert chunk. induction rest as [|x rest IH]; intros chunk Hn Hl.
  - by rewrite app_nil_r.
  - cbn [fill_chunk]. cbv zeta.
    assert (chunk ++ x :: rest = (chunk ++ [x]) ++ rest) as Ex
      by (by rewrite <- app_assoc).
    rewrite Ex in Hn, Hl.
    pose proof (join_app_length (chunk ++ [x]) rest) as Hm.
    destruct chunk as [|c chunk].
    + change (nonempty []) with false. cbn [andb].
      change (length (join sep [])) with 0%nat. rewrite Nat.add_0_r.
      change (0 + len x)%nat with (length (join sep ([] ++ [x]))).
      rewrite IH by done. by rewrite Ex.
    + change (nonempty (c :: chunk)) with true. cbn [andb].
      assert ((length (join sep (c :: chunk)) + (len x + len sep))%nat
              = length (join sep ((c :: chunk) ++ [x]))) as E.
      { rewrite BatcherFacts.join_snoc by done. rewrite !length_app.
        unfold len. lia. }
      rewrite E.
      assert (length (c :: chunk) < max_items)%nat as Hlt.
      { rewrite !length_app in Hn. simpl in Hn. simpl. lia. }
      rewrite (proj2 (Nat.leb_gt _ _)) by done.
      rewrite (proj2 (Nat.ltb_ge _ _)) by lia.
      cbn [orb]. rewrite IH by done. by rewrite Ex.
Qed.

Lemma batches_single (uniq : list str) :
  uniq ≠ [] → (length uniq ≤ max_items)%nat →
  (length (join sep uniq) ≤ max_len)%nat →
  batches max_items max_len sep uniq = [uniq].
Proof.
  intros Hne Hn Hl. destruct uniq as [|x rest]; [done|].
  rewrite BatcherFacts.batches_unfold.
  pose proof (fill_chunk_all (x :: rest) [] Hn Hl) as E.
  change (length (join sep [])) with 0%nat in E. rewrite E. simpl.
  by unfold batches.
Qed.

Lemma batches_greedy (uniq : list str) :
  ∀ (i : nat) (b b' : list str) (nxt : str),
    batches max_items max_len sep uniq !! i = Some b →
    batches max_items max_len sep uniq !! S i = Some b' →
    head b' = Some nxt →
    (max_items ≤ length b)%nat
    ∨ (max_len < length (join sep (b ++ [nxt])))%nat.
Proof.
  apply (BatcherFacts.batches_ind max_items max_len sep
           (λ uniq bs, ∀ (i : nat) (b b' : list str) (nxt : str),
              bs !! i = Some b → bs !! S i = Some b' → head b' = Some nxt →
              (max_items ≤ length b)%nat
              ∨ (max_len < length (join sep (b ++ [nxt])))%nat)).
  - intros i b b' nxt H. by rewrite lookup_nil in H.
  - intros x rest IH i b b' nxt.
    rewrite BatcherFacts.batches_unfold.
    destruct i as [|i]; [|apply IH].
    pose proof (fill_chunk_greedy (x :: rest) []) as G. cbv zeta in G.
    change (length (join sep [])) with 0%nat in G.
    destruct (fill [] 0 (x :: rest)).2 as [|y left] eqn:E.
    { by unfold batches. }
    assert (x :: rest ≠ []) as Hxr by done.
    destruct (G y left eq_refl (or_intror Hxr)) as [_ G'].
    rewrite BatcherFacts.batches_unfold.
    destruct (BatcherFacts.fill_chunk_progress max_items max_len sep y left)
      as (taken & Et & _).
    rewrite Et. set (c0 := (fill [] 0 (x :: rest)).1) in *.
    cbn [lookup list_lookup head].
    intros Hb Hb' Hn. injection Hb as <-. injection Hb' as <-.
    injection Hn as <-. exact G'.
Qed.
End Facts.
End GreedyFacts.

(** Phrases that fit into one batch are sent as one batch: when the list
    of phrases is not empty, has at most [max_items] phrases and its
    joined text is at most [max_len] characters long, the batcher yields
    that list as its only batch, so [batch_translate] makes one joined
    request for it. *)
Theorem batcher_one_batch_when_it_fits (max_items max_len : nat) (sep : str)
  (uniq : list str) :
  uniq ≠ [] → (length uniq ≤ max_items)%nat →
  (len (join sep uniq) ≤ max_len)%nat →
  Batcher.batches max_items max_len sep uniq = [uniq]
  ∧ ∀ C (process : list str → M C ()),
      Batcher.chunk_loop max_items max_len sep process (length uniq) uniq
      = (process uniq ;; ret ()).
Proof.
  intros Hne Hn Hl.
  pose proof (GreedyFacts.batches_single max_items max_len sep uniq Hne Hn Hl) as E.
  split; [done|]. intros C process.
  by rewrite BatcherFacts.chunk_loop_all, E.
Qed.

Lemma batcher_one_batch_when_it_fits_witness :
  Batcher.batches BatchVisible.max_items BatchVisible.max_len BatchVisible.sep
    Examples.three_phrases = [Examples.three_phrases].
Proof.
  apply (batcher_one_batch_when_it_fits BatchVisible.max_items
           BatchVisible.max_len BatchVisible.sep Examples.three_phrases).
  - done.
  - vm_compute. lia.
  - vm_compute. lia.
Defined.

(** The batcher is greedy: a batch is closed before the next phrase only
    when it already holds [max_items] phrases or when joining that phrase
    to it would give more than [max_len] characters. *)
Theorem batcher_takes_all_it_can (max_items max_len : nat) (sep : str)
  (uniq : list str) (i : nat) (b b' : list str) (nxt : str) :
  Batcher.batches max_items max_len sep uniq !! i = Some b →
  Batcher.batches max_items max_len sep uniq !! S i = Some b' →
  head b' = Some nxt →
  (max_items ≤ length b)%nat ∨ (max_len < len (join sep (b ++ [nxt])))%nat.
Proof. apply GreedyFacts.batches_greedy. Qed.

Lemma batcher_takes_all_it_can_witness :
  (2 ≤ length [lit "one"; lit "two"])%nat
  ∨ (100 < len (join (lit ", ") ([lit "one"; lit "two"] ++ [lit "three"])))%nat.
Proof.
  apply (batcher_takes_all_it_can 2 100 (lit ", ") Examples.three_phrases 0
           [lit "one"; lit "two"] [lit "three"] (lit "three"));
    reflexivity.
Defined.

(** ** More on the translation clients *)

Module ClientMore.
Import TraceFacts RunFacts ClientFacts RetryFacts.
Section Facts.
Variable net : service.

(** The service answers the next [n] requests for [text] with nothing
    but whitespace. *)
Definition blank_answers {C} (lang text : str) (w : world C) (n : nat) : Prop :=
  ∀ i, (i < n)%nat →
       ∃ body, net (nreq w + i)%nat lang text = Some body ∧ strip body = [].

Lemma blank_answers_next {C} (lang text : str) (w : world C) (n : nat) :
  blank_answers lang text w (S n) →
  blank_answers lang text (World (store w) (trace w ++ [Request lang text])) n.
Proof.
  intros H i Hi. rewrite nreq_after_request.
  replace (S (nreq w) + i)%nat with (nreq w + S i)%nat by lia.
  apply H. lia.
Qed.

Lemma blank_answers_first {C} (lang text : str) (w : world C) (n : nat) :
  blank_answers lang text w (S n) →
  ∃ body, net (nreq w) lang text = Some body ∧ strip body = [].
Proof.
  intros H. destruct (H 0%nat) as (body & Hb & Hs); [lia|].
  rewrite Nat.add_0_r in Hb. by exists body.
Qed.

Lemma attempts_raising_blank (backoff : N) (text lang : str) (range : list N)
  (w : world (gmap (str * str) str)) :
  blank_answers lang text w (length range) →
  attempts_raising net backoff text lang range w
  = (Raise, World (store w)
              (trace w ++ replicate (length range) (Request lang text))).
Proof.
  revert w. induction range as [|a range IH]; intros w H.
  - simpl. unfold raise. rewrite app_nil_r. by destruct w.
  - rewrite attempts_raising_cons.
    destruct (blank_answers_first _ _ _ _ H) as (body & -> & ->).
    cbn [nonempty]. rewrite IH by (by apply blank_answers_next).
    simpl. by rewrite <- app_assoc.
Qed.

Lemma ca_attempts_blank (text : str) (range : list N) (w : world (gmap str str)) :
  blank_answers (lit "ar") text w (length range) →
  CompleteArabic.attempts net text range w
  = (Ok text, World (store w)
                (trace w ++ replicate (length range) (Request (lit "ar") text))).
Proof.
  revert w. induction range as [|a range IH]; intros w H.
  - simpl. unfold ret. rewrite app_nil_r. by destruct w.
  - rewrite CompleteArabicFacts.ca_attempts_cons.
    destruct (blank_answers_first _ _ _ _ H) as (body & -> & ->).
    cbn [nonempty]. rewrite IH by (by apply blank_answers_next).
    simpl. by rewrite <- app_assoc.
Qed.

(** The loop after [k] failed requests and one good answer. *)
Lemma attempts_raising_then_ok (backoff : N) (text lang body : str)
  (pre : list N) (a : N) (post : list N) (w : world (gmap (str * str) str)) :
  (∀ i, (i < length pre)%nat → net (nreq w + i)%nat lang text = None) →
  net (nreq w + length pre)%nat lang text = Some body → strip body ≠ [] →
  attempts_raising net backoff text lang (pre ++ a :: post) w
  = (Ok (strip body),
     World (<[(lang, text) := strip body]> (store w))
       (trace w ++ failed_attempts backoff lang text pre ++ [Request lang text])).
Proof.
  revert w. induction pre as [|p pre IH]; intros w Hfail Hok Hne.
  - simpl in Hok. rewrite Nat.add_0_r in Hok. cbn [app].
    rewrite attempts_raising_cons, Hok.
    destruct (strip body) as [|c t] eqn:E; [done|]. done.
  - cbn [app]. rewrite attempts_raising_cons.
    rewrite <- (Nat.add_0_r (nreq w)), Hfail by (simpl; lia).
    rewrite IH.
    + simpl. by rewrite <- !app_assoc.
    + intros i Hi. rewrite nreq_after_request_sleep.
      replace (S (nreq w) + i)%nat with (nreq w + S i)%nat by lia.
      apply Hfail. simpl. lia.
    + rewrite nreq_after_request_sleep.
      replace (S (nreq w) + length pre)%nat
        with (nreq w + length (p :: pre))%nat by (simpl; lia).
      done.
    + done.
Qed.

Lemma client_fresh (normalize : str → str) (range : list N) (backoff : N)
  (text lang : str) (w : world (gmap (str * str) str)) :
  normalize text = text → text ≠ [] → store w !! (lang, text) = None →
  translate_google_raising net normalize range backoff text lang w
  = attempts_raising net backoff text lang range w.
Proof.
  intros Hn Hne Hc. unfold translate_google_raising. rewrite Hn.
  destruct text as [|c t]; [done|].
  change (negb (nonempty (c :: t))) with false.
  unfold bind, get. cbv beta iota. by rewrite Hc.
Qed.

Lemma ca_client_fresh (text : str) (w : world (gmap str str)) :
  CompleteArabic.normalize text = text → text ≠ [] → store w !! text = None →
  CompleteArabic.translate_google net text w
  = CompleteArabic.attempts net text [0; 1; 2] w.
Proof.
  intros Hn Hne Hc. unfold CompleteArabic.translate_google. rewrite Hn.
  destruct text as [|c t]; [done|].
  change (negb (nonempty (c :: t))) with false.
  unfold bind, get. cbv beta iota. by rewrite Hc.
Qed.
End Facts.
End ClientMore.

(** An answer that holds nothing but whitespace is a failed attempt of the
    raising client, but one without a pause: when every answer is blank,
    [translate_google] makes its three requests (four in
    translate_index_cards.py) one after the other, never sleeps, leaves
    the cache as it was and raises. *)
Theorem raising_client_counts_blank_answers_as_failures :
  (∀ (net : service) (text lang : str) (w : world (gmap (str * str) str)),
     CompleteExisting.normalize text = text → text ≠ [] →
     store w !! (lang, text) = None →
     (∀ i, (i < 3)%nat →
           ∃ body, net (nreq w + i)%nat lang text = Some body ∧ strip body = []) →
     CompleteExisting.translate_google net text lang w
     = (Raise, World (store w) (trace w ++ replicate 3 (Request lang text))))
  ∧ (∀ (net : service) (text lang : str) (w : world (gmap (str * str) str)),
       IndexCards.normalize text = text → text ≠ [] →
       store w !! (lang, text) = None →
       (∀ i, (i < 4)%nat →
             ∃ body, net (nreq w + i)%nat lang text = Some body ∧ strip body = []) →
       IndexCards.translate_google net text lang w
       = (Raise, World (store w) (trace w ++ replicate 4 (Request lang text)))).
Proof.
  split; intros net text lang w Hn Hne Hc Hb.
  - unfold CompleteExisting.translate_google.
    rewrite ClientMore.client_fresh by done.
    by rewrite ClientMore.attempts_raising_blank.
  - unfold IndexCards.translate_google.
    rewrite ClientMore.client_fresh by done.
    by rewrite ClientMore.attempts_raising_blank.
Qed.

Lemma raising_client_counts_blank_answers_as_failures_witness :
  CompleteExisting.translate_google Examples2.blank Examples.greeting
    Examples.fr (World ∅ [])
  = (Raise, World ∅ (replicate 3 (Request Examples.fr Examples.greeting))).
Proof.
  apply (proj1 raising_client_counts_blank_answers_as_failures Examples2.blank
           Examples.greeting Examples.fr (World ∅ [])).
  - by vm_compute.
  - done.
  - apply lookup_empty.
  - intros i _. exists (lit "  "). split; [done|by vm_compute].
Defined.

(** The last-resort client of complete_arabic_translations.py treats a
    blank answer differently from a failed request: when all three answers
    are blank it returns the phrase unchanged after three requests in a
    row, without a pause and without a warning, and it does not store the
    phrase in the cache (a failed request stores it). *)
Theorem last_resort_client_leaves_blank_answers_uncached :
  ∀ (net : service) (text : str) (w : world (gmap str str)),
    CompleteArabic.normalize text = text → text ≠ [] →
    store w !! text = None →
    (∀ i, (i < 3)%nat →
          ∃ body, net (nreq w + i)%nat (lit "ar") text = Some body
                  ∧ strip body = []) →
    CompleteArabic.translate_google net text w
    = (Ok text, World (store w)
                  (trace w ++ replicate 3 (Request (lit "ar") text)))
    ∧ store (CompleteArabic.translate_google net text w).2 !! text = None.
Proof.
  intros net text w Hn Hne Hc Hb.
  rewrite ClientMore.ca_client_fresh by done.
  by rewrite ClientMore.ca_attempts_blank.
Qed.

Lemma last_resort_client_leaves_blank_answers_uncached_witness :
  CompleteArabic.translate_google Examples2.blank Examples.greeting (World ∅ [])
  = (Ok Examples.greeting,
     World ∅ (replicate 3 (Request (lit "ar") Examples.greeting)))
  ∧ store (CompleteArabic.translate_google Examples2.blank Examples.greeting
             (World ∅ [])).2 !! Examples.greeting = None.
Proof.
  apply (last_resort_client_leaves_blank_answers_uncached Examples2.blank
           Examples.greeting (World ∅ [])).
  - by vm_compute.
  - done.
  - apply lookup_empty.
  - intros i _. exists (lit "  "). split; [done|by vm_compute].
Defined.

(** A request that succeeds after [k] failed ones (k below the number of
    attempts): the raising client has slept after each failure with its
    growing pause, stores the stripped answer under the key of the phrase
    and returns it; nothing is requested after the good answer. *)
Theorem raising_client_succeeds_after_failures :
  (∀ (net : service) (text lang body : str) (k : nat)
     (w : world (gmap (str * str) str)),
     CompleteExisting.normalize text = text → text ≠ [] →
     store w !! (lang, text) = None → (k < 3)%nat →
     (∀ i, (i < k)%nat → net (nreq w + i)%nat lang text = None) →
     net (nreq w + k)%nat lang text = Some body → strip body ≠ [] →
     CompleteExisting.translate_google net text lang w
     = (Ok (strip body),
        World (<[(lang, text) := strip body]> (store w))
          (trace w
           ++ RetryFacts.failed_attempts 250 lang text (take k [0; 1; 2])
           ++ [Request lang text])))
  ∧ (∀ (net : service) (text lang body : str) (k : nat)
       (w : world (gmap (str * str) str)),
       IndexCards.normalize text = text → text ≠ [] →
       store w !! (lang, text) = None → (k < 4)%nat →
       (∀ i, (i < k)%nat → net (nreq w + i)%nat lang text = None) →
       net (nreq w + k)%nat lang text = Some body → strip body ≠ [] →
       IndexCards.translate_google net text lang w
       = (Ok (strip body),
          World (<[(lang, text) := strip body]> (store w))
            (trace w
             ++ RetryFacts.failed_attempts 400 lang text (take k [0; 1; 2; 3])
             ++ [Request lang text]))).
Proof.
  split; intros net text lang body k w Hn Hne Hc Hk Hfail Hok Hbody.
  - unfold CompleteExisting.translate_google.
    rewrite ClientMore.client_fresh by done.
    destruct k as [|[|[|k]]]; [| | |lia].
    + by apply (ClientMore.attempts_raising_then_ok net 250 text lang body
                  [] 0 [1; 2]).
    + by apply (ClientMore.attempts_raising_then_ok net 250 text lang body
                  [0] 1 [2]).
    + by apply (ClientMore.attempts_raising_then_ok net 250 text lang body
                  [0; 1] 2 []).
  - unfold IndexCards.translate_google.
    rewrite ClientMore.client_fresh by done.
    destruct k as [|[|[|[|k]]]]; [| | | |lia].
    + by apply (ClientMore.attempts_raising_then_ok net 400 text lang body
                  [] 0 [1; 2; 3]).
    + by apply (ClientMore.attempts_raising_then_ok net 400 text lang body
                  [0] 1 [2; 3]).
    + by apply (ClientMore.attempts_raising_then_ok net 400 text lang body
                  [0; 1] 2 [3]).
    + by apply (ClientMore.attempts_raising_then_ok net 400 text lang body
                  [0; 1; 2] 3 []).
Qed.

Lemma raising_client_succeeds_after_failures_witness :
  CompleteExisting.translate_google Examples2.second_try Examples.greeting
    Examples.fr (World ∅ [])
  = (Ok (lit "bonjour"),
     World (<[(Examples.fr, Examples.greeting) := lit "bonjour"]> ∅)
       [Request Examples.fr Examples.greeting; Sleep 250;
        Request Examples.fr Examples.greeting]).
Proof.
  assert (strip (lit " bonjour ") = lit "bonjour") as Hs by (by vm_compute).
  rewrite <- Hs.
  apply (proj1 raising_client_succeeds_after_failures Examples2.second_try
           Examples.greeting Examples.fr (lit " bonjour ") 1%nat (World ∅ [])).
  - by vm_compute.
  - done.
  - apply lookup_empty.
  - lia.
  - intros i Hi. by replace i with 0%nat by lia.
  - done.
  - by rewrite Hs.
Defined.

(** A text that is empty or all whitespace is not translated: every
    client returns the empty string at once, makes no request and leaves
    the cache and the trace as they were. *)
Theorem clients_skip_blank_text :
  ∀ (net : service) (text lang : str),
    lstrip text = [] →
    (∀ w, CompleteExisting.translate_google net text lang w = (Ok [], w))
    ∧ (∀ w, IndexCards.translate_google net text lang w = (Ok [], w))
    ∧ (∀ w, CompleteArabic.translate_google net text w = (Ok [], w)).
Proof.
  intros net text lang Hb. split_and!; intros w.
  - unfold CompleteExisting.translate_google, translate_google_raising,
      CompleteExisting.normalize.
    by rewrite (SelectFacts.blank_normalize_quotes _ Hb).
  - unfold IndexCards.translate_google, translate_google_raising,
      IndexCards.normalize.
    by rewrite (SelectFacts.blank_normalize_plain _ Hb).
  - unfold CompleteArabic.translate_google, CompleteArabic.normalize.
    by rewrite (SelectFacts.blank_normalize_plain _ Hb).
Qed.

Lemma clients_skip_blank_text_witness :
  (∀ w, CompleteExisting.translate_google Examples.two_segments (lit "  ")
          Examples.fr w = (Ok [], w))
  ∧ (∀ w, IndexCards.translate_google Examples.two_segments (lit "  ")
            Examples.fr w = (Ok [], w))
  ∧ (∀ w, CompleteArabic.translate_google Examples.two_segments (lit "  ") w
          = (Ok [], w)).
Proof.
  apply (clients_skip_blank_text Examples.two_segments (lit "  ") Examples.fr).
  by vm_compute.
Defined.

(** ** batch_translate_visible_nodes.py: the result of [batch_translate] *)

Module BatchVisibleMore.
Import TraceFacts RunFacts ClientFacts BatchVisible.
Section Facts.
Variable net : service.

(** What a step leaves behind: the keys it added are among [added], it
    made at most [reqs] requests, and it only extended the trace. *)
Definition step_post (added : list str) (reqs : nat)
  (w w' : world (gmap str str)) : Prop :=
  (∀ k, is_Some (store w' !! k) ↔ is_Some (store w !! k) ∨ k ∈ added)
  ∧ (nreq w' ≤ nreq w + reqs)%nat
  ∧ trace w `prefix_of` trace w'.

Lemma step_post_trans (a1 a2 : list str) (r1 r2 : nat)
  (w w1 w2 : world (gmap str str)) :
  step_post a1 r1 w w1 → step_post a2 r2 w1 w2 →
  step_post (a1 ++ a2) (r1 + r2) w w2.
Proof.
  intros (K1 & N1 & P1) (K2 & N2 & P2). split_and!.
  - intros k. rewrite K2, K1, elem_of_app. tauto.
  - lia.
  - by etrans.
Qed.

Lemma step_post_emit (e : event) (w : world (gmap str str)) :
  is_request e = false →
  step_post [] 0 w (World (store w) (trace w ++ [e])).
Proof.
  intros He. split_and!.
  - intros k. simpl. rewrite elem_of_nil. tauto.
  - unfold nreq, requests. simpl. rewrite filter_app, length_app.
    rewrite filter_cons_False by (by rewrite He). simpl. lia.
  - by apply prefix_app_r.
Qed.

Lemma assign_pairs (pairs : list (str * str)) (w : world (gmap str str)) :
  ∃ w', for_each (λ p, assign p.1 (strip p.2)) pairs w = (Ok (), w')
        ∧ step_post pairs.*1 0 w w'.
Proof.
  revert w. induction pairs as [|p pairs IH]; intros w.
  - exists w. split; [done|]. split_and!; [|lia|done].
    intros k. simpl. rewrite elem_of_nil. tauto.
  - destruct (IH (World (<[p.1 := strip p.2]> (store w)) (trace w)))
      as (w' & E & K & N & P).
    exists w'. split; [by simpl; unfold bind, assign, modify; simpl|].
    split_and!; [|done|done].
    intros k. rewrite K. cbn [store]. rewrite lookup_insert_is_Some', fmap_cons,
      elem_of_cons. naive_solver.
Qed.

Lemma fallback_chunk (lang : str) (chunk : list str) (w : world (gmap str str)) :
  ∃ w', for_each (fallback_one net lang) chunk w = (Ok (), w')
        ∧ step_post chunk (length chunk) w w'.
Proof.
  revert w. induction chunk as [|src chunk IH]; intros w.
  - exists w. split; [done|]. split_and!; [|lia|done].
    intros k. rewrite elem_of_nil. tauto.
  - assert (∃ w1, fallback_one net lang src w = (Ok (), w1)
                  ∧ step_post [src] 1 w w1) as (w1 & E1 & H1).
    { rewrite BatchVisibleFacts.fallback_one_run.
      destruct (net (nreq w) lang src) as [body|]; eexists; (split; [done|]).
      - split_and!.
        + intros k. cbn [store].
          rewrite lookup_insert_is_Some', list_elem_of_singleton. naive_solver.
        + unfold nreq. simpl.
          rewrite requests_snoc_sleep, requests_snoc_request, length_app.
          simpl. lia.
        + rewrite <- app_assoc. by apply prefix_app_r.
      - split_and!.
        + intros k. cbn [store].
          rewrite lookup_insert_is_Some', list_elem_of_singleton. naive_solver.
        + unfold nreq. simpl.
          rewrite requests_snoc_request, length_app. simpl. lia.
        + by apply prefix_app_r. }
    destruct (IH w1) as (w' & E & H).
    exists w'. split; [by simpl; unfold bind; rewrite E1|].
    apply (step_post_trans [src] chunk 1 (length chunk) w w1 w' H1 H).
Qed.

Lemma process_chunk_step (lang : str) (chunk : list str)
  (w : world (gmap str str)) :
  ∃ w', process_chunk net lang chunk w = (Ok (), w')
        ∧ step_post chunk (1 + length chunk) w w'.
Proof.
  set (w0 := World (store w) (trace w ++ [Request lang (join sep chunk)])).
  assert (step_post [] 1 w w0) as H0.
  { split_and!.
    - intros k. simpl. rewrite elem_of_nil. tauto.
    - unfold w0. rewrite nreq_after_request. lia.
    - by apply prefix_app_r. }
  assert (∀ w1, step_post chunk (length chunk) w0 w1 →
                step_post chunk (1 + length chunk) w w1) as Hfrom0.
  { intros w1 H1.
    apply (step_post_trans [] chunk 1 (length chunk) w w0 w1 H0 H1). }
  assert (∀ w1 ms, step_post chunk (1 + length chunk) w w1 →
            step_post chunk (1 + length chunk) w
              (World (store w1) (trace w1 ++ [Sleep ms]))) as Hsleep.
  { intros w1 ms H1.
    pose proof (step_post_trans chunk [] (1 + length chunk) 0 w w1 _ H1
                  (step_post_emit (Sleep ms) w1 eq_refl)) as H.
    by rewrite app_nil_r, Nat.add_0_r in H. }
  destruct (net (nreq w) lang (join sep chunk)) as [body|] eqn:Hnet.
  - destruct (decide (length (split (strip body) sep) = length chunk)) as [Hl|Hl].
    + destruct (assign_pairs (zip chunk (split (strip body) sep)) w0)
        as (w1 & E1 & H1).
      rewrite fst_zip in H1 by lia.
      exists (World (store w1) (trace w1 ++ [Sleep 60])). split.
      * unfold process_chunk, translate_google, try_except, bind at 1 2 3,
          request, ret.
        simpl. rewrite Hnet. apply Nat.eqb_eq in Hl. rewrite Hl.
        fold w0. rewrite E1. done.
      * apply Hsleep, Hfrom0.
        destruct H1 as (K & N & P). split_and!; [done|lia|done].
    + rewrite (BatchVisibleFacts.process_chunk_mismatch net lang chunk w body Hnet Hl).
      fold w0. destruct (fallback_chunk lang chunk w0) as (w1 & E1 & H1).
      exists (World (store w1) (trace w1 ++ [Sleep 60])). split.
      * unfold bind. by rewrite E1.
      * by apply Hsleep, Hfrom0.
  - rewrite (BatchVisibleFacts.process_chunk_failure net lang chunk w Hnet).
    fold w0. destruct (fallback_chunk lang chunk w0) as (w1 & E1 & H1).
    exists (World (store w1) (trace w1 ++ [Sleep 60])). split.
    + unfold bind. by rewrite E1.
    + by apply Hsleep, Hfrom0.
Qed.

Lemma process_batches (lang : str) (bs : list (list str))
  (w : world (gmap str str)) :
  ∃ w', for_each (process_chunk net lang) bs w = (Ok (), w')
        ∧ step_post (concat bs) (length bs + length (concat bs)) w w'.
Proof.
  revert w. induction bs as [|b bs IH]; intros w.
  - exists w. split; [done|]. split_and!; [|simpl; lia|done].
    intros k. simpl. rewrite elem_of_nil. tauto.
  - destruct (process_chunk_step lang b w) as (w1 & E1 & H1).
    destruct (IH w1) as (w' & E & H).
    exists w'. split; [by simpl; unfold bind; rewrite E1|].
    pose proof (step_post_trans _ _ _ _ w w1 w' H1 H) as (K & N & P).
    split_and!; [done| |done].
    simpl. rewrite length_app. lia.
Qed.
End Facts.
End BatchVisibleMore.

Lemma concat_length_nonempty {A} (bs : list (list A)) :
  Forall (λ b, b ≠ []) bs → (length bs ≤ length (concat bs))%nat.
Proof.
  induction 1 as [|b bs Hb _ IH]; [done|].
  simpl. rewrite length_app. destruct b; [done|]. simpl. lia.
Qed.

Lemma bv_batch_translate_post :
  ∀ (net : service) (texts : list str) (lang : str) (tr : list event),
    ∃ out tr',
      BatchVisible.batch_translate net texts lang tr = (Ok out, tr')
      ∧ (∀ t, is_Some (out !! t) ↔ t ∈ texts)
      ∧ (length (requests tr')
         ≤ length (requests tr) + 2 * length (BatchVisible.dedup ∅ texts))%nat
      ∧ tr `prefix_of` tr'.
Proof.
  intros net texts lang tr.
  unfold BatchVisible.batch_translate, BatchVisible.batch_loop. cbv zeta.
  rewrite BatcherFacts.chunk_loop_all.
  set (uniq := BatchVisible.dedup ∅ texts).
  set (bs := Batcher.batches BatchVisible.max_items BatchVisible.max_len
               BatchVisible.sep uniq).
  destruct (BatchVisibleMore.process_batches net lang bs (World ∅ tr))
    as (w' & E & K & N & P).
  rewrite E. exists (store w'), (trace w'). split; [done|].
  assert (concat bs = uniq) as Hc by apply BatcherFacts.batches_concat.
  rewrite Hc in K, N.
  pose proof (concat_length_nonempty bs
                (BatcherFacts.batches_nonempty _ _ _ uniq)) as Hlen.
  rewrite Hc in Hlen.
  destruct (UniqFacts.bv_dedup_spec texts ∅) as (_ & _ & Hin).
  split_and!.
  - intros t. rewrite K. cbn [store]. rewrite lookup_empty. fold uniq in Hin.
    rewrite Hin. split.
    + intros [[? [=]]|[? _]]. done.
    + intros Ht. right. split; [done|]. apply not_elem_of_empty.
  - unfold nreq in N. simpl in N. lia.
  - done.
Qed.


(** [batch_translate] of batch_translate_visible_nodes.py always returns,
    and the dictionary it returns has exactly the given phrases as keys:
    every phrase gets an entry (the translation, or the phrase itself when
    its own request failed) and nothing else does.  It makes at most one
    request per batch and one per phrase, hence at most twice as many as
    there are distinct phrases, and it only appends to the trace. *)
Theorem batch_translate_maps_exactly_the_phrases :
  ∀ (net : service) (texts : list str) (lang : str) (tr : list event),
    ∃ out tr',
      BatchVisible.batch_translate net texts lang tr = (Ok out, tr')
      ∧ (∀ t, is_Some (out !! t) ↔ t ∈ texts)
      ∧ (length (requests tr')
         ≤ length (requests tr) + 2 * length (BatchVisible.dedup ∅ texts))%nat
      ∧ tr `prefix_of` tr'.
Proof. apply bv_batch_translate_post. Qed.

(** ** batch_translate_visible_nodes.py: [process_file] *)

Lemma collect_targets_none (select : nat → node → option target)
  (doc : list node) :
  (∀ pos n, doc !! pos = Some n → select pos n = None) →
  collect_targets select doc = [].
Proof.
  intros H. unfold collect_targets.
  assert (∀ p, p ∈ imap pair doc → select p.1 p.2 = None) as Hall.
  { intros [i n] (j & m & [= -> ->] & Hm)%elem_of_lookup_imap. by apply H. }
  induction (imap pair doc) as [|p l IH]; [done|].
  simpl. rewrite (Hall p) by (by left).
  apply IH. intros q Hq. apply Hall. by right.
Qed.

(** A page without a candidate phrase costs nothing: when no text node
    of the page passes the selection (it sits in a skipped tag, does not
    look English, or holds a link), [process_file] makes no request,
    changes no node, reports zero changes and writes nothing, dry run or
    not; in complete_arabic_translations.py the cache stays as it was. *)
Theorem page_without_candidates_is_left_alone `{U : Unicode} :
  (∀ (net : service) (doc : list node) (lang : str) (dry_run : bool)
     (tr : list event),
     (∀ pos n, doc !! pos = Some n → BatchVisible.select pos n = None) →
     BatchVisible.process_file net doc lang dry_run tr
     = (Ok (Processed 0 doc None), tr))
  ∧ (∀ (net : service) (doc : list node) (dry_run : bool)
       (w : world (gmap str str)),
       (∀ pos n, doc !! pos = Some n → CompleteArabic.select pos n = None) →
       CompleteArabic.process_file net doc dry_run w
       = (Ok (Processed 0 doc None), w)).
Proof.
  split.
  - intros net doc lang dry_run tr H.
    unfold BatchVisible.process_file. cbv zeta.
    by rewrite (collect_targets_none _ _ H).
  - intros net doc dry_run w H.
    unfold CompleteArabic.process_file. cbv zeta.
    by rewrite (collect_targets_none _ _ H).
Qed.

Lemma page_without_candidates_is_left_alone_witness :
  @BatchVisible.process_file latin1_tables Examples.down Examples2.quiet_page
    Examples.fr false []
  = (Ok (Processed 0 Examples2.quiet_page None), []).
Proof.
  apply (proj1 (@page_without_candidates_is_left_alone latin1_tables)).
  intros [|[|pos]] n; [| |done]; intros [= <-]; by vm_compute.
Defined.

(** A dry run differs from a real run only in the write: [process_file]
    always returns, and with and without [dry_run] it makes the same
    requests and reports the same change count and the same final
    document.  The page is written exactly when the run is no dry run and
    the count is not zero, and what is written is that final document. *)
Theorem dry_run_only_skips_the_write `{U : Unicode} :
  ∀ (net : service) (doc : list node) (lang : str) (tr : list event),
    ∃ r tr',
      BatchVisible.process_file net doc lang false tr = (Ok r, tr')
      ∧ BatchVisible.process_file net doc lang true tr
        = (Ok (Processed (changes r) (final_doc r) None), tr')
      ∧ written r = (if (changes r =? 0)%nat then None else Some (final_doc r))
      ∧ tr `prefix_of` tr'.
Proof.
  intros net doc lang tr. unfold BatchVisible.process_file. cbv zeta.
  set (targets := collect_targets BatchVisible.select doc).
  assert (∃ mapping tr',
            match t_src <$> targets with
            | [] => (Ok ∅, tr)
            | _ => BatchVisible.batch_translate net (t_src <$> targets) lang tr
            end = (Ok mapping, tr') ∧ tr `prefix_of` tr')
    as (mapping & tr' & -> & Hp).
  { destruct (t_src <$> targets) as [|p ps] eqn:E; [by exists ∅, tr|].
    destruct (bv_batch_translate_post net (p :: ps) lang tr)
      as (out & tr' & Eo & _ & _ & Hp).
    by exists out, tr'. }
  unfold BatchVisible.rewrite.
  destruct (apply_targets _ targets doc 0) as [doc' n].
  eexists _, tr'. split; [done|]. simpl. split_and!; [|by destruct n|done].
  unfold write_back. by rewrite andb_false_r.
Qed.

(** ** sync_translate_from_source.py: [batch_translate] *)

Module SyncMore.
Import TraceFacts RunFacts ClientFacts SyncBatch.
Section Facts.
Variable net : service.
Variable lang : str.

(** What a step leaves behind: it gave every phrase of [added] an entry
    for [lang], touched no other entry, made at most [reqs] requests and
    only extended the trace. *)
Definition step_post (added : list str) (reqs : nat)
  (w w' : world (gmap (str * str) str)) : Prop :=
  (∀ src, src ∈ added → is_Some (store w' !! (lang, src)))
  ∧ (∀ k, k ∉ pair lang <$> added → store w' !! k = store w !! k)
  ∧ (nreq w' ≤ nreq w + reqs)%nat
  ∧ trace w `prefix_of` trace w'.

Lemma step_post_refl (w : world (gmap (str * str) str)) : step_post [] 0 w w.
Proof. split_and!; [by intros src ?%elem_of_nil|done|lia|done]. Qed.

Lemma sync_step_post_trans (a1 a2 : list str) (r1 r2 : nat)
  (w w1 w2 : world (gmap (str * str) str)) :
  step_post a1 r1 w w1 → step_post a2 r2 w1 w2 →
  step_post (a1 ++ a2) (r1 + r2) w w2.
Proof.
  intros (S1 & F1 & N1 & P1) (S2 & F2 & N2 & P2). split_and!.
  - intros src [H|H]%elem_of_app; [|by apply S2].
    destruct (decide (src ∈ a2)) as [Hin|Hnin]; [by apply S2|].
    rewrite F2; [by apply S1|].
    intros (y & [= ->] & Hy)%list_elem_of_fmap. done.
  - intros k Hk. rewrite fmap_app in Hk.
    apply not_elem_of_app in Hk as [H1 H2]. by rewrite F2, F1.
  - lia.
  - by etrans.
Qed.

Lemma sync_step_post_emit (e : event) (w : world (gmap (str * str) str)) :
  is_request e = false →
  step_post [] 0 w (World (store w) (trace w ++ [e])).
Proof.
  intros He. split_and!; [by intros src ?%elem_of_nil|done| |].
  - unfold nreq, requests. simpl. rewrite filter_app, length_app.
    rewrite filter_cons_False by (by rewrite He). simpl. lia.
  - by apply prefix_app_r.
Qed.

Lemma step_post_assign (src v : str) (w : world (gmap (str * str) str)) :
  step_post [src] 0 w (World (<[(lang, src) := v]> (store w)) (trace w)).
Proof.
  split_and!; [| |unfold nreq; simpl; lia|done].
  - intros s ->%list_elem_of_singleton. simpl. rewrite lookup_insert_eq.
    by eexists.
  - intros k Hk. simpl. rewrite lookup_insert_ne; [done|].
    intros <-. apply Hk. rewrite fmap_cons. by left.
Qed.

Lemma step_post_request (tx : str) (w : world (gmap (str * str) str)) :
  step_post [] 1 w (World (store w) (trace w ++ [Request lang tx])).
Proof.
  split_and!; [by intros src ?%elem_of_nil|done| |by apply prefix_app_r].
  rewrite nreq_after_request. lia.
Qed.

Lemma sync_assign_pairs (pairs : list (str * str)) (w : world (gmap (str * str) str)) :
  ∃ w', for_each (λ p, assign lang p.1 (strip p.2)) pairs w = (Ok (), w')
        ∧ step_post pairs.*1 0 w w'.
Proof.
  revert w. induction pairs as [|p pairs IH]; intros w.
  - exists w. split; [done|apply step_post_refl].
  - destruct (IH (World (<[(lang, p.1) := strip p.2]> (store w)) (trace w)))
      as (w' & E & H).
    exists w'. split; [by simpl; unfold bind, assign, modify; simpl|].
    apply (sync_step_post_trans [p.1] pairs.*1 0 0 w _ w'
             (step_post_assign p.1 (strip p.2) w) H).
Qed.

Lemma fallback_one_step (src : str) (w : world (gmap (str * str) str)) :
  ∃ w', fallback_one net lang src w = (Ok (), w') ∧ step_post [src] 1 w w'.
Proof.
  unfold fallback_one, translate_google, try_except, bind, request, assign,
    modify, sleep, emit, ret. simpl.
  set (w0 := World (store w) (trace w ++ [Request lang src])).
  pose proof (step_post_request src w) as H0. fold w0 in H0.
  destruct (net (nreq w) lang src) as [body|]; eexists; (split; [done|]).
  - pose proof (sync_step_post_trans _ _ _ _ _ _ _
                  (sync_step_post_trans _ _ _ _ _ _ _ H0
                     (step_post_assign src (strip body) w0))
                  (sync_step_post_emit (Sleep 80) _ eq_refl)) as H.
    exact H.
  - exact (sync_step_post_trans _ _ _ _ _ _ _ H0 (step_post_assign src src w0)).
Qed.

Lemma sync_fallback_chunk (chunk : list str) (w : world (gmap (str * str) str)) :
  ∃ w', for_each (fallback_one net lang) chunk w = (Ok (), w')
        ∧ step_post chunk (length chunk) w w'.
Proof.
  revert w. induction chunk as [|src chunk IH]; intros w.
  - exists w. split; [done|apply step_post_refl].
  - destruct (fallback_one_step src w) as (w1 & E1 & H1).
    destruct (IH w1) as (w' & E & H).
    exists w'. split; [by simpl; unfold bind; rewrite E1|].
    apply (sync_step_post_trans [src] chunk 1 (length chunk) w w1 w' H1 H).
Qed.

Lemma sync_process_chunk_step (chunk : list str) (w : world (gmap (str * str) str)) :
  ∃ w', process_chunk net lang chunk w = (Ok (), w')
        ∧ step_post chunk (1 + length chunk) w w'.
Proof.
  set (w0 := World (store w) (trace w ++ [Request lang (join sep chunk)])).
  pose proof (step_post_request (join sep chunk) w) as H0. fold w0 in H0.
  assert (∀ w1, step_post chunk (length chunk) w0 w1 →
            step_post chunk (1 + length chunk) w
              (World (store w1) (trace w1 ++ [Sleep 60]))) as Hend.
  { intros w1 H1.
    pose proof (sync_step_post_trans _ _ _ _ _ _ _
                  (sync_step_post_trans _ _ _ _ _ _ _ H0 H1)
                  (sync_step_post_emit (Sleep 60) w1 eq_refl)) as H.
    by rewrite app_nil_r, Nat.add_0_r in H. }
  unfold process_chunk, translate_google, try_except, bind at 1 2 3, request, ret.
  simpl. fold w0.
  destruct (net (nreq w) lang (join sep chunk)) as [body|] eqn:Hnet.
  - destruct (decide (length (split (strip body) sep) = length chunk)) as [Hl|Hl].
    + destruct (sync_assign_pairs (zip chunk (split (strip body) sep)) w0)
        as (w1 & E1 & H1).
      rewrite fst_zip in H1 by lia.
      exists (World (store w1) (trace w1 ++ [Sleep 60])). split.
      * apply Nat.eqb_eq in Hl. rewrite Hl. simpl. by rewrite E1.
      * apply Hend. destruct H1 as (? & ? & ? & ?). split_and!; [done|done|lia|done].
    + apply Nat.eqb_neq in Hl. rewrite Hl. simpl.
      destruct (sync_fallback_chunk chunk w0) as (w1 & E1 & H1).
      exists (World (store w1) (trace w1 ++ [Sleep 60])). split.
      * unfold bind. by rewrite E1.
      * by apply Hend.
  - destruct (sync_fallback_chunk chunk w0) as (w1 & E1 & H1).
    exists (World (store w1) (trace w1 ++ [Sleep 60])). split.
    + unfold bind. by rewrite E1.
    + by apply Hend.
Qed.

Lemma sync_process_batches (bs : list (list str)) (w : world (gmap (str * str) str)) :
  ∃ w', for_each (process_chunk net lang) bs w = (Ok (), w')
        ∧ step_post (concat bs) (length bs + length (concat bs)) w w'.
Proof.
  revert w. induction bs as [|b bs IH]; intros w.
  - exists w. split; [done|apply step_post_refl].
  - destruct (sync_process_chunk_step b w) as (w1 & E1 & H1).
    destruct (IH w1) as (w' & E & H).
    exists w'. split; [by simpl; unfold bind; rewrite E1|].
    pose proof (sync_step_post_trans _ _ _ _ w w1 w' H1 H) as (S1 & F & N & P).
    split_and!; [done|done| |done].
    simpl. rewrite length_app. lia.
Qed.

Lemma collect_spec (cache : gmap (str * str) str) (texts : list str)
  (seen : gset str) :
  NoDup (collect lang cache seen texts)
  ∧ ∀ t, t ∈ collect lang cache seen texts ↔
         t ∈ texts ∧ cache !! (lang, t) = None ∧ t ∉ seen.
Proof.
  revert seen. induction texts as [|x texts IH]; intros seen; simpl.
  - split; [constructor|]. intros t. rewrite elem_of_nil. tauto.
  - destruct (IH seen) as (Hnd & Hin).
    case_bool_decide as Hc.
    { split; [done|]. intros t. rewrite Hin, elem_of_cons. split; [tauto|].
      intros ([->|?] & Hn & ?); [|tauto]. by apply eq_None_not_Some in Hn. }
    case_bool_decide as Hs.
    { split; [done|]. intros t. rewrite Hin, elem_of_cons. split; [tauto|].
      intros ([->|?] & ? & ?); tauto. }
    destruct (IH ({[x]} ∪ seen)) as (Hnd' & Hin').
    split.
    + constructor; [|done]. rewrite Hin'. set_solver.
    + intros t. rewrite elem_of_cons, Hin', elem_of_cons.
      destruct (decide (t = x)) as [->|Hnx].
      * split; [|tauto]. intros _. split_and!; [tauto| |done].
        by apply eq_None_not_Some.
      * set_solver.
Qed.

Lemma comprehension_total (cache : gmap (str * str) str) (texts : list str)
  (acc : gmap str str) :
  (∀ t, t ∈ texts → is_Some (cache !! (lang, t))) →
  ∃ out, comprehension lang cache texts acc = Some out
         ∧ ∀ t, out !! t = if decide (t ∈ texts) then cache !! (lang, t)
                           else acc !! t.
Proof.
  revert acc. induction texts as [|x texts IH]; intros acc Hall.
  - exists acc. split; [done|]. intros t. case_decide as H; [|done].
    by apply elem_of_nil in H.
  - destruct (Hall x) as [v Hv]; [by left|].
    destruct (IH (<[x := v]> acc)) as (out & E & Hout).
    { intros t Ht. apply Hall. by right. }
    exists out. split; [by simpl; rewrite Hv|].
    intros t. rewrite Hout.
    destruct (decide (t ∈ texts)) as [Ht|Ht].
    + rewrite decide_True by (by right). done.
    + destruct (decide (t = x)) as [->|Hne].
      * rewrite decide_True by (by left). by rewrite lookup_insert_eq.
      * rewrite decide_False by (by intros [?|?]%elem_of_cons).
        by rewrite lookup_insert_ne.
Qed.
End Facts.
End SyncMore.

(** [batch_translate] of sync_translate_from_source.py always returns:
    the dictionary comprehension that ends it never meets a missing key.
    The result maps exactly the given texts, each to its cache entry for
    the language; entries that were in the cache before the call keep
    their value (cached texts are not requested again), and the call makes
    at most two requests per text that was not cached. *)
Theorem sync_batch_translate_finds_every_key :
  ∀ (net : service) (texts : list str) (lang : str)
    (w : world (gmap (str * str) str)),
    ∃ out w',
      SyncBatch.batch_translate net texts lang w = (Ok out, w')
      ∧ (∀ t, out !! t = if decide (t ∈ texts) then store w' !! (lang, t)
                         else None)
      ∧ (∀ t, t ∈ texts → is_Some (out !! t))
      ∧ store w ⊆ store w'
      ∧ (nreq w' ≤ nreq w
                   + 2 * length (SyncBatch.collect lang (store w) ∅ texts))%nat
      ∧ trace w `prefix_of` trace w'.
Proof.
  intros net texts lang w.
  unfold SyncBatch.batch_translate. unfold bind at 1, get at 1. cbv zeta.
  cbn [store]. rewrite BatcherFacts.chunk_loop_all.
  set (uniq := SyncBatch.collect lang (store w) ∅ texts).
  set (bs := Batcher.batches SyncBatch.max_items SyncBatch.max_len
               SyncBatch.sep uniq).
  destruct (SyncMore.sync_process_batches net lang bs w) as (w' & E & S1 & F & N & P).
  assert (concat bs = uniq) as Hc by apply BatcherFacts.batches_concat.
  rewrite Hc in S1, F, N.
  pose proof (concat_length_nonempty bs
                (BatcherFacts.batches_nonempty _ _ _ uniq)) as Hlen.
  rewrite Hc in Hlen.
  destruct (SyncMore.collect_spec lang (store w) texts ∅) as (_ & Hin).
  fold uniq in Hin.
  assert (store w ⊆ store w') as Hsub.
  { apply map_subseteq_spec. intros k v Hk. rewrite F; [done|].
    intros (t & -> & Ht%Hin)%list_elem_of_fmap.
    destruct Ht as (_ & Hn & _). congruence. }
  assert (∀ t, t ∈ texts → is_Some (store w' !! (lang, t))) as Hall.
  { intros t Ht. destruct (store w !! (lang, t)) as [v|] eqn:Hv.
    - exists v. by eapply lookup_weaken.
    - apply S1, Hin. split_and!; [done|done|apply not_elem_of_empty]. }
  destruct (SyncMore.comprehension_total lang (store w') texts ∅ Hall)
    as (out & Eo & Hout).
  exists out, w'. split_and!.
  - unfold bind at 1. rewrite E. unfold bind, get. cbn [store]. by rewrite Eo.
  - intros t. rewrite Hout. case_decide; [done|apply lookup_empty].
  - intros t Ht. rewrite Hout, decide_True by done. by apply Hall.
  - done.
  - lia.
  - done.
Qed.

(** ** String literals of inline scripts *)

Module LiteralFacts.
Import JsLiterals.

Lemma lit_end_bound_aux (q : N) (n : nat) :
  ∀ (s : str) (k : nat), (length s ≤ n)%nat → lit_end q s = Some k →
    (0 < k ≤ length s)%nat ∧ s !! (k - 1)%nat = Some q.
Proof.
  induction n as [|n IH]; intros s k Hn.
  - destruct s; [done|simpl in Hn; lia].
  - destruct s as [|c t]; [done|]. simpl in Hn.
    cbn [lit_end]. destruct (N.eqb_spec c q) as [->|Hcq].
    + intros [= <-]. simpl. split; [lia|done].
    + cbv zeta.
      assert (∀ k, S <$> lit_end q t = Some k →
                (0 < k ≤ length (c :: t))%nat
                ∧ (c :: t) !! (k - 1)%nat = Some q) as Hsingle.
      { intros k' Hk'. destruct (lit_end q t) as [j|] eqn:E; [|done].
        injection Hk' as <-. destruct (IH t j ltac:(lia) E) as [Hj Hq].
        simpl. split; [lia|]. rewrite Nat.sub_0_r.
        destruct j as [|j]; [lia|]. simpl in Hq.
        by rewrite Nat.sub_0_r in Hq. }
      destruct (c =? 92); [|by apply Hsingle].
      destruct t as [|d t']; [by apply Hsingle|].
      destruct (lit_end q t') as [j|] eqn:E; [|by apply Hsingle].
      simpl. intros [= <-]. simpl in Hn.
      destruct (IH t' j ltac:(lia) E) as [Hj Hq].
      split; [simpl; lia|]. destruct j as [|j]; [lia|].
      simpl in Hq. by rewrite Nat.sub_0_r in Hq.
Qed.

Lemma lit_end_bound (q : N) (s : str) (k : nat) :
  lit_end q s = Some k → (0 < k ≤ length s)%nat ∧ s !! (k - 1)%nat = Some q.
Proof. by apply (lit_end_bound_aux q (length s)). Qed.

Lemma lit_end_found (q : N) (s : str) : q ∈ s → is_Some (lit_end q s).
Proof.
  induction s as [|c t IH]; [by intros ?%elem_of_nil|].
  intros Hin. cbn [lit_end]. destruct (N.eqb_spec c q) as [->|Hcq]; [by eexists|].
  apply elem_of_cons in Hin as [->|Hin]; [done|].
  destruct (IH Hin) as [j Hj]. cbv zeta.
  destruct (if c =? 92 then _ else _); [by eexists|].
  rewrite Hj. by eexists.
Qed.

(** What the two escaping functions do to one character. *)
Definition escaped (q : N) (c : N) : str :=
  if c =? 92 then [92; 92] else if c =? q then [92; q] else [c].
Definition escaped_nl (q : N) (c : N) : str :=
  if c =? 92 then [92; 92] else if c =? q then [92; q]
  else if c =? 10 then [92; 110] else if c =? 13 then [92; 114] else [c].

Lemma replace_char_bind (old : N) (new : str) (f : N → str) (t : str) :
  replace_char old new (t ≫= f)
  = t ≫= (λ c, replace_char old new (f c)).
Proof.
  unfold replace_char. induction t as [|c t IH]; [done|].
  cbn [mbind list_bind]. rewrite bind_app. f_equal. exact IH.
Qed.

Lemma bind_ext_str (f g : N → str) (t : str) :
  (∀ c, f c = g c) → t ≫= f = t ≫= g.
Proof.
  intros H. induction t as [|c t IH]; [done|].
  cbn [mbind list_bind]. by rewrite H, IH.
Qed.

Lemma escape_js_literal_chars (q : N) (t : str) :
  q = 39 ∨ q = 34 →
  CompleteExisting.escape_js_literal t [q] = t ≫= escaped q.
Proof.
  intros Hq. unfold CompleteExisting.escape_js_literal. cbv zeta.
  change (replace_char 92 [92; 92] t)
    with (t ≫= (λ c, if c =? 92 then [92; 92] else [c])).
  destruct Hq as [-> | ->].
  - rewrite bool_decide_eq_true_2 by done.
    rewrite replace_char_bind. apply bind_ext_str. intros c.
    unfold escaped, replace_char.
    destruct (N.eqb_spec c 92) as [->|H92]; [done|]. simpl.
    by destruct (c =? 39).
  - rewrite bool_decide_eq_false_2 by done.
    rewrite replace_char_bind. apply bind_ext_str. intros c.
    unfold escaped, replace_char.
    destruct (N.eqb_spec c 92) as [->|H92]; [done|]. simpl.
    by destruct (c =? 34).
Qed.

Lemma escape_js_chars (q : N) (t : str) :
  q = 39 ∨ q = 34 →
  FixArabicJs.escape_js t [q] = t ≫= escaped_nl q.
Proof.
  intros Hq. unfold FixArabicJs.escape_js. cbv zeta.
  change (replace_char 92 [92; 92] t)
    with (t ≫= (λ c, if c =? 92 then [92; 92] else [c])).
  destruct Hq as [-> | ->].
  - rewrite bool_decide_eq_true_2 by done.
    rewrite !replace_char_bind. apply bind_ext_str. intros c.
    unfold escaped_nl, replace_char.
    destruct (N.eqb_spec c 92) as [->|H92]; [done|]. simpl.
    destruct (N.eqb_spec c 39) as [->|H39]; [done|]. simpl.
    destruct (N.eqb_spec c 10) as [->|H10]; [done|]. simpl.
    by destruct (N.eqb_spec c 13) as [->|H13].
  - rewrite bool_decide_eq_false_2 by done.
    rewrite !replace_char_bind. apply bind_ext_str. intros c.
    unfold escaped_nl, replace_char.
    destruct (N.eqb_spec c 92) as [->|H92]; [done|]. simpl.
    destruct (N.eqb_spec c 34) as [->|H34]; [done|]. simpl.
    destruct (N.eqb_spec c 10) as [->|H10]; [done|]. simpl.
    by destruct (N.eqb_spec c 13) as [->|H13].
Qed.

(** A text made of escaped characters and followed by the quote is read
    up to that quote. *)
Lemma lit_end_escaped (q : N) (f : N → str) (t rest : str) :
  q ≠ 92 →
  (∀ c, (∃ d, f c = [92; d]) ∨ (f c = [c] ∧ c ≠ 92 ∧ c ≠ q)) →
  lit_end q ((t ≫= f) ++ q :: rest) = Some (length (t ≫= f) + 1)%nat.
Proof.
  intros Hq Hf. induction t as [|c t IH].
  - simpl. by rewrite N.eqb_refl.
  - cbn [mbind list_bind]. rewrite <- app_assoc, length_app.
    destruct (Hf c) as [[d ->]|(-> & H92 & Hcq)].
    + cbn [app lit_end length].
      rewrite (proj2 (N.eqb_neq 92 q)) by done.
      rewrite N.eqb_refl. cbv zeta.
      change (mbind f t) with (t ≫= f) in *. rewrite IH. simpl. done.
    + cbn [app lit_end length].
      rewrite (proj2 (N.eqb_neq c q)) by done.
      rewrite (proj2 (N.eqb_neq c 92)) by done. cbv zeta.
      change (mbind f t) with (t ≫= f) in *. rewrite IH. simpl. done.
Qed.

Lemma escaped_shape (q c : N) :
  (∃ d, escaped q c = [92; d]) ∨ (escaped q c = [c] ∧ c ≠ 92 ∧ c ≠ q).
Proof.
  unfold escaped. destruct (N.eqb_spec c 92); [left; by eexists|].
  destruct (N.eqb_spec c q); [left; by eexists|]. by right.
Qed.

Lemma escaped_nl_shape (q c : N) :
  (∃ d, escaped_nl q c = [92; d]) ∨ (escaped_nl q c = [c] ∧ c ≠ 92 ∧ c ≠ q).
Proof.
  unfold escaped_nl. destruct (N.eqb_spec c 92); [left; by eexists|].
  destruct (N.eqb_spec c q); [left; by eexists|].
  destruct (c =? 10); [left; by eexists|].
  destruct (c =? 13); [left; by eexists|]. by right.
Qed.

Lemma finditer_aux_skip (skip pos : nat) (s : str) :
  (length s ≤ skip)%nat → finditer_aux skip pos s = [].
Proof.
  revert skip pos. induction s as [|c t IH]; intros skip pos H; [done|].
  simpl in H. destruct skip as [|k]; [lia|]. simpl. apply IH. lia.
Qed.

Lemma finditer_one_literal (q : N) (body : str) :
  is_quote q = true →
  lit_end q (body ++ [q]) = Some (length body + 1)%nat →
  finditer (q :: body ++ [q]) = [(0, length (q :: body ++ [q]))%nat].
Proof.
  intros Hq H. unfold finditer. cbn [finditer_aux]. rewrite Hq, H.
  rewrite finditer_aux_skip by (rewrite length_app; simpl; lia).
  do 2 f_equal. simpl. rewrite length_app. simpl. lia.
Qed.

(** *** Masking *)

Definition is_newline (c : N) : bool := c =? 10.

Lemma mask_index_keeps (cs : str) (i : nat) :
  let cs' := match cs !! i with
             | Some c => if c =? 10 then cs else <[i := 32]> cs
             | None => cs
             end in
  length cs' = length cs ∧ is_newline <$> cs' = is_newline <$> cs.
Proof.
  cbv zeta. destruct (cs !! i) as [c|] eqn:E; [|done].
  destruct (c =? 10) eqn:Ec; [done|]. split; [apply length_insert|].
  rewrite list_fmap_insert. apply list_insert_id.
  rewrite list_lookup_fmap, E. simpl. unfold is_newline. by rewrite Ec.
Qed.

Lemma mask_span_keeps (cs : str) (span : nat * nat) :
  length (mask_span cs span) = length cs
  ∧ is_newline <$> mask_span cs span = is_newline <$> cs.
Proof.
  unfold mask_span. generalize (seq span.1 (span.2 - span.1)) as idx.
  intros idx. revert cs. induction idx as [|i idx IH]; intros cs; [done|].
  cbn [foldl]. destruct (mask_index_keeps cs i) as [H1 H2].
  destruct (IH (match cs !! i with
                | Some c => if c =? 10 then cs else <[i := 32]> cs
                | None => cs
                end)) as [H3 H4].
  split; congruence.
Qed.

Lemma mask_spans_keep (spans : list (nat * nat)) (cs : str) :
  length (foldl mask_span cs spans) = length cs
  ∧ is_newline <$> foldl mask_span cs spans = is_newline <$> cs.
Proof.
  revert cs. induction spans as [|sp spans IH]; intros cs; [done|].
  cbn [foldl]. destruct (mask_span_keeps cs sp) as [H1 H2].
  destruct (IH (mask_span cs sp)) as [H3 H4]. split; congruence.
Qed.

Lemma count_newlines (s : str) :
  count (λ c : N, c =? 10) s = length (filter (λ b, b = true) (is_newline <$> s)).
Proof.
  unfold count. induction s as [|c s IH]; [done|].
  rewrite fmap_cons, !filter_cons. change (is_newline c) with (c =? 10).
  repeat case_decide; try congruence; simpl; by rewrite IH.
Qed.

End LiteralFacts.

Module SpanFacts.
Import JsLiterals LiteralFacts.

(** The spans start at or after [lo], follow each other without overlap,
    lie inside [full], and each starts and ends with the same quote. *)
Fixpoint spans_ok (full : str) (lo : nat) (spans : list (nat * nat)) : Prop :=
  match spans with
  | [] => True
  | (a, b) :: spans' =>
      (lo ≤ a)%nat ∧ (a + 2 ≤ b ≤ length full)%nat
      ∧ (∃ q, is_quote q = true ∧ full !! a = Some q
              ∧ full !! (b - 1)%nat = Some q)
      ∧ spans_ok full b spans'
  end.

Lemma spans_ok_weaken (full : str) (lo lo' : nat) (spans : list (nat * nat)) :
  (lo' ≤ lo)%nat → spans_ok full lo spans → spans_ok full lo' spans.
Proof.
  destruct spans as [|[a b] spans]; [done|].
  simpl. intros Hlo (H1 & H2 & H3 & H4). split_and!; [lia|lia|lia|done|done].
Qed.

Lemma finditer_aux_ok (s pre : str) (skip : nat) :
  spans_ok (pre ++ s) (length pre + skip)
    (finditer_aux skip (length pre) s).
Proof.
  revert pre skip. induction s as [|c t IH]; intros pre skip; [done|].
  assert (pre ++ c :: t = (pre ++ [c]) ++ t) as Efull
    by (by rewrite <- app_assoc).
  assert (S (length pre) = length (pre ++ [c])) as Epos
    by (rewrite length_app; simpl; lia).
  cbn [finditer_aux]. destruct skip as [|k].
  - destruct (is_quote c) eqn:Hq.
    + destruct (lit_end c t) as [k|] eqn:Hk.
      * destruct (lit_end_bound c t k Hk) as [Hb Hlast].
        cbn [spans_ok]. split_and!.
        -- lia.
        -- lia.
        -- rewrite length_app. simpl. lia.
        -- exists c. split_and!; [done| |].
           ++ by rewrite lookup_app_r, Nat.sub_diag by lia.
           ++ rewrite lookup_app_r by lia.
              replace (length pre + 1 + k - 1 - length pre)%nat
                with (S (k - 1)) by lia.
              done.
        -- rewrite Efull, Epos.
           replace (length pre + 1 + k)%nat
             with (length (pre ++ [c]) + k)%nat
             by (rewrite length_app; simpl; lia).
           apply IH.
      * rewrite Efull, Epos. eapply spans_ok_weaken; [|apply (IH _ 0%nat)].
        rewrite length_app. simpl. lia.
    + rewrite Efull, Epos. eapply spans_ok_weaken; [|apply (IH _ 0%nat)].
      rewrite length_app. simpl. lia.
  - rewrite Efull, Epos.
    replace (length pre + S k)%nat with (length (pre ++ [c]) + k)%nat
      by (rewrite length_app; simpl; lia).
    apply IH.
Qed.

Lemma spans_ok_elem (full : str) (lo : nat) (spans : list (nat * nat))
  (a b : nat) :
  spans_ok full lo spans → (a, b) ∈ spans →
  (lo ≤ a)%nat ∧ (a + 2 ≤ b ≤ length full)%nat
  ∧ ∃ q, is_quote q = true ∧ full !! a = Some q
         ∧ full !! (b - 1)%nat = Some q.
Proof.
  revert lo. induction spans as [|[a0 b0] spans IH]; intros lo H Hin.
  - by apply elem_of_nil in Hin.
  - destruct H as (H1 & H2 & H3 & H4).
    apply elem_of_cons in Hin as [[= -> ->]|Hin]; [done|].
    destruct (IH b0 H4 Hin) as (? & ? & ?). split_and!; [lia|lia|lia|done].
Qed.

Lemma spans_ok_next (full : str) (lo : nat) (spans : list (nat * nat))
  (i a b a' b' : nat) :
  spans_ok full lo spans → spans !! i = Some (a, b) →
  spans !! S i = Some (a', b') → (b ≤ a')%nat.
Proof.
  revert lo i. induction spans as [|[a0 b0] spans IH]; intros lo i H; [done|].
  destruct H as (H1 & H2 & H3 & H4). destruct i as [|i]; simpl.
  - intros [= -> ->]. destruct spans as [|[a1 b1] spans]; [done|].
    simpl. intros [= -> ->]. by destruct H4.
  - by apply IH with (lo := b0).
Qed.

Lemma finditer_aux_no_quote (s : str) (skip pos : nat) :
  (∀ c, c ∈ s → is_quote c = false) → finditer_aux skip pos s = [].
Proof.
  revert skip pos. induction s as [|c t IH]; intros skip pos H; [done|].
  assert (∀ c, c ∈ t → is_quote c = false) as Ht
    by (intros d Hd; apply H; by right).
  cbn [finditer_aux]. destruct skip; [|by apply IH].
  rewrite (H c) by (by left). by apply IH.
Qed.
End SpanFacts.

(** The literals that [lit_re.finditer] finds in a script are well
    formed: every span lies inside the text, starts with a quote character
    and ends with the same one, holds at least these two characters, and
    the spans follow each other from left to right without overlap (what
    the slicing [script_text[last:start]] of the rewriting pass relies
    on).  A quote opens a literal exactly when the same quote character
    occurs somewhere after it, and a text without quote characters has no
    literal. *)
Theorem literal_spans_are_well_formed :
  ∀ s : str,
    (∀ a b, (a, b) ∈ JsLiterals.finditer s →
       (a + 2 ≤ b ≤ length s)%nat
       ∧ ∃ q, JsLiterals.is_quote q = true ∧ s !! a = Some q
              ∧ s !! (b - 1)%nat = Some q)
    ∧ (∀ i a b a' b',
         JsLiterals.finditer s !! i = Some (a, b) →
         JsLiterals.finditer s !! S i = Some (a', b') → (b ≤ a')%nat)
    ∧ (∀ q, is_Some (JsLiterals.lit_end q s) ↔ q ∈ s)
    ∧ ((∀ c, c ∈ s → JsLiterals.is_quote c = false) →
       JsLiterals.finditer s = []).
Proof.
  intros s.
  pose proof (SpanFacts.finditer_aux_ok s [] 0) as H.
  simpl in H. fold (JsLiterals.finditer s) in H. split_and!.
  - intros a b Hin.
    by destruct (SpanFacts.spans_ok_elem s 0 _ a b H Hin) as (_ & ? & ?).
  - intros i a b a' b' H1 H2.
    exact (SpanFacts.spans_ok_next s 0 _ i a b a' b' H H1 H2).
  - intros q. split; [|apply LiteralFacts.lit_end_found].
    intros [k Hk]. destruct (LiteralFacts.lit_end_bound q s k Hk) as [_ Hq].
    by eapply list_elem_of_lookup_2.
  - apply SpanFacts.finditer_aux_no_quote.
Qed.

(** [mask_js_strings] keeps the layout of the script: the masked text
    has the same length, it has a newline exactly where the script has
    one, and therefore [line_of] gives the same line for every offset on
    either text, so that the positions found in the masked text name the
    right lines of the file. *)
Theorem masking_keeps_length_and_lines :
  ∀ s : str,
    length (JsLiterals.mask_js_strings s) = length s
    ∧ (∀ i, JsLiterals.mask_js_strings s !! i = Some 10 ↔ s !! i = Some 10)
    ∧ (∀ offset, JsLiterals.line_of (JsLiterals.mask_js_strings s) offset
                 = JsLiterals.line_of s offset).
Proof.
  intros s. unfold JsLiterals.mask_js_strings.
  destruct (LiteralFacts.mask_spans_keep (JsLiterals.finditer s) s) as [Hl Hn].
  set (m := foldl JsLiterals.mask_span s (JsLiterals.finditer s)) in *.
  assert (∀ (x y : str) i,
            LiteralFacts.is_newline <$> x = LiteralFacts.is_newline <$> y →
            x !! i = Some 10 → y !! i = Some 10) as Hpos.
  { intros x y i Hxy Hx.
    assert ((LiteralFacts.is_newline <$> y) !! i = Some true) as Hy.
    { rewrite <- Hxy, list_lookup_fmap, Hx. done. }
    rewrite list_lookup_fmap in Hy.
    destruct (y !! i) as [c|]; [|done]. simpl in Hy.
    injection Hy as Hy. unfold LiteralFacts.is_newline in Hy.
    by apply N.eqb_eq in Hy as ->. }
  split_and!.
  - done.
  - intros i. split; by apply Hpos.
  - intros offset. unfold JsLiterals.line_of. f_equal.
    rewrite !LiteralFacts.count_newlines, !fmap_take. by rewrite Hn.
Qed.

(** A translation spliced back into a script is read back as one literal:
    for either quote character, the text [quote + escaped + quote] that
    [translate_script_text] and [process_script_block] build is matched by
    [lit_re] as a single literal that spans all of it, whatever the
    translation holds (quotes, backslashes, line breaks). *)
Theorem escaped_translation_is_one_literal (q : N) (translated : str) :
  q = 39 ∨ q = 34 →
  JsLiterals.finditer (CompleteExisting.new_literal translated [q])
  = [(0%nat, length (CompleteExisting.new_literal translated [q]))]
  ∧ JsLiterals.finditer ([q] ++ FixArabicJs.escape_js translated [q] ++ [q])
    = [(0%nat, length ([q] ++ FixArabicJs.escape_js translated [q] ++ [q]))].
Proof.
  intros Hq.
  assert (JsLiterals.is_quote q = true) as Hquote by (by destruct Hq as [-> | ->]).
  assert (q ≠ 92) as H92 by (by destruct Hq as [-> | ->]).
  split.
  - unfold CompleteExisting.new_literal.
    apply (LiteralFacts.finditer_one_literal q _ Hquote).
    rewrite LiteralFacts.escape_js_literal_chars by done.
    apply LiteralFacts.lit_end_escaped; [done|apply LiteralFacts.escaped_shape].
  - apply (LiteralFacts.finditer_one_literal q _ Hquote).
    rewrite LiteralFacts.escape_js_chars by done.
    apply LiteralFacts.lit_end_escaped; [done|apply LiteralFacts.escaped_nl_shape].
Qed.

Lemma escaped_translation_is_one_literal_witness :
  JsLiterals.finditer (CompleteExisting.new_literal (lit "it's a\b") [39])
  = [(0%nat, length (CompleteExisting.new_literal (lit "it's a\b") [39]))]
  ∧ JsLiterals.finditer
      ([39] ++ FixArabicJs.escape_js (lit "it's a\b") [39] ++ [39])
    = [(0%nat,
        length ([39] ++ FixArabicJs.escape_js (lit "it's a\b") [39] ++ [39]))].
Proof.
  apply (escaped_translation_is_one_literal 39 (lit "it's a\b")). by left.
Defined.

(** [escape_js] of fix_arabic_js_strings.py never leaves a raw line
    break: its result holds no newline and no carriage return, whatever
    the quote.  On a text without line breaks it gives what
    [escape_js_literal] of complete_existing_course_translations.py
    gives. *)
Theorem escape_js_leaves_no_line_break :
  ∀ text quote : str,
    (10 ∉ FixArabicJs.escape_js text quote)
    ∧ (13 ∉ FixArabicJs.escape_js text quote)
    ∧ (10 ∉ text → 13 ∉ text →
       FixArabicJs.escape_js text quote
       = CompleteExisting.escape_js_literal text quote).
Proof.
  intros text quote. unfold FixArabicJs.escape_js. cbv zeta.
  set (t1 := replace_char 92 [92; 92] text).
  set (t2 := if bool_decide (quote = [39]) then replace_char 39 [92; 39] t1
             else replace_char 34 [92; 34] t1).
  assert (∀ x, x ∉ [92; 92] → x ∉ [92; 39] → x ∉ [92; 34] →
               x ∉ text → x ∉ t2) as Hkeep.
  { intros x H1 H2 H3 Hx. unfold t2, t1.
    destruct (bool_decide _);
      apply StrFacts.replace_char_keeps_absent; try done;
      by apply StrFacts.replace_char_keeps_absent. }
  split_and!.
  - apply StrFacts.replace_char_keeps_absent.
    + rewrite !not_elem_of_cons. split_and!; [done|done|apply not_elem_of_nil].
    + apply StrFacts.replace_char_gone.
      rewrite !not_elem_of_cons. split_and!; [done|done|apply not_elem_of_nil].
  - apply StrFacts.replace_char_gone.
    rewrite !not_elem_of_cons. split_and!; [done|done|apply not_elem_of_nil].
  - intros H10 H13.
    assert (∀ x : N, x ≠ 92 → x ≠ 39 → x ≠ 34 → x ∉ text → x ∉ t2) as Hk.
    { intros x ? ? ? Hx. apply Hkeep; [| | |done];
        rewrite !not_elem_of_cons; split_and!; try done; apply not_elem_of_nil. }
    rewrite (StrFacts.replace_char_absent 10) by (by apply Hk).
    rewrite (StrFacts.replace_char_absent 13) by (by apply Hk).
    done.
Qed.

(** ** The answer to a batch, part by part *)

Module AssignFacts.
Import TraceFacts RunFacts ClientFacts.

Lemma for_each_modify {C A} (g : A → C → C) (l : list A) (w : world C) :
  for_each (λ x, modify (g x)) l w
  = (Ok (), World (foldl (λ c x, g x c) (store w) l) (trace w)).
Proof.
  revert w. induction l as [|x l IH]; intros w; [by destruct w|].
  cbn [for_each foldl]. unfold bind, modify at 1. by rewrite IH.
Qed.

Section Zip.
Context {K : Type} `{Countable K} {V : Type}.
Variables (key : str → K) (value : str → str → V).
Hypothesis key_inj : ∀ x y, key x = key y → x = y.

Definition assign_all (m : gmap K V) (pairs : list (str * str)) : gmap K V :=
  foldl (λ m p, <[key p.1 := value p.1 p.2]> m) m pairs.

Lemma assign_all_other (pairs : list (str * str)) (m : gmap K V) (k : K) :
  k ∉ key <$> pairs.*1 → assign_all m pairs !! k = m !! k.
Proof.
  revert m. induction pairs as [|p pairs IH]; intros m; [done|].
  rewrite !fmap_cons. intros [Hk Hnin]%not_elem_of_cons.
  cbn [assign_all foldl]. fold (assign_all (<[key p.1 := value p.1 p.2]> m) pairs).
  rewrite IH by done. by rewrite lookup_insert_ne.
Qed.

Lemma assign_all_at (chunk parts : list str) (m : gmap K V) (i : nat)
  (src part : str) :
  NoDup chunk → chunk !! i = Some src → parts !! i = Some part →
  assign_all m (zip chunk parts) !! key src = Some (value src part).
Proof.
  revert parts m i. induction chunk as [|c chunk IH]; intros parts m i Hnd; [done|].
  apply NoDup_cons in Hnd as [Hc Hnd].
  destruct parts as [|p parts]; [by destruct i|].
  cbn [zip zip_with assign_all foldl].
  fold (assign_all (<[key c := value c p]> m) (zip chunk parts)).
  destruct i as [|i]; simpl.
  - intros [= ->] [= ->]. rewrite assign_all_other; [apply lookup_insert_eq|].
    intros (y & Hy & Hin)%list_elem_of_fmap. apply key_inj in Hy as <-.
    apply Hc. apply list_elem_of_fmap in Hin as ([a b] & -> & Hab).
    by apply elem_of_zip_l in Hab.
  - by apply IH.
Qed.

Lemma assign_all_frame (chunk parts : list str) (m : gmap K V) (k : K) :
  k ∉ key <$> chunk → assign_all m (zip chunk parts) !! k = m !! k.
Proof.
  intros Hk. apply assign_all_other.
  intros (y & -> & Hin)%list_elem_of_fmap. apply Hk, list_elem_of_fmap.
  exists y. split; [done|].
  apply list_elem_of_fmap in Hin as ([a b] & -> & Hab).
  by apply elem_of_zip_l in Hab.
Qed.
End Zip.
End AssignFacts.

(** When the answer to a joined batch splits into as many parts as the
    batch has phrases, [batch_translate] of
    batch_translate_visible_nodes.py and of sync_translate_from_source.py
    makes that one request only and gives the i-th phrase the i-th part,
    stripped, as its translation, also when that part is empty; entries of
    other keys are not touched. *)
Theorem split_answer_is_assigned_in_order :
  (∀ (net : service) (lang : str) (chunk : list str)
     (w : world (gmap str str)) (body : str),
     NoDup chunk →
     net (nreq w) lang (join BatchVisible.sep chunk) = Some body →
     length (split (strip body) BatchVisible.sep) = length chunk →
     ∃ w',
       BatchVisible.process_chunk net lang chunk w = (Ok (), w')
       ∧ trace w' = trace w ++ [Request lang (join BatchVisible.sep chunk);
                                Sleep 60]
       ∧ (∀ i src part,
            chunk !! i = Some src →
            split (strip body) BatchVisible.sep !! i = Some part →
            store w' !! src = Some (strip part))
       ∧ (∀ k, k ∉ chunk → store w' !! k = store w !! k))
  ∧ (∀ (net : service) (lang : str) (chunk : list str)
       (w : world (gmap (str * str) str)) (body : str),
       NoDup chunk →
       net (nreq w) lang (join SyncBatch.sep chunk) = Some body →
       length (split (strip body) SyncBatch.sep) = length chunk →
       ∃ w',
         SyncBatch.process_chunk net lang chunk w = (Ok (), w')
         ∧ trace w' = trace w ++ [Request lang (join SyncBatch.sep chunk);
                                  Sleep 60]
         ∧ (∀ i src part,
              chunk !! i = Some src →
              split (strip body) SyncBatch.sep !! i = Some part →
              store w' !! (lang, src) = Some (strip part))
         ∧ (∀ k, k ∉ pair lang <$> chunk → store w' !! k = store w !! k)).
Proof.
  split.
  - intros net lang chunk w body Hnd Hnet Hlen.
    eexists. split.
    { unfold BatchVisible.process_chunk, BatchVisible.translate_google,
        try_except, bind at 1 2 3, request, ret.
      simpl. rewrite Hnet. apply Nat.eqb_eq in Hlen. rewrite Hlen.
      unfold BatchVisible.assign.
      rewrite (AssignFacts.for_each_modify
                 (λ (p : str * str) (out : gmap str str), <[p.1 := strip p.2]> out)).
      done. }
    cbn [store trace]. split_and!.
    + by rewrite <- app_assoc.
    + intros i src part Hs Hp.
      apply (AssignFacts.assign_all_at id (λ _ p, strip p)
               (λ x y E, E) chunk _ (store w) i src part Hnd Hs Hp).
    + intros k Hk.
      apply (AssignFacts.assign_all_frame id (λ _ p, strip p) chunk _ (store w) k).
      by rewrite list_fmap_id.
  - intros net lang chunk w body Hnd Hnet Hlen.
    eexists. split.
    { unfold SyncBatch.process_chunk, SyncBatch.translate_google,
        try_except, bind at 1 2 3, request, ret.
      simpl. rewrite Hnet. apply Nat.eqb_eq in Hlen. rewrite Hlen. simpl.
      unfold SyncBatch.assign.
      rewrite (AssignFacts.for_each_modify
                 (λ (p : str * str) (cache : gmap (str * str) str),
                    <[(lang, p.1) := strip p.2]> cache)).
      done. }
    cbn [store trace]. split_and!.
    + by rewrite <- app_assoc.
    + intros i src part Hs Hp.
      apply (AssignFacts.assign_all_at (pair lang) (λ _ p, strip p)
               (λ x y E, f_equal snd E) chunk _ (store w) i src part Hnd Hs Hp).
    + intros k Hk.
      by apply (AssignFacts.assign_all_frame (pair lang) (λ _ p, strip p)
                  chunk _ (store w) k).
Qed.

Lemma split_answer_is_assigned_in_order_witness :
  ∃ w',
    BatchVisible.process_chunk Examples.two_segments Examples.fr
      Examples2.two_phrases (World ∅ []) = (Ok (), w')
    ∧ store w' !! lit "one" = Some (lit "un")
    ∧ store w' !! lit "two" = Some (lit "deux").
Proof.
  destruct (proj1 split_answer_is_assigned_in_order Examples.two_segments
              Examples.fr Examples2.two_phrases (World ∅ [])
              (lit "un<<<SEP_TRANSLATE_9F31>>>deux"))
    as (w' & E & _ & Hat & _).
  - apply (bool_decide_unpack (NoDup Examples2.two_phrases)). by vm_compute.
  - reflexivity.
  - by vm_compute.
  - exists w'. split_and!; [done| |].
    + rewrite (Hat 0%nat (lit "one") (lit "un")); [by vm_compute|done|by vm_compute].
    + rewrite (Hat 1%nat (lit "two") (lit "deux")); [by vm_compute|done|by vm_compute].
Defined.

(** ** complete_arabic_translations.py: the separator variants *)

Module VariantFacts.
Import CompleteArabic.

Lemma first_variant_some (t : str) (n : nat) (vs : list str) (parts : list str) :
  first_variant t n vs = Some parts →
  ∃ sv, sv ∈ vs ∧ parts = split t sv ∧ length parts = n.
Proof.
  induction vs as [|sv vs IH]; [done|]. cbn [first_variant]. cbv zeta.
  destruct (Nat.eqb_spec (length (split t sv)) n) as [E|_].
  - intros [= <-]. exists sv. split_and!; [by left|done|done].
  - intros (sv' & ? & ? & ?)%IH. exists sv'. split_and!; [by right|done|done].
Qed.

Lemma first_variant_none (t : str) (n : nat) (vs : list str) :
  first_variant t n vs = None ↔ Forall (λ sv, length (split t sv) ≠ n) vs.
Proof.
  induction vs as [|sv vs IH]; [by split; [constructor|]|].
  cbn [first_variant]. cbv zeta. rewrite Forall_cons.
  destruct (Nat.eqb_spec (length (split t sv)) n) as [E|E]; [|by rewrite IH; tauto].
  split; [done|]. by intros [? _].
Qed.

Definition all_variants : list str := sep_variants ++ [strip SEP].

Lemma find_parts_some (t : str) (n : nat) (parts : list str) :
  find_parts t n = Some parts →
  ∃ sv, sv ∈ all_variants ∧ parts = split t sv ∧ length parts = n.
Proof.
  unfold find_parts, all_variants.
  destruct (first_variant t n sep_variants) as [ps|] eqn:E.
  - intros [= <-]. destruct (first_variant_some _ _ _ _ E) as (sv & ? & ? & ?).
    exists sv. split_and!; [|done|done]. apply elem_of_app. by left.
  - cbv zeta. destruct (Nat.eqb_spec (length (split t (strip SEP))) n) as [El|_];
      [|done].
    intros [= <-]. exists (strip SEP). split_and!; [|done|done].
    apply elem_of_app. right. by apply list_elem_of_singleton.
Qed.

Lemma first_variant_first (t : str) (n : nat) (vs : list str) (parts : list str) :
  first_variant t n vs = Some parts →
  ∃ pre sv post, vs = pre ++ sv :: post
    ∧ Forall (λ v, length (split t v) ≠ n) pre
    ∧ parts = split t sv ∧ length parts = n.
Proof.
  induction vs as [|v vs IH]; [done|]. cbn [first_variant]. cbv zeta.
  destruct (Nat.eqb_spec (length (split t v)) n) as [E|E].
  - intros [= <-]. by exists [], v, vs.
  - intros (pre & sv & post & -> & Hpre & ? & ?)%IH.
    exists (v :: pre), sv, post. split_and!; [done|by constructor|done|done].
Qed.

Lemma find_parts_first_variant (t : str) (n : nat) :
  find_parts t n = first_variant t n all_variants.
Proof.
  unfold find_parts, all_variants.
  induction sep_variants as [|v vs IH]; [done|].
  cbn [first_variant app]. cbv zeta.
  by destruct (length (split t v) =? n)%nat.
Qed.

Lemma find_parts_none (t : str) (n : nat) :
  find_parts t n = None ↔ Forall (λ sv, length (split t sv) ≠ n) all_variants.
Proof.
  unfold find_parts, all_variants. rewrite Forall_app, <- first_variant_none.
  destruct (first_variant t n sep_variants) as [ps|]; [by split; [|intros []]|].
  cbv zeta. rewrite Forall_singleton.
  destruct (Nat.eqb_spec (length (split t (strip SEP))) n) as [El|El];
    split; try done; by intros [].
Qed.
End VariantFacts.

(** The batch of complete_arabic_translations.py accepts an answer in
    which the service has rewritten the separator: when the stripped
    answer, cut at one of the eight known variants or at the separator
    itself, has as many parts as the batch has phrases, the parts of the
    first such cut are given to the phrases in order (a blank part leaves
    the phrase as its own translation) after that single request.  When no
    cut has the right count, the batch goes through the per-phrase
    fallback. *)
Theorem separator_variants_decide_the_split :
  (∀ (net : service) (chunk : list str) (w : world (gmap str str)) (body : str),
     NoDup chunk → chunk ≠ [] →
     net (nreq w) (lit "ar") (join CompleteArabic.SEP chunk) = Some body →
     Exists (λ sv, length (split (strip body) sv) = length chunk)
       VariantFacts.all_variants →
     ∃ pre sv post w',
       VariantFacts.all_variants = pre ++ sv :: post
       ∧ Forall (λ v, length (split (strip body) v) ≠ length chunk) pre
       ∧ length (split (strip body) sv) = length chunk
       ∧ CompleteArabic.process_chunk net chunk w = (Ok (), w')
       ∧ trace w' = trace w ++ [Request (lit "ar") (join CompleteArabic.SEP chunk);
                                Sleep 80]
       ∧ (∀ i src part,
            chunk !! i = Some src → split (strip body) sv !! i = Some part →
            store w' !! src
            = Some (if nonempty (strip part) then strip part else src))
       ∧ (∀ k, k ∉ chunk → store w' !! k = store w !! k))
  ∧ (∀ (net : service) (chunk : list str) (w : world (gmap str str)) (body : str),
       net (nreq w) (lit "ar") (join CompleteArabic.SEP chunk) = Some body →
       Forall (λ sv, length (split (strip body) sv) ≠ length chunk)
         VariantFacts.all_variants →
       CompleteArabic.process_chunk net chunk w
       = (CompleteArabic.fallback net chunk ;; sleep 80)
           (World (store w)
              (trace w ++ [Request (lit "ar") (join CompleteArabic.SEP chunk)]))).
Proof.
  split.
  - intros net chunk w body Hnd Hne Hnet Hex.
    destruct (CompleteArabic.find_parts (strip body) (length chunk))
      as [parts|] eqn:Ef.
    2:{ apply VariantFacts.find_parts_none in Ef.
        apply Exists_exists in Hex as (sv & Hsv & Hl).
        rewrite Forall_forall in Ef. by destruct (Ef sv Hsv). }
    pose proof Ef as Ef'. rewrite VariantFacts.find_parts_first_variant in Ef'.
    destruct (VariantFacts.first_variant_first _ _ _ _ Ef')
      as (pre & sv & post & Hvs & Hpre & -> & Hl).
    exists pre, sv, post. eexists. split_and!; [done|done|done| | | |].
    + unfold CompleteArabic.process_chunk, try_except, bind at 1 2, request.
      simpl. rewrite Hnet, Ef.
      apply Nat.eqb_eq in Hl. rewrite Hl, andb_true_r.
      assert (nonempty (split (strip body) sv) = true) as ->.
      { apply Nat.eqb_eq in Hl.
        destruct (split (strip body) sv); [|done]. by destruct chunk. }
      rewrite (AssignFacts.for_each_modify
                 (λ (p : str * str) (cache : gmap str str),
                    <[p.1 := if nonempty (strip p.2) then strip p.2 else p.1]> cache)).
      done.
    + cbn [trace]. by rewrite <- app_assoc.
    + intros i src part Hs Hp. cbn [store].
      apply (AssignFacts.assign_all_at id
               (λ s p, if nonempty (strip p) then strip p else s)
               (λ x y E, E) chunk _ (store w) i src part Hnd Hs Hp).
    + intros k Hk. cbn [store].
      apply (AssignFacts.assign_all_frame id
               (λ s p, if nonempty (strip p) then strip p else s)
               chunk _ (store w) k).
      by rewrite list_fmap_id.
  - intros net chunk w body Hnet Hall.
    apply VariantFacts.find_parts_none in Hall.
    unfold CompleteArabic.process_chunk, try_except, bind at 1 2, request.
    simpl. rewrite Hnet, Hall. unfold bind.
    by destruct (CompleteArabicFacts.ca_fallback_total net chunk
                   (World (store w)
                      (trace w ++ [Request (lit "ar")
                                     (join CompleteArabic.SEP chunk)])))
      as ([] & w1 & ->).
Qed.

Lemma separator_variants_decide_the_split_witness :
  ∃ w',
    CompleteArabic.process_chunk Examples2.spaced_separator
      Examples2.two_phrases (World ∅ []) = (Ok (), w')
    ∧ store w' !! lit "one" = Some (lit "un")
    ∧ store w' !! lit "two" = Some (lit "deux").
Proof.
  destruct (proj1 separator_variants_decide_the_split Examples2.spaced_separator
              Examples2.two_phrases (World ∅ []) (lit "un <<< SEP >>> deux"))
    as (pre & sv & post & w' & Hvs & _ & Hl & E & _ & Hat & _).
  - apply (bool_decide_unpack (NoDup Examples2.two_phrases)). by vm_compute.
  - done.
  - reflexivity.
  - apply Exists_cons. right. apply Exists_cons. left. by vm_compute.
  - assert (sv ∈ VariantFacts.all_variants) as Hsv.
    { rewrite Hvs. apply elem_of_app. right. by left. }
    assert (split (strip (lit "un <<< SEP >>> deux")) sv
            = [lit "un "; lit " deux"]) as Hparts.
    { vm_compute in Hsv.
      repeat (apply elem_of_cons in Hsv as [->|Hsv]);
        first [ by apply elem_of_nil in Hsv
              | by vm_compute in Hl
              | by vm_compute ]. }
    rewrite Hparts in Hat. exists w'. split_and!; [done| |].
    + rewrite (Hat 0%nat (lit "one") (lit "un ")); [by vm_compute|done|done].
    + rewrite (Hat 1%nat (lit "two") (lit " deux")); [by vm_compute|done|done].
Defined.

(** ** No empty translation in the caches *)

Module FilledFacts.
Import TraceFacts RunFacts ClientFacts.

(** Every value of the cache is a non-empty string. *)
Definition filled {K} `{Countable K} (w : world (gmap K str)) : Prop :=
  ∀ k v, store w !! k = Some v → v ≠ [].

Lemma filled_insert {K} `{Countable K} (k : K) (v : str) (w : world (gmap K str)) :
  v ≠ [] → filled w → filled (World (<[k := v]> (store w)) (trace w)).
Proof.
  intros Hv Hw k' v'. cbn [store]. rewrite lookup_insert.
  case_decide; [by intros [= <-]|apply Hw].
Qed.

Lemma filled_trace {K} `{Countable K} (w : world (gmap K str)) (tr : list event) :
  filled w → filled (World (store w) tr).
Proof. done. Qed.

Lemma nonempty_true (s : str) : nonempty s = true → s ≠ [].
Proof. by destruct s. Qed.

Lemma keep_or (out src : str) :
  src ≠ [] → (if nonempty out then out else src) ≠ [].
Proof. by destruct out. Qed.

Section Facts.
Variable net : service.

(** complete_arabic_translations.py *)
Lemma ca_attempts_filled (text : str) (range : list N) :
  text ≠ [] → preserves filled (CompleteArabic.attempts net text range).
Proof.
  intros Hne. induction range as [|a range IH]; intros w Hw; [done|].
  rewrite CompleteArabicFacts.ca_attempts_cons.
  destruct (net (nreq w) (lit "ar") text) as [body|].
  - destruct (nonempty (strip body)) eqn:E.
    + simpl. apply (filled_insert text (strip body) (World (store w) _)); [|done].
      by apply nonempty_true.
    + by apply IH.
  - destruct (a =? 2).
    + simpl. by apply (filled_insert text text (World (store w) _)).
    + by apply IH.
Qed.

Lemma ca_translate_google_filled (text : str) :
  preserves filled (CompleteArabic.translate_google net text).
Proof.
  unfold CompleteArabic.translate_google. cbv zeta.
  destruct (nonempty (CompleteArabic.normalize text)) eqn:E; cbn [negb];
    [|apply preserves_ret].
  apply preserves_bind; [apply preserves_get|]. intros cache.
  destruct (cache !! _); [apply preserves_ret|].
  apply ca_attempts_filled. by apply nonempty_true.
Qed.

Lemma ca_fallback_filled (chunk : list str) :
  preserves filled (CompleteArabic.fallback net chunk).
Proof.
  apply preserves_for_each. intros src _.
  apply preserves_bind; [apply ca_translate_google_filled|].
  intros _. by apply preserves_emit.
Qed.

Lemma ca_process_chunk_filled (chunk : list str) :
  Forall (λ src, src ≠ []) chunk →
  preserves filled (CompleteArabic.process_chunk net chunk).
Proof.
  intros Hne. unfold CompleteArabic.process_chunk. cbv zeta.
  apply preserves_bind; [|intros _; by apply preserves_emit].
  apply preserves_try_except; [|apply ca_fallback_filled].
  apply preserves_bind; [by apply preserves_request|]. intros body.
  destruct (CompleteArabic.find_parts _ _) as [parts|]; [|apply ca_fallback_filled].
  destruct (_ && _); [|apply ca_fallback_filled].
  apply preserves_for_each. intros [src part] Hin. cbv zeta.
  apply preserves_modify. intros w Hw. apply filled_insert; [|done].
  apply keep_or. apply elem_of_zip_l in Hin.
  rewrite Forall_forall in Hne. by apply Hne.
Qed.

Lemma ca_collect_nonempty (cache : gmap str str) (seen : gset str)
  (texts : list str) :
  Forall (λ src, src ≠ []) (CompleteArabic.collect cache seen texts).
Proof.
  revert seen. induction texts as [|t texts IH]; intros seen; [constructor|].
  cbn [CompleteArabic.collect]. cbv zeta.
  destruct (nonempty (CompleteArabic.normalize t)) eqn:E; simpl; [|apply IH].
  destruct (_ || _); [apply IH|].
  constructor; [by apply nonempty_true|apply IH].
Qed.

Lemma ca_batch_translate_filled (texts : list str) :
  preserves filled (CompleteArabic.batch_translate net texts).
Proof.
  unfold CompleteArabic.batch_translate.
  apply preserves_bind; [apply preserves_get|]. intros cache. cbv zeta.
  pose proof (ca_collect_nonempty cache ∅ texts) as Hne.
  destruct (CompleteArabic.collect cache ∅ texts) as [|u uniq] eqn:E;
    [apply preserves_ret|].
  rewrite BatcherFacts.chunk_loop_all.
  apply preserves_for_each. intros chunk Hchunk.
  apply ca_process_chunk_filled. apply Forall_forall. intros src Hsrc.
  rewrite Forall_forall in Hne. apply Hne.
  by eapply CompleteExistingFacts.batches_elem.
Qed.

(** complete_existing_course_translations.py *)
Lemma attempts_raising_filled (backoff : N) (text lang : str) (range : list N) :
  preserves filled (attempts_raising net backoff text lang range).
Proof.
  induction range as [|a range IH]; intros w Hw; [done|].
  rewrite attempts_raising_cons.
  destruct (net (nreq w) lang text) as [body|].
  - destruct (nonempty (strip body)) eqn:E.
    + simpl. apply (filled_insert (lang, text) (strip body) (World (store w) _));
        [|done].
      by apply nonempty_true.
    + by apply IH.
  - by apply IH.
Qed.

Lemma ce_translate_google_filled (text lang : str) :
  preserves filled (CompleteExisting.translate_google net text lang).
Proof.
  unfold CompleteExisting.translate_google, translate_google_raising. cbv zeta.
  destruct (negb _); [apply preserves_ret|].
  apply preserves_bind; [apply preserves_get|]. intros cache.
  destruct (cache !! _); [apply preserves_ret|].
  apply attempts_raising_filled.
Qed.

Lemma ce_fallback_one_filled (lang src : str) :
  src ≠ [] → preserves filled (CompleteExisting.fallback_one net lang src).
Proof.
  intros Hne. unfold CompleteExisting.fallback_one.
  apply preserves_bind; [|intros _; by apply preserves_emit].
  apply preserves_try_except.
  - apply preserves_bind; [apply ce_translate_google_filled|].
    intros _. apply preserves_ret.
  - apply preserves_modify. intros w Hw. by apply filled_insert.
Qed.

Lemma ce_process_chunk_filled (lang : str) (chunk : list str) :
  Forall (λ src, src ≠ []) chunk →
  preserves filled (CompleteExisting.process_chunk net lang chunk).
Proof.
  intros Hne. rewrite Forall_forall in Hne.
  unfold CompleteExisting.process_chunk. cbv zeta.
  apply preserves_bind; [|intros _; by apply preserves_emit].
  apply preserves_try_except.
  - apply preserves_bind; [apply ce_translate_google_filled|]. intros translated.
    destruct (negb _); [apply preserves_raise|].
    apply preserves_for_each. intros [src part] Hin. cbv zeta.
    apply preserves_modify. intros w Hw. apply filled_insert; [|done].
    apply keep_or. apply elem_of_zip_l in Hin. by apply Hne.
  - apply preserves_for_each. intros src Hsrc.
    apply ce_fallback_one_filled. by apply Hne.
Qed.

Lemma ce_batch_translate_texts_filled (texts : list str) (lang : str) :
  preserves filled (CompleteExisting.batch_translate_texts net texts lang).
Proof.
  unfold CompleteExisting.batch_translate_texts.
  apply preserves_bind; [apply preserves_get|]. intros cache. cbv zeta.
  destruct (UniqFacts.ce_collect_spec lang cache texts ∅) as (_ & _ & Hin).
  destruct (CompleteExisting.collect lang cache ∅ texts) as [|u uniq] eqn:E;
    [apply preserves_ret|].
  rewrite BatcherFacts.chunk_loop_all.
  apply preserves_for_each. intros chunk Hchunk.
  apply ce_process_chunk_filled. apply Forall_forall. intros src Hsrc.
  pose proof (CompleteExistingFacts.batches_elem _ _ _ _ _ _ Hchunk Hsrc) as Hu.
  apply Hin in Hu. by destruct Hu as (_ & ? & _).
Qed.
End Facts.
End FilledFacts.

(** The caches of complete_arabic_translations.py and of
    complete_existing_course_translations.py never receive an empty
    translation: when every value of the cache is a non-empty string before
    a call of [translate_google] or of the batch function, the same holds
    after it, however the call ends and whatever the service answers (a
    blank answer or a blank part is replaced by the phrase itself or not
    stored at all).  The other two batch functions have no such guard. *)
Theorem caches_never_receive_an_empty_translation :
  (∀ (net : service) (text : str) (w : world (gmap str str)),
     (∀ k v, store w !! k = Some v → v ≠ []) →
     ∀ k v, store (CompleteArabic.translate_google net text w).2 !! k = Some v
            → v ≠ [])
  ∧ (∀ (net : service) (texts : list str) (w : world (gmap str str)),
       (∀ k v, store w !! k = Some v → v ≠ []) →
       ∀ k v, store (CompleteArabic.batch_translate net texts w).2 !! k = Some v
              → v ≠ [])
  ∧ (∀ (net : service) (text lang : str) (w : world (gmap (str * str) str)),
       (∀ k v, store w !! k = Some v → v ≠ []) →
       ∀ k v, store (CompleteExisting.translate_google net text lang w).2 !! k
              = Some v → v ≠ [])
  ∧ (∀ (net : service) (texts : list str) (lang : str)
       (w : world (gmap (str * str) str)),
       (∀ k v, store w !! k = Some v → v ≠ []) →
       ∀ k v, store (CompleteExisting.batch_translate_texts net texts lang w).2
                !! k = Some v → v ≠ []).
Proof.
  split_and!.
  - intros net text w. apply FilledFacts.ca_translate_google_filled.
  - intros net texts w. apply FilledFacts.ca_batch_translate_filled.
  - intros net text lang w. apply FilledFacts.ce_translate_google_filled.
  - intros net texts lang w. apply FilledFacts.ce_batch_translate_texts_filled.
Qed.

Lemma caches_never_receive_an_empty_translation_witness :
  ∃ w',
    CompleteArabic.batch_translate Examples2.blank Examples2.two_phrases
      (World ∅ []) = (Ok (), w')
    ∧ ∀ k v, store w' !! k = Some v → v ≠ [].
Proof.
  destruct (CompleteArabicFacts.ca_batch_translate_total Examples2.blank
              Examples2.two_phrases (World ∅ [])) as ([] & w' & E).
  exists w'. split; [done|].
  pose proof (proj1 (proj2 caches_never_receive_an_empty_translation)
                Examples2.blank Examples2.two_phrases (World ∅ [])) as H.
  rewrite E in H. apply H.
  intros k v Hk. cbn [store] in Hk. by rewrite lookup_empty in Hk.
Defined.

(** ** Runs without a network *)

Module OfflineFacts.
Import TraceFacts RunFacts ClientFacts.

(** Every entry of the cache maps a text to itself. *)
Definition identity_cache (w : world (gmap str str)) : Prop :=
  ∀ k v, store w !! k = Some v → v = k.

Lemma identity_insert (k : str) (w : world (gmap str str)) :
  identity_cache w → identity_cache (World (<[k := k]> (store w)) (trace w)).
Proof.
  intros Hw k' v'. cbn [store]. rewrite lookup_insert.
  case_decide; [by intros [= <-]|apply Hw].
Qed.

Lemma identity_default (w : world (gmap str str)) (src : str) :
  identity_cache w → default src (store w !! src) = src.
Proof.
  intros Hw. destruct (store w !! src) as [v|] eqn:E; [|done].
  simpl. by apply Hw in E.
Qed.

Section Facts.
Variable net : service.
Hypothesis down : ∀ n lang text, net n lang text = None.

(** batch_translate_visible_nodes.py *)
Lemma bv_fallback_offline (lang : str) (chunk : list str)
  (w : world (gmap str str)) :
  identity_cache w →
  ∃ w', for_each (BatchVisible.fallback_one net lang) chunk w = (Ok (), w')
        ∧ identity_cache w'.
Proof.
  revert w. induction chunk as [|src chunk IH]; intros w Hw; [by exists w|].
  cbn [for_each]. unfold bind.
  rewrite BatchVisibleFacts.fallback_one_run, down.
  apply IH. by apply (identity_insert src (World (store w) _)).
Qed.

Lemma bv_batches_offline (lang : str) (bs : list (list str))
  (w : world (gmap str str)) :
  identity_cache w →
  ∃ w', for_each (BatchVisible.process_chunk net lang) bs w = (Ok (), w')
        ∧ identity_cache w'.
Proof.
  revert w. induction bs as [|b bs IH]; intros w Hw; [by exists w|].
  cbn [for_each]. unfold bind at 1.
  rewrite (BatchVisibleFacts.process_chunk_failure net lang b w (down _ _ _)).
  destruct (bv_fallback_offline lang b
              (World (store w)
                 (trace w ++ [Request lang (join BatchVisible.sep b)])) Hw)
    as (w1 & E1 & H1).
  unfold bind at 1. rewrite E1. cbn [sleep emit].
  apply IH. exact H1.
Qed.

(** complete_arabic_translations.py *)
Lemma ca_attempts_offline (text : str) (range : list N) :
  preserves identity_cache (CompleteArabic.attempts net text range).
Proof.
  induction range as [|a range IH]; intros w Hw; [done|].
  rewrite CompleteArabicFacts.ca_attempts_cons, down.
  destruct (a =? 2).
  - simpl. by apply (identity_insert text (World (store w) _)).
  - by apply IH.
Qed.

Lemma ca_translate_google_offline (text : str) :
  preserves identity_cache (CompleteArabic.translate_google net text).
Proof.
  unfold CompleteArabic.translate_google. cbv zeta.
  destruct (negb _); [apply preserves_ret|].
  apply preserves_bind; [apply preserves_get|]. intros cache.
  destruct (cache !! _); [apply preserves_ret|apply ca_attempts_offline].
Qed.

Lemma ca_fallback_offline (chunk : list str) :
  preserves identity_cache (CompleteArabic.fallback net chunk).
Proof.
  apply preserves_for_each. intros src _.
  apply preserves_bind; [apply ca_translate_google_offline|].
  intros _. by apply preserves_emit.
Qed.

Lemma ca_process_chunk_offline (chunk : list str) :
  preserves identity_cache (CompleteArabic.process_chunk net chunk).
Proof.
  intros w Hw.
  unfold CompleteArabic.process_chunk, try_except, bind at 1 2, request.
  cbv zeta. rewrite down.
  pose proof (ca_fallback_offline chunk
                (World (store w)
                   (trace w ++ [Request (lit "ar")
                                  (join CompleteArabic.SEP chunk)])) Hw) as H.
  destruct (CompleteArabic.fallback net chunk _) as [[[]| |] w1]; exact H.
Qed.

Lemma ca_batch_translate_offline (texts : list str) :
  preserves identity_cache (CompleteArabic.batch_translate net texts).
Proof.
  unfold CompleteArabic.batch_translate.
  apply preserves_bind; [apply preserves_get|]. intros cache. cbv zeta.
  destruct (CompleteArabic.collect cache ∅ texts) as [|u uniq];
    [apply preserves_ret|].
  rewrite BatcherFacts.chunk_loop_all.
  apply preserves_for_each. intros chunk _. apply ca_process_chunk_offline.
Qed.
End Facts.

Lemma apply_translations_identity (cache : gmap str str) (targets : list target)
  (doc : list node) (c : nat) :
  (∀ k v, cache !! k = Some v → v = k) →
  CompleteArabic.apply_translations cache targets doc c = (doc, c).
Proof.
  intros Hid. revert doc c. induction targets as [|t targets IH]; intros doc c;
    [done|].
  cbn [CompleteArabic.apply_translations]. cbv zeta.
  assert (default (t_src t) (cache !! t_src t) = t_src t) as ->.
  { destruct (cache !! t_src t) as [v|] eqn:E; [|done]. simpl. by apply Hid in E. }
  rewrite bool_decide_eq_false_2 by (by intros ?). rewrite andb_false_r.
  apply IH.
Qed.
End OfflineFacts.

(** A run without a network translates nothing.  When every request
    fails, [process_file] of complete_arabic_translations.py (started with
    a cache that holds no translation yet) reports zero changes, leaves the
    page as it is and writes nothing; [process_file] of
    batch_translate_visible_nodes.py still returns, leaves the nodes it did
    not select alone and puts into every selected node its own normalized
    text between its own leading and trailing whitespace, so that such a
    node changes, and is counted, only if its text was not normalized
    inside. *)
Theorem offline_run_translates_nothing `{U : Unicode} :
  (∀ (net : service) (doc : list node) (dry_run : bool)
     (w : world (gmap str str)),
     (∀ n lang text, net n lang text = None) →
     (∀ k v, store w !! k = Some v → v = k) →
     ∃ w', CompleteArabic.process_file net doc dry_run w
           = (Ok (Processed 0 doc None), w'))
  ∧ (∀ (net : service) (doc : list node) (lang : str) (dry_run : bool)
       (tr : list event),
       (∀ n lang text, net n lang text = None) →
       ∃ r tr',
         BatchVisible.process_file net doc lang dry_run tr = (Ok r, tr')
         ∧ (∀ pos n t,
              doc !! pos = Some n → BatchVisible.select pos n = Some t →
              final_doc r !! pos
              = Some (Node (parent n)
                        (ws_prefix (text n) ++ BatchVisible.normalize (text n)
                         ++ ws_suffix (text n))))
         ∧ (∀ pos n,
              doc !! pos = Some n → BatchVisible.select pos n = None →
              final_doc r !! pos = Some n)).
Proof.
  split.
  - intros net doc dry_run w Hdown Hid.
    unfold CompleteArabic.process_file. cbv zeta.
    destruct (collect_targets CompleteArabic.select doc) as [|t targets] eqn:Et;
      [by exists w|].
    destruct (CompleteArabicFacts.ca_batch_translate_total net
                (t_src <$> t :: targets) w) as ([] & w' & E).
    pose proof (OfflineFacts.ca_batch_translate_offline net Hdown
                  (t_src <$> t :: targets) w Hid) as Hid'.
    rewrite E in Hid'. cbn [snd] in Hid'.
    exists w'. unfold bind at 1. rewrite E. unfold bind, get. cbn [store].
    by rewrite (OfflineFacts.apply_translations_identity _ _ _ _ Hid').
  - intros net doc lang dry_run tr Hdown.
    unfold BatchVisible.process_file. cbv zeta.
    set (targets := collect_targets BatchVisible.select doc).
    assert (∃ mapping tr',
              match t_src <$> targets with
              | [] => (Ok ∅, tr)
              | _ => BatchVisible.batch_translate net (t_src <$> targets) lang tr
              end = (Ok mapping, tr')
              ∧ ∀ k v, mapping !! k = Some v → v = k)
      as (mapping & tr' & -> & Hid).
    { destruct (t_src <$> targets) as [|p ps] eqn:E.
      - exists ∅, tr. split; [done|]. intros k v Hk. by rewrite lookup_empty in Hk.
      - unfold BatchVisible.batch_translate, BatchVisible.batch_loop. cbv zeta.
        rewrite BatcherFacts.chunk_loop_all.
        destruct (OfflineFacts.bv_batches_offline net Hdown lang
                    (Batcher.batches BatchVisible.max_items BatchVisible.max_len
                       BatchVisible.sep (BatchVisible.dedup ∅ (p :: ps)))
                    (World ∅ tr)) as (w' & Ew & Hw).
        { intros k v Hk. cbn [store] in Hk. by rewrite lookup_empty in Hk. }
        rewrite Ew. by exists (store w'), (trace w'). }
    unfold BatchVisible.rewrite.
    set (lookup := λ src, default src (mapping !! src)).
    assert (∀ src, lookup src = src) as Hlookup.
    { intros src. unfold lookup. destruct (mapping !! src) as [v|] eqn:E; [|done].
      simpl. by apply Hid in E. }
    destruct (apply_targets lookup targets doc 0) as [doc' c] eqn:Ea.
    eexists _, tr'. split; [done|]. cbn [final_doc].
    assert (doc' = (apply_targets lookup targets doc 0).1) as ->
      by (by rewrite Ea).
    assert (∀ p m u, BatchVisible.select p m = Some u → t_pos u = p) as Hpos.
    { intros p m u Hu. by destruct (SelectFacts.bv_select_spec p m u Hu) as [-> _]. }
    split.
    + intros pos n t Hd Hsel.
      destruct (SelectFacts.bv_select_spec pos n t Hsel) as [Ht Hnb].
      assert (t_pos t = pos) as Hp by (by rewrite Ht).
      pose proof (RewriterFacts.apply_targets_at lookup targets doc 0 t
                    (RewriterFacts.collect_targets_nodup _ Hpos doc)) as Hat.
      rewrite Hp in Hat. rewrite Hat.
      2:{ apply (RewriterFacts.collect_targets_elem _ Hpos). exists n.
          by rewrite Hp. }
      assert (RewriterFacts.new_text lookup t
              = ws_prefix (text n) ++ BatchVisible.normalize (text n)
                ++ ws_suffix (text n)) as Hnew.
      { unfold RewriterFacts.new_text. rewrite Hlookup, Ht. cbn.
        by rewrite StrFacts.leading_of_ws_prefix, StrFacts.trailing_of_ws_suffix. }
      rewrite Hd. case_decide as En.
      * unfold RewriterFacts.is_noop in En. rewrite Hnew in En.
        rewrite En, Ht. cbn. by destruct n.
      * by rewrite Hnew.
    + intros pos n Hd Hsel.
      rewrite RewriterFacts.apply_targets_other; [done|].
      intros (t & Hp & Hin)%list_elem_of_fmap.
      apply (RewriterFacts.collect_targets_elem _ Hpos) in Hin as (m & Hm & Hs).
      rewrite <- Hp in Hm, Hs. congruence.
Qed.

Lemma offline_run_translates_nothing_witness :
  ∃ w', @CompleteArabic.process_file latin1_tables Examples.down Examples.page
          false (World ∅ [])
        = (Ok (Processed 0 Examples.page None), w').
Proof.
  apply (proj1 (@offline_run_translates_nothing latin1_tables)).
  - done.
  - intros k v Hk. cbn [store] in Hk. by rewrite lookup_empty in Hk.
Defined.

(** ** More on the classifiers *)

(** The classifiers judge the normalized text: each gives the same
    answer for a text and for its normalized form (for the stripped text
    in audit_arabic_gaps.py), so that classifying the already normalized
    phrase, as the selection loops do, decides as classifying the raw text
    of the node would. *)
Theorem classifiers_judge_the_normalized_text `{U : Unicode} :
  ∀ (t : str) (m : nat),
    BatchVisible.is_english_like (BatchVisible.normalize t) m
    = BatchVisible.is_english_like t m
    ∧ CompleteExisting.is_english_like (CompleteExisting.normalize t) m
      = CompleteExisting.is_english_like t m
    ∧ CompleteArabic.is_english_like (CompleteArabic.normalize t)
      = CompleteArabic.is_english_like t
    ∧ SyncSource.is_english_source_text (SyncSource.normalize t)
      = SyncSource.is_english_source_text t
    ∧ FixArabicJs.is_translatable_js_string (FixArabicJs.normalize t)
      = FixArabicJs.is_translatable_js_string t
    ∧ AuditGaps.is_english_like (strip t) = AuditGaps.is_english_like t.
Proof.
  intros t m. split_and!.
  - unfold BatchVisible.is_english_like, BatchVisible.normalize.
    by rewrite StrFacts.normalize_quotes_idemp.
  - unfold CompleteExisting.is_english_like, CompleteExisting.normalize.
    by rewrite StrFacts.normalize_quotes_idemp.
  - unfold CompleteArabic.is_english_like, CompleteArabic.normalize.
    by rewrite StrFacts.normalize_plain_idemp.
  - unfold SyncSource.is_english_source_text, SyncSource.normalize.
    by rewrite StrFacts.normalize_quotes_idemp.
  - unfold FixArabicJs.is_translatable_js_string, FixArabicJs.normalize.
    by rewrite StrFacts.normalize_plain_idemp.
  - unfold AuditGaps.is_english_like. by rewrite StrFacts.strip_idemp.
Qed.

(** Asking for fewer words accepts more: a text that [is_english_like]
    accepts with [min_words = m] is accepted with every smaller
    [min_words] (what passes as the text of a node, with three words
    asked, passes as an attribute value, with two). *)
Theorem fewer_required_words_accept_more `{U : Unicode} (t : str) (m m' : nat) :
  (m' ≤ m)%nat →
  (BatchVisible.is_english_like t m = true →
   BatchVisible.is_english_like t m' = true)
  ∧ (CompleteExisting.is_english_like t m = true →
     CompleteExisting.is_english_like t m' = true).
Proof.
  intros Hm. split.
  - unfold BatchVisible.is_english_like. cbv zeta.
    destruct (_ <? 10)%nat; [done|].
    destruct (Nat.ltb_spec (length (ascii_lower_str <$>
                findall 2 (BatchVisible.normalize t))) m) as [|H]; [done|].
    by rewrite (proj2 (Nat.ltb_ge _ m')) by lia.
  - unfold CompleteExisting.is_english_like. cbv zeta.
    destruct (_ <? 8)%nat; [done|].
    destruct (Nat.ltb_spec (length (ascii_lower_str <$>
                findall 2 (CompleteExisting.normalize t))) m) as [|H]; [done|].
    by rewrite (proj2 (Nat.ltb_ge _ m')) by lia.
Qed.

Lemma fewer_required_words_accept_more_witness :
  @BatchVisible.is_english_like latin1_tables Examples.padded 2 = true
  ∧ @CompleteExisting.is_english_like latin1_tables Examples.padded 2 = true.
Proof.
  destruct (@fewer_required_words_accept_more latin1_tables Examples.padded 3 2)
    as [Hbv Hce]; [lia|].
  split; [apply Hbv|apply Hce]; by vm_compute.
Defined.
